(** * script.js: page behaviours as state machines over one shared DOM store

    The script is one [DOMContentLoaded] callback that queries the document,
    registers event listeners and an [IntersectionObserver], and from then on
    only reacts to events.  The embedding follows that shape:

    - [Store] is the mutable part of the page the script reads and writes
      (attributes, inline styles, class lists, observer targets, the closure
      variable [usingKeyboard], the registered listeners);
    - every closure of the source is a constructor of [handler], run by
      [run_handler];
    - [DOMContentLoaded] is the start-up code, [dispatch] is DOM event
      propagation (target to root, then document, then window, honouring
      [stopPropagation]), [step] and [run] feed inputs to the page. *)

From Stdlib Require Import QArith Qcanon SpecFloat Ascii String.
From stdpp Require Import gmap strings list fin_maps numbers.

#[local] Set Warnings "-clear-no-such-hyp,-unused-intro-pattern".

Open Scope string_scope.

(** ** JavaScript numbers

    Pointer coordinates, rectangles and everything the script computes from
    them are JS numbers, that is IEEE 754 binary64 values.  [number] is the
    standard library's specification of such a value (a signed zero, a signed
    infinity, NaN, or sign, mantissa and exponent; JS cannot observe a NaN's
    payload), and the operators are its operations at precision 53 with
    largest exponent 1024: each result is the exact one rounded to the
    nearest double, ties to even. *)
Module JsNum.

Definition prec : Z := 53.
Definition emax : Z := 1024.

Definition number : Type := spec_float.

#[global] Instance number_eq_dec : EqDecision number.
Proof. unfold number. solve_decision. Defined.

(** An integer literal or an integer the platform hands over, such as the
    index [forEach] passes: the nearest double. *)
Definition of_Z (z : Z) : number := binary_normalize prec emax z 0 false.
Definition of_nat (n : nat) : number := of_Z (Z.of_nat n).

Definition nan : number := S754_nan.

(** [a + b], [a - b], [a * b], [a / b] *)
Definition nadd (a b : number) : number := SFadd prec emax a b.
Definition nsub (a b : number) : number := SFsub prec emax a b.
Definition nmul (a b : number) : number := SFmul prec emax a b.
Definition ndiv (a b : number) : number := SFdiv prec emax a b.

(** The literal [0.5], that is 2^52 * 2^-53. *)
Definition half : number := S754_finite false 4503599627370496 (-53).

(** [${n}] in a template literal.  Distinct doubles print differently, except
    that [-0] prints as [0]; a printed number is kept as the double it
    denotes. *)
Definition printed (n : number) : number :=
  match n with S754_zero _ => S754_zero false | _ => n end.

End JsNum.
Import JsNum.

(** ** The DOM store *)

(** Elements are identified by number. *)
Abbreviation elem := nat (only parsing).

(** An event target a listener can be registered on. *)
Inductive node := Elem (el : elem) | Document | Window.

#[global] Instance node_eq_dec : EqDecision node.
Proof. solve_decision. Defined.

(** What [getBoundingClientRect()] returns (the fields the script reads). *)
Record DOMRect := { left : number; top : number; width : number; height : number }.

(** A value of an inline style property.  Plain values are strings; the two
    template literals the script builds keep their interpolated numbers, as
    [printed]: [LeafTransform tx ty r] is
    [translate(${tx}px, ${ty}px) rotate(${r}deg)] and [CardTransform rx ry] is
    [perspective(600px) rotateX(${rx}deg) rotateY(${ry}deg)]. *)
Inductive cssval :=
  | Text (s : string)
  | LeafTransform (tx ty rot : number)
  | CardTransform (rx ry : number).

#[global] Instance cssval_eq_dec : EqDecision cssval.
Proof. solve_decision. Defined.

(** The closures the script passes to [addEventListener], with the variables
    each one captures. *)
Inductive handler :=
  | ToggleClick (toggle nav : elem)
  | OutsideClick (toggle nav : elem)
  | EscapeKey (toggle nav : elem)
  | MarqueePointerEnter (content : elem)
  | MarqueePointerLeave (content : elem)
  | MarqueeFocusIn (content : elem)
  | MarqueeFocusOut (content : elem)
  | HeroPointerMove (hero : elem) (leaves : list elem)
  | HeroPointerLeave (leaves : list elem)
  | CardPointerMove (card : elem)
  | CardPointerLeave (card : elem)
  | TabKey
  | MouseDown.

#[global] Instance handler_eq_dec : EqDecision handler.
Proof. solve_decision. Defined.

Abbreviation listener := (node * string * handler)%type (only parsing).

(** The [IntersectionObserver] the script constructs: its [threshold] option
    and its current observation targets. *)
Record Observer := { threshold : Qc; targets : gset elem }.

Record Store := {
  attrs : gmap (elem * string) string;      (* getAttribute / setAttribute *)
  styles : gmap (elem * string) cssval;     (* el.style.prop, absent = '' *)
  classes : gset (elem * string);           (* el.classList *)
  observer : option Observer;               (* [io], when it was constructed *)
  usingKeyboard : bool;                     (* closure variable of keyboardFocusOutline *)
  listeners : list listener;                (* in registration order *)
  layout : elem → DOMRect;                  (* getBoundingClientRect *)
  documentElement : elem                    (* document.documentElement *)
}.

Definition set_attrs (f : gmap (elem * string) string → gmap (elem * string) string)
    (st : Store) : Store :=
  {| attrs := f (attrs st); styles := styles st; classes := classes st;
     observer := observer st; usingKeyboard := usingKeyboard st;
     listeners := listeners st; layout := layout st;
     documentElement := documentElement st |}.

Definition set_styles (f : gmap (elem * string) cssval → gmap (elem * string) cssval)
    (st : Store) : Store :=
  {| attrs := attrs st; styles := f (styles st); classes := classes st;
     observer := observer st; usingKeyboard := usingKeyboard st;
     listeners := listeners st; layout := layout st;
     documentElement := documentElement st |}.

Definition set_classes (f : gset (elem * string) → gset (elem * string))
    (st : Store) : Store :=
  {| attrs := attrs st; styles := styles st; classes := f (classes st);
     observer := observer st; usingKeyboard := usingKeyboard st;
     listeners := listeners st; layout := layout st;
     documentElement := documentElement st |}.

Definition set_observer (o : option Observer) (st : Store) : Store :=
  {| attrs := attrs st; styles := styles st; classes := classes st;
     observer := o; usingKeyboard := usingKeyboard st;
     listeners := listeners st; layout := layout st;
     documentElement := documentElement st |}.

Definition set_usingKeyboard (b : bool) (st : Store) : Store :=
  {| attrs := attrs st; styles := styles st; classes := classes st;
     observer := observer st; usingKeyboard := b;
     listeners := listeners st; layout := layout st;
     documentElement := documentElement st |}.

Definition set_listeners (f : list listener → list listener) (st : Store) : Store :=
  {| attrs := attrs st; styles := styles st; classes := classes st;
     observer := observer st; usingKeyboard := usingKeyboard st;
     listeners := f (listeners st); layout := layout st;
     documentElement := documentElement st |}.

Definition set_layout (l : elem → DOMRect) (st : Store) : Store :=
  {| attrs := attrs st; styles := styles st; classes := classes st;
     observer := observer st; usingKeyboard := usingKeyboard st;
     listeners := listeners st; layout := l;
     documentElement := documentElement st |}.

(** [el.getAttribute(a)]: [None] is [null].  [attrs] holds the content
    attributes the script reaches through [getAttribute] and [setAttribute],
    under the lower-case names the DOM stores them by.  The [class] and
    [style] attributes, which a browser keeps in step with the class list and
    the inline style, are not read through it: the script never asks for
    them, and the statements below leave them out. *)
Definition getAttribute (el : elem) (a : string) (st : Store) : option string :=
  attrs st !! (el, a).

(** [el.setAttribute(a, v)] *)
Definition setAttribute (el : elem) (a v : string) (st : Store) : Store :=
  set_attrs <[(el, a) := v]> st.

(** [el.style.p]: a property that is not set reads as the empty string.
    Every property name is a cell of its own, holding what was last assigned
    through that name: how the browser spreads a shorthand ([animation],
    [background], [padding], [borderRadius]) over its longhands, and its
    refusal of values it cannot parse, are not modelled.  Statements about
    all properties of an element are therefore made only of elements the
    script never styles, or of an element without any inline style. *)
Definition getStyle (el : elem) (p : string) (st : Store) : cssval :=
  default (Text "") (styles st !! (el, p)).

(** [el.style.p = v]: assigning the empty string removes the property. *)
Definition setStyle (el : elem) (p : string) (v : cssval) (st : Store) : Store :=
  set_styles (if decide (v = Text "") then delete (el, p) else <[(el, p) := v]>) st.

(** [el.classList.contains(c)], [.add(c)], [.remove(c)] *)
Definition hasClass (el : elem) (c : string) (st : Store) : bool :=
  bool_decide ((el, c) ∈ classes st).
Definition addClass (el : elem) (c : string) (st : Store) : Store :=
  set_classes (λ cs, {[ (el, c) ]} ∪ cs) st.
Definition removeClass (el : elem) (c : string) (st : Store) : Store :=
  set_classes (λ cs, cs ∖ {[ (el, c) ]}) st.

(** [io.observe(el)], [observer.unobserve(el)] *)
Definition observe (el : elem) (st : Store) : Store :=
  match observer st with
  | Some o => set_observer (Some {| threshold := threshold o; targets := {[ el ]} ∪ targets o |}) st
  | None => st
  end.
Definition unobserve (el : elem) (st : Store) : Store :=
  match observer st with
  | Some o => set_observer (Some {| threshold := threshold o; targets := targets o ∖ {[ el ]} |}) st
  | None => st
  end.

(** The elements the observer currently watches. *)
Definition registrations (st : Store) : gset elem :=
  match observer st with Some o => targets o | None => ∅ end.

(** [target.addEventListener(ty, h)] *)
Definition addEventListener (n : node) (ty : string) (h : handler) (st : Store) : Store :=
  set_listeners (λ ls, (ls ++ [(n, ty, h)])%list) st.

(** ** Events *)

(** A dispatched event: its type, whether it bubbles, the propagation path
    from [e.target] up to the root element, and the fields the script reads. *)
Record event := {
  etype : string;
  bubbles : bool;
  path : list elem;
  key : option string;
  clientX : number;
  clientY : number
}.

(** [el.contains(e.target)]: [el] is the target or one of its ancestors. *)
Definition contains (el : elem) (e : event) : bool := bool_decide (el ∈ path e).

(** An [IntersectionObserverEntry]. *)
Record entry := { target : elem; isIntersecting : bool; intersectionRatio : Qc }.

(** ** Mobile navigation toggle (lines 14-67) *)

(** [openNav] and [closeNav] close over [toggle] and [nav], either of which
    may be [null].  With [nav] present and [toggle] absent the first statement
    throws a TypeError before anything is written ([None]). *)
Definition openNav (toggle nav : option elem) (st : Store) : option Store :=
  match nav with
  | None => Some st
  | Some nav =>
      toggle ← toggle;
      let st := setAttribute toggle "aria-expanded" "true" st in
      let st := setStyle nav "display" (Text "block") st in
      let st := setStyle nav "flexDirection" (Text "column") st in
      let st := setStyle nav "position" (Text "absolute") st in
      let st := setStyle nav "right" (Text "28px") st in
      let st := setStyle nav "top" (Text "72px") st in
      let st := setStyle nav "background" (Text "rgba(255,255,255,0.95)") st in
      let st := setStyle nav "padding" (Text "12px") st in
      let st := setStyle nav "borderRadius" (Text "10px") st in
      let st := setStyle nav "boxShadow" (Text "0 10px 30px rgba(10,20,10,0.08)") st in
      Some st
  end.

Definition closeNav (toggle nav : option elem) (st : Store) : option Store :=
  match nav with
  | None => Some st
  | Some nav =>
      toggle ← toggle;
      let st := setAttribute toggle "aria-expanded" "false" st in
      let st := setStyle nav "display" (Text "") st in
      let st := setStyle nav "flexDirection" (Text "") st in
      let st := setStyle nav "position" (Text "") st in
      let st := setStyle nav "right" (Text "") st in
      let st := setStyle nav "top" (Text "") st in
      let st := setStyle nav "background" (Text "") st in
      let st := setStyle nav "padding" (Text "") st in
      let st := setStyle nav "borderRadius" (Text "") st in
      let st := setStyle nav "boxShadow" (Text "") st in
      Some st
  end.

(** A listener that throws leaves the store as it was when it threw; the
    dispatcher reports the exception and carries on. *)
Definition or_unchanged (st : Store) (r : option Store) : Store := default st r.

(** The calls [openNav()] and [closeNav()] as the listeners make them, with
    both elements at hand. *)
Definition opened (toggle nav : elem) (st : Store) : Store :=
  or_unchanged st (openNav (Some toggle) (Some nav) st).
Definition closed (toggle nav : elem) (st : Store) : Store :=
  or_unchanged st (closeNav (Some toggle) (Some nav) st).

(** [toggle.getAttribute('aria-expanded') === 'true'] *)
Definition expanded (toggle : elem) (st : Store) : bool :=
  bool_decide (getAttribute toggle "aria-expanded" st = Some "true").

(** [nav.style.display === 'block'] *)
Definition isOpen (nav : elem) (st : Store) : bool :=
  bool_decide (getStyle nav "display" st = Text "block").

(** ** Running a listener

    The result is the new store and whether the listener called
    [e.stopPropagation()]. *)

(** [const depth = (i + 1) * 6] and [const baseRotate = (i % 2) ? -12 : 6]
    for the index [i] that [forEach] passes. *)
Definition depth (i : nat) : number := nmul (nadd (of_nat i) (of_Z 1)) (of_Z 6).
Definition baseRotate (i : nat) : number :=
  if Nat.eqb (i mod 2) 0 then of_Z 6 else of_Z (-12).

(** [leaves.forEach((leaf, i) => ...)] of the parallax handler, from index [i]. *)
Fixpoint parallaxLeaves (x y : number) (i : nat) (leaves : list elem) (st : Store) : Store :=
  match leaves with
  | [] => st
  | leaf :: rest =>
      parallaxLeaves x y (S i) rest
        (setStyle leaf "transform"
           (LeafTransform (printed (nmul x (depth i))) (printed (nmul y (depth i)))
              (printed (baseRotate i))) st)
  end.

Definition run_handler (h : handler) (e : event) (st : Store) : Store * bool :=
  match h with
  | ToggleClick toggle nav =>
      let st' := if expanded toggle st then closed toggle nav st else opened toggle nav st in
      (st', true)
  | OutsideClick toggle nav =>
      (if isOpen nav st && negb (contains nav e) && negb (contains toggle e)
       then closed toggle nav st else st, false)
  | EscapeKey toggle nav =>
      (if bool_decide (key e = Some "Escape") && isOpen nav st
       then closed toggle nav st else st, false)
  | MarqueePointerEnter content =>
      (setStyle content "animationPlayState" (Text "paused") st, false)
  | MarqueePointerLeave content =>
      (setStyle content "animationPlayState" (Text "") st, false)
  | MarqueeFocusIn content =>
      (setStyle content "animationPlayState" (Text "paused") st, false)
  | MarqueeFocusOut content =>
      (setStyle content "animationPlayState" (Text "") st, false)
  | HeroPointerMove hero leaves =>
      let rect := layout st hero in
      let x := nsub (ndiv (nsub (clientX e) (left rect)) (width rect)) half in
      let y := nsub (ndiv (nsub (clientY e) (top rect)) (height rect)) half in
      (parallaxLeaves x y 0 leaves st, false)
  | HeroPointerLeave leaves =>
      (foldl (λ st leaf, setStyle leaf "transform" (Text "") st) st leaves, false)
  | CardPointerMove card =>
      let rect := layout st card in
      let px := ndiv (nsub (clientX e) (left rect)) (width rect) in
      let py := ndiv (nsub (clientY e) (top rect)) (height rect) in
      let rotateX := nmul (nsub py half) (of_Z 6) in
      let rotateY := nmul (nsub px half) (of_Z (-6)) in
      (setStyle card "transform" (CardTransform (printed rotateX) (printed rotateY)) st,
       false)
  | CardPointerLeave card =>
      (setStyle card "transform" (Text "") st, false)
  | TabKey =>
      (if bool_decide (key e = Some "Tab")
       then addClass (documentElement st) "using-keyboard" (set_usingKeyboard true st)
       else st, false)
  | MouseDown =>
      (if usingKeyboard st
       then removeClass (documentElement st) "using-keyboard" (set_usingKeyboard false st)
       else st, false)
  end.

(** ** Start-up: the [DOMContentLoaded] callback *)

(** What the script asks of [window]: the result of
    [matchMedia('(prefers-reduced-motion: reduce)').matches] when [matchMedia]
    exists, and whether ['IntersectionObserver' in window]. *)
Record Env := { matchMedia : option bool; hasIntersectionObserver : bool }.

(** [window.matchMedia && window.matchMedia(...).matches] (line 9); a missing
    [matchMedia] gives [undefined], which every later test reads as false. *)
Definition prefersReducedMotion (env : Env) : bool := default false (matchMedia env).

(** The results of the script's [querySelector] / [querySelectorAll] calls.  A
    marquee comes with the result of [m.querySelector('.marquee-content')];
    [doc_leaves] is [hero.querySelectorAll('.leaf')]. *)
Record Page := {
  doc_toggle : option elem;
  doc_nav : option elem;
  doc_reveals : list elem;
  doc_marquees : list (elem * option elem);
  doc_hero : option elem;
  doc_leaves : list elem;
  doc_cards : list elem
}.

(** The page as parsed, before the script has run. *)
Record Markup := {
  m_attrs : gmap (elem * string) string;
  m_styles : gmap (elem * string) cssval;
  m_classes : gset (elem * string);
  m_layout : elem → DOMRect;
  m_documentElement : elem
}.

Definition load (mk : Markup) : Store :=
  {| attrs := m_attrs mk; styles := m_styles mk; classes := m_classes mk;
     observer := None; usingKeyboard := false; listeners := [];
     layout := m_layout mk; documentElement := m_documentElement mk |}.

(** Lines 46-67. *)
Definition initNav (doc : Page) (st : Store) : Store :=
  match doc_toggle doc, doc_nav doc with
  | Some toggle, Some nav =>
      let st := addEventListener (Elem toggle) "click" (ToggleClick toggle nav) st in
      let st := addEventListener Document "click" (OutsideClick toggle nav) st in
      addEventListener Document "keydown" (EscapeKey toggle nav) st
  | _, _ => st
  end.

(** The literal [0.12] of [{ threshold: 0.12 }]. *)
Definition revealThreshold : Qc := Q2Qc (12 # 100).

(** Lines 72-87. *)
Definition initReveal (env : Env) (doc : Page) (st : Store) : Store :=
  if negb (prefersReducedMotion env) && hasIntersectionObserver env then
    let st := set_observer (Some {| threshold := revealThreshold; targets := ∅ |}) st in
    foldl (λ st el, observe el st) st (doc_reveals doc)
  else
    foldl (λ st el, addClass el "visible" st) st (doc_reveals doc).

(** The body of [marquees.forEach] (lines 93-118) for one marquee. *)
Definition initMarquee (env : Env) (st : Store) (m : elem * option elem) : Store :=
  match m.2 with
  | None => st
  | Some content =>
      let st := addEventListener (Elem m.1) "pointerenter" (MarqueePointerEnter content) st in
      let st := addEventListener (Elem m.1) "pointerleave" (MarqueePointerLeave content) st in
      let st := addEventListener (Elem m.1) "focusin" (MarqueeFocusIn content) st in
      let st := addEventListener (Elem m.1) "focusout" (MarqueeFocusOut content) st in
      if prefersReducedMotion env then
        let st := setStyle content "animation" (Text "none") st in
        setStyle content "transform" (Text "translateX(0)") st
      else st
  end.

Definition initMarquees (env : Env) (doc : Page) (st : Store) : Store :=
  foldl (initMarquee env) st (doc_marquees doc).

(** Lines 123-142. *)
Definition initHero (env : Env) (doc : Page) (st : Store) : Store :=
  match doc_hero doc with
  | Some hero =>
      if negb (prefersReducedMotion env) then
        let leaves := doc_leaves doc in
        let st := addEventListener (Elem hero) "pointermove" (HeroPointerMove hero leaves) st in
        addEventListener (Elem hero) "pointerleave" (HeroPointerLeave leaves) st
      else st
  | None => st
  end.

(** The body of [cards.forEach] (lines 149-163) for one card. *)
Definition initCard (st : Store) (card : elem) : Store :=
  let st := addEventListener (Elem card) "pointermove" (CardPointerMove card) st in
  addEventListener (Elem card) "pointerleave" (CardPointerLeave card) st.

Definition initCards (env : Env) (doc : Page) (st : Store) : Store :=
  if negb (prefersReducedMotion env) then foldl initCard st (doc_cards doc) else st.

(** Lines 169-183. *)
Definition keyboardFocusOutline (st : Store) : Store :=
  let st := set_usingKeyboard false st in
  let st := addEventListener Window "keydown" TabKey st in
  addEventListener Window "mousedown" MouseDown st.

Definition DOMContentLoaded (env : Env) (doc : Page) (mk : Markup) : Store :=
  let st := load mk in
  let st := initNav doc st in
  let st := initReveal env doc st in
  let st := initMarquees env doc st in
  let st := initHero env doc st in
  let st := initCards env doc st in
  keyboardFocusOutline st.

(** ** Event dispatch *)

(** The listeners registered on [n] for events of type [ty], in order. *)
Fixpoint listeners_on (n : node) (ty : string) (ls : list listener) : list handler :=
  match ls with
  | [] => []
  | (n', ty', h) :: ls =>
      if decide (n' = n ∧ ty' = ty) then h :: listeners_on n ty ls
      else listeners_on n ty ls
  end.

(** Run the listeners of one node; the flag tells whether one of them stopped
    propagation (the remaining listeners of the same node still run). *)
Fixpoint run_listeners (hs : list handler) (e : event) (st : Store) : Store * bool :=
  match hs with
  | [] => (st, false)
  | h :: hs =>
      let r := run_handler h e st in
      let r' := run_listeners hs e r.1 in
      (r'.1, r.2 || r'.2)
  end.

(** Walk the propagation path.  The result is the final store and the
    listeners that were invoked, in order. *)
Fixpoint propagate (nodes : list node) (e : event) (st : Store) : Store * list handler :=
  match nodes with
  | [] => (st, [])
  | n :: nodes =>
      let hs := listeners_on n (etype e) (listeners st) in
      let r := run_listeners hs e st in
      if r.2 then (r.1, hs)
      else let r' := propagate nodes e r.1 in (r'.1, (hs ++ r'.2)%list)
  end.

(** The nodes an event visits in the bubbling phase: the target's inclusive
    ancestors, then the document, then the window; an event that does not
    bubble is delivered to its target only. *)
Definition event_path (e : event) : list node :=
  if bubbles e then ((Elem <$> path e) ++ [Document; Window])%list
  else Elem <$> take 1 (path e).

Definition dispatch (e : event) (st : Store) : Store := (propagate (event_path e) e st).1.
Definition invoked (e : event) (st : Store) : list handler := (propagate (event_path e) e st).2.

(** The observer's callback (lines 74-80). *)
Definition revealCallback (entries : list entry) (st : Store) : Store :=
  foldl (λ st en,
           if isIntersecting en
           then unobserve (target en) (addClass (target en) "visible" st)
           else st) st entries.

(** ** The page as a machine *)

(** What can happen to the page after start-up: an event is dispatched, the
    observer delivers a batch of entries, or the layout changes. *)
Inductive input :=
  | Dispatch (e : event)
  | Notify (entries : list entry)
  | Reflow (l : elem → DOMRect).

Definition step (i : input) (st : Store) : Store :=
  match i with
  | Dispatch e => dispatch e st
  | Notify entries =>
      match observer st with
      | Some _ => revealCallback entries st
      | None => st
      end
  | Reflow l => set_layout l st
  end.

Definition run (inputs : list input) (st : Store) : Store := foldl (flip step) st inputs.

(** Events as the browser builds them. *)
Definition mouseEvent (ty : string) (bubbling : bool) (p : list elem) (x y : number) : event :=
  {| etype := ty; bubbles := bubbling; path := p; key := None; clientX := x; clientY := y |}.
Definition click (p : list elem) : event := mouseEvent "click" true p (of_Z 0) (of_Z 0).
Definition mousedown (p : list elem) : event := mouseEvent "mousedown" true p (of_Z 0) (of_Z 0).
Definition pointermove (p : list elem) (x y : number) : event := mouseEvent "pointermove" true p x y.
Definition pointerenter (el : elem) : event := mouseEvent "pointerenter" false [el] (of_Z 0) (of_Z 0).
Definition pointerleave (el : elem) : event := mouseEvent "pointerleave" false [el] (of_Z 0) (of_Z 0).
Definition keydown (k : string) (p : list elem) : event :=
  {| etype := "keydown"; bubbles := true; path := p; key := Some k;
     clientX := nan; clientY := nan |}.
Definition focusin (p : list elem) : event :=
  {| etype := "focusin"; bubbles := true; path := p; key := None;
     clientX := nan; clientY := nan |}.
Definition focusout (p : list elem) : event :=
  {| etype := "focusout"; bubbles := true; path := p; key := None;
     clientX := nan; clientY := nan |}.

(** A small page used in the examples: toggle 1, nav 2, marquee 3 with
    content 4, hero 5 with leaves 6 and 7, card 8, reveal 9; the root
    element is 0. *)
Definition demoRect : DOMRect :=
  {| left := of_Z 100; top := of_Z 50; width := of_Z 200; height := of_Z 100 |}.
Definition demoMarkup : Markup :=
  {| m_attrs := {[ (1, "aria-expanded") := "false" ]}; m_styles := ∅; m_classes := ∅;
     m_layout := λ _, demoRect; m_documentElement := 0 |}.
Definition demoDoc : Page :=
  {| doc_toggle := Some 1; doc_nav := Some 2; doc_reveals := [9];
     doc_marquees := [(3, Some 4)]; doc_hero := Some 5; doc_leaves := [6; 7];
     doc_cards := [8] |}.
Definition fullMotion : Env := {| matchMedia := Some false; hasIntersectionObserver := true |}.
Definition reducedMotion : Env := {| matchMedia := Some true; hasIntersectionObserver := true |}.

(** ** Vocabulary of the statements *)

(** [s] differs from [st] in inline styles only. *)
Definition styles_only (st s : Store) : Prop := ∃ f, s = set_styles f st.

(** [s] has the listeners, layout, root element and observer of [st]. *)
Definition same_env (st s : Store) : Prop :=
  listeners s = listeners st ∧ layout s = layout st
  ∧ documentElement s = documentElement st ∧ observer s = observer st.

(** The nine inline style properties the navigation functions write. *)
Definition navProps : list string :=
  ["display"; "flexDirection"; "position"; "right"; "top"; "background"; "padding";
   "borderRadius"; "boxShadow"].

(** Case analysis on which assignment of a chain of [setStyle]s is read. *)
Ltac style_case :=
  match goal with
  | |- context [decide ((?a, ?b) = (?c, ?d))] =>
      destruct (decide ((a, b) = (c, d))); simplify_eq
  end.

(** Only the toggle's click listener stops propagation. *)
Definition stops (h : handler) : bool :=
  match h with ToggleClick _ _ => true | _ => false end.

(** The listeners each part of the start-up code registers. *)
Definition navListeners (doc : Page) : list listener :=
  match doc_toggle doc, doc_nav doc with
  | Some t, Some n =>
      [(Elem t, "click", ToggleClick t n); (Document, "click", OutsideClick t n);
       (Document, "keydown", EscapeKey t n)]
  | _, _ => []
  end.

Definition marqueeListeners (m : elem * option elem) : list listener :=
  match m.2 with
  | Some c =>
      [(Elem m.1, "pointerenter", MarqueePointerEnter c);
       (Elem m.1, "pointerleave", MarqueePointerLeave c);
       (Elem m.1, "focusin", MarqueeFocusIn c);
       (Elem m.1, "focusout", MarqueeFocusOut c)]
  | None => []
  end.

Definition heroListeners (env : Env) (doc : Page) : list listener :=
  match doc_hero doc with
  | Some h =>
      if prefersReducedMotion env then []
      else [(Elem h, "pointermove", HeroPointerMove h (doc_leaves doc));
            (Elem h, "pointerleave", HeroPointerLeave (doc_leaves doc))]
  | None => []
  end.

Definition cardListeners (card : elem) : list listener :=
  [(Elem card, "pointermove", CardPointerMove card);
   (Elem card, "pointerleave", CardPointerLeave card)].

Definition keyboardListeners : list listener :=
  [(Window, "keydown", TabKey); (Window, "mousedown", MouseDown)].

Definition installed (env : Env) (doc : Page) : list listener :=
  (navListeners doc ++ (doc_marquees doc ≫= marqueeListeners) ++ heroListeners env doc
   ++ (if prefersReducedMotion env then [] else doc_cards doc ≫= cardListeners)
   ++ keyboardListeners)%list.

(** Where a listener of the page sits, and under which conditions it exists. *)
Definition installed_ok (env : Env) (doc : Page) (l : listener) : Prop :=
  match l.2 with
  | ToggleClick t n =>
      l.1 = (Elem t, "click") ∧ doc_toggle doc = Some t ∧ doc_nav doc = Some n
  | OutsideClick t n =>
      l.1 = (Document, "click") ∧ doc_toggle doc = Some t ∧ doc_nav doc = Some n
  | EscapeKey t n =>
      l.1 = (Document, "keydown") ∧ doc_toggle doc = Some t ∧ doc_nav doc = Some n
  | MarqueePointerEnter c =>
      ∃ m, l.1 = (Elem m, "pointerenter") ∧ (m, Some c) ∈ doc_marquees doc
  | MarqueePointerLeave c =>
      ∃ m, l.1 = (Elem m, "pointerleave") ∧ (m, Some c) ∈ doc_marquees doc
  | MarqueeFocusIn c =>
      ∃ m, l.1 = (Elem m, "focusin") ∧ (m, Some c) ∈ doc_marquees doc
  | MarqueeFocusOut c =>
      ∃ m, l.1 = (Elem m, "focusout") ∧ (m, Some c) ∈ doc_marquees doc
  | HeroPointerMove h lv =>
      l.1 = (Elem h, "pointermove") ∧ doc_hero doc = Some h ∧ lv = doc_leaves doc
      ∧ prefersReducedMotion env = false
  | HeroPointerLeave lv =>
      ∃ h, l.1 = (Elem h, "pointerleave") ∧ doc_hero doc = Some h ∧ lv = doc_leaves doc
      ∧ prefersReducedMotion env = false
  | CardPointerMove c =>
      l.1 = (Elem c, "pointermove") ∧ c ∈ doc_cards doc ∧ prefersReducedMotion env = false
  | CardPointerLeave c =>
      l.1 = (Elem c, "pointerleave") ∧ c ∈ doc_cards doc ∧ prefersReducedMotion env = false
  | TabKey => l.1 = (Window, "keydown")
  | MouseDown => l.1 = (Window, "mousedown")
  end.

Definition widgetListeners (env : Env) (doc : Page) : list listener :=
  ((doc_marquees doc ≫= marqueeListeners) ++ heroListeners env doc
   ++ (if prefersReducedMotion env then [] else doc_cards doc ≫= cardListeners))%list.

Definition widgetTypes : list string :=
  ["pointerenter"; "pointerleave"; "focusin"; "focusout"; "pointermove"].

(** The inline style properties a listener assigns. *)
Definition writes (h : handler) (el : elem) (p : string) : Prop :=
  match h with
  | ToggleClick _ n | OutsideClick _ n | EscapeKey _ n => el = n ∧ p ∈ navProps
  | MarqueePointerEnter c | MarqueePointerLeave c | MarqueeFocusIn c | MarqueeFocusOut c =>
      el = c ∧ p = "animationPlayState"
  | HeroPointerMove _ lv | HeroPointerLeave lv => el ∈ lv ∧ p = "transform"
  | CardPointerMove c | CardPointerLeave c => el = c ∧ p = "transform"
  | TabKey | MouseDown => False
  end.

(** The batch holds an entry for [el] that the callback acts on. *)
Definition reveals_now (el : elem) (entries : list entry) : Prop :=
  ∃ en, en ∈ entries ∧ target en = el ∧ isIntersecting en = true.

(** The input is a notification carrying an entry for [el] that the callback
    acts on. *)
Definition notifies (el : elem) (i : input) : Prop :=
  match i with Notify entries => reveals_now el entries | _ => False end.

(** [s] has the class lists and the observer of [st]. *)
Definition same_reveal (st s : Store) : Prop :=
  classes s = classes st ∧ observer s = observer st.

(** A Tab key press. *)
Definition tab_press (i : input) : Prop :=
  match i with
  | Dispatch e => etype e = "keydown" ∧ key e = Some "Tab"
  | _ => False
  end.

(** The two properties the reduced-motion branch assigns. *)
Definition motionless (c : elem) (st : Store) : Prop :=
  getStyle c "animation" st = Text "none"
  ∧ getStyle c "transform" st = Text "translateX(0)".

(** What the marquee listeners registered for an event type assign to
    [animationPlayState]. *)
Definition marqueeAssigns (ty : string) : option cssval :=
  if decide (ty = "pointerenter" ∨ ty = "focusin") then Some (Text "paused")
  else if decide (ty = "pointerleave" ∨ ty = "focusout") then Some (Text "")
  else None.

(** The two conditions of the marquee's pause rule, read off the event
    history: the pointer is over [m] after a pointerenter at [m] until the
    next pointerleave at [m]; focus is within [m] after a focusin that
    passes [m] until the next focusout that passes [m]. *)
Definition hovering (m : elem) (inputs : list input) : bool :=
  foldl (λ b i,
           match i with
           | Dispatch e =>
               if bool_decide (etype e = "pointerenter" ∧ head (path e) = Some m) then true
               else if bool_decide (etype e = "pointerleave" ∧ head (path e) = Some m)
                    then false else b
           | _ => b
           end) false inputs.

Definition focusWithin (m : elem) (inputs : list input) : bool :=
  foldl (λ b i,
           match i with
           | Dispatch e =>
               if bool_decide (etype e = "focusin" ∧ m ∈ path e) then true
               else if bool_decide (etype e = "focusout" ∧ m ∈ path e) then false else b
           | _ => b
           end) false inputs.

(** The pause rule in the words of the specification. *)
Definition spec_paused (m : elem) (inputs : list input) : bool :=
  hovering m inputs || focusWithin m inputs.

(** [content.style.animationPlayState] is 'paused'. *)
Definition paused (content : elem) (st : Store) : bool :=
  bool_decide (getStyle content "animationPlayState" st = Text "paused").

(** A fraction of a box counted from its centre: [f - 1/2]. *)
Definition fromCentre (f : number) : number := nsub f (ndiv (of_Z 1) (of_Z 2)).

(** The parallax of the specification for the leaf at index [i] and the
    pointer at offsets [x], [y] from the centre: a translation by [x] and [y]
    times [(i + 1) * 6], and a rotation of 6 for an even and -12 for an odd
    index. *)
Definition leafTransform (x y : number) (i : nat) : cssval :=
  let d := nmul (nadd (of_nat i) (of_Z 1)) (of_Z 6) in
  LeafTransform (printed (nmul x d)) (printed (nmul y d))
    (if Nat.even i then of_Z 6 else of_Z (-12)).

(** The tilt of the specification for the pointer at fractions [px], [py]
    of the card's box: [rotateX = (py - 1/2) * 6], [rotateY = (px - 1/2) * -6]. *)
Definition cardTransform (px py : number) : cssval :=
  CardTransform (printed (nmul (fromCentre py) (of_Z 6)))
    (printed (nmul (fromCentre px) (of_Z (-6)))).

(** The normalised pointer position the two listeners compute from an event
    and a bounding box. *)
Definition fractionX (e : event) (rect : DOMRect) : number :=
  ndiv (nsub (clientX e) (left rect)) (width rect).
Definition fractionY (e : event) (rect : DOMRect) : number :=
  ndiv (nsub (clientY e) (top rect)) (height rect).


(** The double that holds the integer [z] exactly, for [0 < z < 2^53]: [z]
    shifted up to a mantissa of 53 bits. *)
Definition exactZ (z : Z) : number :=
  S754_finite false (Z.to_pos (z * 2 ^ (prec - Zdigits2 z))%Z) (Zdigits2 z - prec)%Z.

(** [m1 * 2^e1 <= m2 * 2^e2], compared at the smaller exponent. *)
Definition dyadic_le (m1 e1 m2 e2 : Z) : Prop :=
  (m1 * 2 ^ (e1 - Z.min e1 e2) ≤ m2 * 2 ^ (e2 - Z.min e1 e2))%Z.

(** [|a| <= |b|], for [a] and [b] finite. *)
Definition mag_le (a b : number) : Prop :=
  match a, b with
  | S754_zero _, (S754_zero _ | S754_finite _ _ _) => True
  | S754_finite _ m1 e1, S754_finite _ m2 e2 => dyadic_le (Zpos m1) e1 (Zpos m2) e2
  | _, _ => False
  end.

(** [0 <= d <= w], for [d] finite and [w] finite and positive. *)
Definition within (d w : number) : Prop :=
  match d, w with
  | S754_zero _, S754_finite false _ _ => True
  | S754_finite false m1 e1, S754_finite false m2 e2 =>
      dyadic_le (Zpos m1) e1 (Zpos m2) e2
  | _, _ => False
  end.

(** The attribute a listener assigns. *)
Definition writesAttr (h : handler) (el : elem) (a : string) : Prop :=
  match h with
  | ToggleClick t _ | OutsideClick t _ | EscapeKey t _ => el = t ∧ a = "aria-expanded"
  | _ => False
  end.

(** The inline style properties the script may assign on a page after
    start-up: the nine navigation properties of the nav (when the toggle
    exists too), the play state of a marquee's content, and, with motion not
    reduced, the transform of the hero's leaves and of the cards. *)
Definition owned (env : Env) (doc : Page) (el : elem) (p : string) : Prop :=
  (is_Some (doc_toggle doc) ∧ doc_nav doc = Some el ∧ p ∈ navProps)
  ∨ ((∃ m, (m, Some el) ∈ doc_marquees doc) ∧ p = "animationPlayState")
  ∨ (prefersReducedMotion env = false ∧ p = "transform"
     ∧ ((is_Some (doc_hero doc) ∧ el ∈ doc_leaves doc) ∨ el ∈ doc_cards doc)).

(** The targets of the entries of a batch that the callback acts on. *)
Definition revealed (entries : list entry) : gset elem :=
  list_to_set (target <$> filter (λ en, isIntersecting en = true) entries).

(** The callback's effect in one step: the revealed targets get the class
    and leave the observer. *)
Definition revealBatch (entries : list entry) (st : Store) : Store :=
  set_observer
    (match observer st with
     | Some o => Some {| threshold := threshold o;
                         targets := targets o ∖ revealed entries |}
     | None => None
     end)
    (set_classes (λ cs, set_map (λ el, (el, "visible")) (revealed entries) ∪ cs) st).

(** Start-up takes the degraded path of the reveal controller. *)
Definition degraded (env : Env) : bool :=
  negb (negb (prefersReducedMotion env) && hasIntersectionObserver env).

(** The number of listeners start-up registers. *)
Definition listenerCount (env : Env) (doc : Page) : nat :=
  (match doc_toggle doc, doc_nav doc with Some _, Some _ => 3 | _, _ => 0 end)
  + 4 * length (filter (λ m, is_Some m.2) (doc_marquees doc))
  + (if prefersReducedMotion env then 0
     else (match doc_hero doc with Some _ => 2 | None => 0 end)
          + 2 * length (doc_cards doc))
  + 2.

(** [s] has the attributes, root element and layout of [st]. *)
Definition same_page (st s : Store) : Prop :=
  attrs s = attrs st ∧ documentElement s = documentElement st ∧ layout s = layout st.

(** The elements whose inline style the script may assign after start-up:
    the nav (when the toggle exists too), the contents of the marquees and,
    with motion not reduced, the hero's leaves and the cards. *)
Definition styled (env : Env) (doc : Page) (el : elem) : Prop :=
  (is_Some (doc_toggle doc) ∧ doc_nav doc = Some el)
  ∨ (∃ m, (m, Some el) ∈ doc_marquees doc)
  ∨ (prefersReducedMotion env = false
     ∧ ((is_Some (doc_hero doc) ∧ el ∈ doc_leaves doc) ∨ el ∈ doc_cards doc)).

(** An HTML attribute name is matched without regard to ASCII case. *)
Definition lower_ascii (c : ascii) : ascii :=
  let n := nat_of_ascii c in
  if (65 <=? n)%nat && (n <=? 90)%nat then ascii_of_nat (n + 32) else c.
Fixpoint lower (s : string) : string :=
  match s with
  | EmptyString => EmptyString
  | String c s => String (lower_ascii c) (lower s)
  end.

(** The two content attributes a browser keeps in step with state the script
    changes through other interfaces: [class] mirrors the class list and
    [style] the inline style. *)
Definition reflected (a : string) : Prop := lower a = "class" ∨ lower a = "style".

(** * Properties *)

(** ** The store *)

Lemma getStyle_setStyle el p el' p' v st :
  getStyle el p (setStyle el' p' v st)
  = if decide ((el', p') = (el, p)) then v else getStyle el p st.
Proof.
  unfold getStyle, setStyle; cbn.
  destruct (decide (v = Text "")) as [->|Hv].
  - rewrite lookup_delete. by case_decide.
  - rewrite lookup_insert. by case_decide.
Qed.

Lemma getStyle_setStyle_eq el p v st : getStyle el p (setStyle el p v st) = v.
Proof. rewrite getStyle_setStyle. by rewrite decide_True. Qed.

Lemma getStyle_setStyle_ne el p el' p' v st :
  (el', p') ≠ (el, p) → getStyle el p (setStyle el' p' v st) = getStyle el p st.
Proof. intros. rewrite getStyle_setStyle. by rewrite decide_False. Qed.

Lemma styles_only_refl st : styles_only st st.
Proof. exists id. by destruct st. Qed.

Lemma styles_only_setStyle el p v st s :
  styles_only st s → styles_only st (setStyle el p v s).
Proof. intros [f ->]. unfold setStyle. by eexists (λ m, _ (f m)). Qed.

Lemma parallaxLeaves_styles_only x y i leaves st s :
  styles_only st s → styles_only st (parallaxLeaves x y i leaves s).
Proof.
  revert i s. induction leaves as [|leaf rest IH]; intros i s Hs; cbn; [done|].
  by apply IH, styles_only_setStyle.
Qed.

Lemma resetLeaves_styles_only (leaves : list elem) st s :
  styles_only st s →
  styles_only st (foldl (λ st leaf, setStyle leaf "transform" (Text "") st) s leaves).
Proof.
  revert s. induction leaves as [|leaf rest IH]; intros s Hs; cbn; [done|].
  by apply IH, styles_only_setStyle.
Qed.

Lemma same_env_refl st : same_env st st.
Proof. done. Qed.

Lemma same_env_trans st s s' : same_env st s → same_env s s' → same_env st s'.
Proof. unfold same_env. intros (-> & -> & -> & ->) (-> & -> & -> & ->). done. Qed.

Lemma styles_only_same_env st s : styles_only st s → same_env st s.
Proof. by intros [f ->]. Qed.

Lemma styles_only_classes st s : styles_only st s → classes s = classes st.
Proof. by intros [f ->]. Qed.

Lemma styles_only_usingKeyboard st s : styles_only st s → usingKeyboard s = usingKeyboard st.
Proof. by intros [f ->]. Qed.

Lemma styles_only_attrs st s : styles_only st s → attrs s = attrs st.
Proof. by intros [f ->]. Qed.

(** ** The navigation functions *)

Lemma openNav_Some t n st : is_Some (openNav (Some t) (Some n) st).
Proof. by eexists. Qed.

Lemma closeNav_Some t n st : is_Some (closeNav (Some t) (Some n) st).
Proof. by eexists. Qed.

Lemma opened_same_env t n st : same_env st (opened t n st).
Proof. done. Qed.

Lemma closed_same_env t n st : same_env st (closed t n st).
Proof. done. Qed.

Lemma opened_classes t n st :
  classes (opened t n st) = classes st ∧ usingKeyboard (opened t n st) = usingKeyboard st.
Proof. done. Qed.

Lemma closed_classes t n st :
  classes (closed t n st) = classes st ∧ usingKeyboard (closed t n st) = usingKeyboard st.
Proof. done. Qed.

Lemma opened_aria t n st : getAttribute t "aria-expanded" (opened t n st) = Some "true".
Proof. unfold getAttribute; cbn. by rewrite lookup_insert_eq. Qed.

Lemma closed_aria t n st : getAttribute t "aria-expanded" (closed t n st) = Some "false".
Proof. unfold getAttribute; cbn. by rewrite lookup_insert_eq. Qed.

Lemma opened_display t n st : getStyle n "display" (opened t n st) = Text "block".
Proof.
  unfold opened, openNav; cbn -[setStyle].
  rewrite !getStyle_setStyle. by repeat style_case.
Qed.

Lemma navProps_spec p :
  p ∈ navProps ↔
  p = "display" ∨ p = "flexDirection" ∨ p = "position" ∨ p = "right" ∨ p = "top"
  ∨ p = "background" ∨ p = "padding" ∨ p = "borderRadius" ∨ p = "boxShadow".
Proof. unfold navProps. rewrite !elem_of_cons, elem_of_nil. tauto. Qed.

Lemma closed_style t n p st :
  getStyle n p (closed t n st) = if decide (p ∈ navProps) then Text "" else getStyle n p st.
Proof.
  unfold closed, closeNav; cbn -[setStyle].
  rewrite !getStyle_setStyle.
  repeat (style_case; [by rewrite decide_True by (apply navProps_spec; tauto)|]).
  rewrite decide_False; [done|].
  rewrite navProps_spec. intros Hp.
  repeat (destruct Hp as [->|Hp]; [done|]). by subst.
Qed.

Lemma opened_style_other t n p st :
  p ∉ navProps → getStyle n p (opened t n st) = getStyle n p st.
Proof.
  intros Hp. unfold opened, openNav; cbn -[setStyle].
  rewrite !getStyle_setStyle.
  repeat (style_case; [exfalso; apply Hp, navProps_spec; tauto|]).
  done.
Qed.

Lemma opened_style_set t n p st : p ∈ navProps → getStyle n p (opened t n st) ≠ Text "".
Proof.
  intros Hp. unfold opened, openNav; cbn -[setStyle].
  rewrite !getStyle_setStyle.
  repeat (style_case; [done|]).
  exfalso. apply navProps_spec in Hp.
  repeat (destruct Hp as [->|Hp]; [done|]). by subst.
Qed.

Lemma nav_style_elsewhere t n el p st :
  el ≠ n →
  getStyle el p (opened t n st) = getStyle el p st
  ∧ getStyle el p (closed t n st) = getStyle el p st.
Proof.
  intros Hne. unfold opened, closed, openNav, closeNav; cbn -[setStyle].
  rewrite !getStyle_setStyle.
  split; repeat (style_case; try done); done.
Qed.

(** ** Listeners *)

Lemma run_TabKey_other e st : key e ≠ Some "Tab" → (run_handler TabKey e st).1 = st.
Proof. intros Hk. cbn. by rewrite bool_decide_eq_false_2. Qed.

Lemma run_handler_same_env h e st : same_env st (run_handler h e st).1.
Proof.
  destruct h; cbn -[opened closed]; repeat case_match; try done;
    apply styles_only_same_env;
    auto using parallaxLeaves_styles_only, resetLeaves_styles_only, styles_only_refl.
Qed.

Lemma run_handler_listeners h e st : listeners (run_handler h e st).1 = listeners st.
Proof. apply run_handler_same_env. Qed.

Lemma run_handler_stops h e st : (run_handler h e st).2 = stops h.
Proof. by destruct h. Qed.

Lemma initNav_listeners doc st :
  listeners (initNav doc st) = (listeners st ++ navListeners doc)%list.
Proof.
  unfold initNav, navListeners.
  destruct (doc_toggle doc), (doc_nav doc); cbn; rewrite ?app_nil_r; [|done..].
  by rewrite <- !app_assoc.
Qed.

Lemma observe_listeners el st : listeners (observe el st) = listeners st.
Proof. unfold observe. by destruct (observer st). Qed.

Lemma initReveal_listeners env doc st : listeners (initReveal env doc st) = listeners st.
Proof.
  unfold initReveal. case_match.
  - set (st0 := set_observer _ st). change (listeners st) with (listeners st0).
    generalize st0. induction (doc_reveals doc) as [|el l IH]; intros s; cbn; [done|].
    by rewrite IH, observe_listeners.
  - revert st. induction (doc_reveals doc) as [|el l IH]; intros s; cbn; [done|].
    by rewrite IH.
Qed.

Lemma initMarquee_listeners env st m :
  listeners (initMarquee env st m) = (listeners st ++ marqueeListeners m)%list.
Proof.
  unfold initMarquee, marqueeListeners. destruct (m.2); cbn; [|by rewrite app_nil_r].
  destruct (prefersReducedMotion env); cbn; by rewrite <- !app_assoc.
Qed.

Lemma initMarquees_listeners env doc st :
  listeners (initMarquees env doc st)
  = (listeners st ++ (doc_marquees doc ≫= marqueeListeners))%list.
Proof.
  unfold initMarquees. revert st.
  induction (doc_marquees doc) as [|m l IH]; intros st; cbn; [by rewrite app_nil_r|].
  by rewrite IH, initMarquee_listeners, <- app_assoc.
Qed.

Lemma initHero_listeners env doc st :
  listeners (initHero env doc st) = (listeners st ++ heroListeners env doc)%list.
Proof.
  unfold initHero, heroListeners.
  destruct (doc_hero doc); [|by rewrite app_nil_r].
  destruct (prefersReducedMotion env); cbn; [by rewrite app_nil_r|].
  by rewrite <- !app_assoc.
Qed.

Lemma initCards_listeners env doc st :
  listeners (initCards env doc st)
  = (listeners st
     ++ (if prefersReducedMotion env then [] else doc_cards doc ≫= cardListeners))%list.
Proof.
  unfold initCards. destruct (prefersReducedMotion env); cbn; [by rewrite app_nil_r|].
  revert st. induction (doc_cards doc) as [|c l IH]; intros st; cbn; [by rewrite app_nil_r|].
  rewrite IH. cbn. by rewrite <- !app_assoc.
Qed.

Lemma DOMContentLoaded_listeners env doc mk :
  listeners (DOMContentLoaded env doc mk) = installed env doc.
Proof.
  unfold DOMContentLoaded, keyboardFocusOutline, installed; cbn.
  rewrite initCards_listeners, initHero_listeners, initMarquees_listeners,
    initReveal_listeners, initNav_listeners. cbn.
  by rewrite <- !app_assoc.
Qed.

Lemma installed_all_ok env doc : Forall (installed_ok env doc) (installed env doc).
Proof.
  unfold installed. rewrite !Forall_app. repeat split.
  - unfold navListeners.
    destruct (doc_toggle doc) eqn:?, (doc_nav doc) eqn:?; repeat constructor; done.
  - apply list.Forall_forall. intros l (m & Hl & Hm)%list_elem_of_bind.
    destruct m as [m [c|]]; unfold marqueeListeners in Hl; cbn in Hl; [|by apply elem_of_nil in Hl].
    repeat (apply elem_of_cons in Hl as [->|Hl]; [by exists m|]).
    by apply elem_of_nil in Hl.
  - unfold heroListeners.
    destruct (doc_hero doc) eqn:?; [|constructor].
    destruct (prefersReducedMotion env) eqn:?; repeat constructor; cbn; eauto 10.
  - destruct (prefersReducedMotion env) eqn:?; [constructor|].
    apply list.Forall_forall. intros l (c & Hl & Hc)%list_elem_of_bind.
    unfold cardListeners in Hl.
    repeat (apply elem_of_cons in Hl as [->|Hl]; [done|]).
    by apply elem_of_nil in Hl.
  - repeat constructor.
Qed.

Lemma installed_ok_in env doc n ty h :
  (n, ty, h) ∈ installed env doc → installed_ok env doc (n, ty, h).
Proof. apply (proj1 (list.Forall_forall _ _) (installed_all_ok env doc)). Qed.

Lemma elem_of_listeners_on n ty h ls : h ∈ listeners_on n ty ls ↔ (n, ty, h) ∈ ls.
Proof.
  induction ls as [|[[n' ty'] h'] ls IH]; cbn.
  - by rewrite !elem_of_nil.
  - case_decide as Hd.
    + destruct Hd as [-> ->]. rewrite !elem_of_cons, IH. naive_solver.
    + rewrite elem_of_cons, IH. naive_solver.
Qed.

Lemma listeners_on_app n ty ls1 ls2 :
  listeners_on n ty (ls1 ++ ls2) = (listeners_on n ty ls1 ++ listeners_on n ty ls2)%list.
Proof.
  induction ls1 as [|[[n' ty'] h'] ls1 IH]; cbn; [done|].
  case_decide; by rewrite IH.
Qed.

Lemma listeners_on_nil n ty ls : (∀ h, (n, ty, h) ∉ ls) → listeners_on n ty ls = [].
Proof.
  intros Hno. destruct (listeners_on n ty ls) as [|h hs] eqn:Heq; [done|].
  destruct (Hno h). apply elem_of_listeners_on. rewrite Heq. by left.
Qed.

(** ** Propagation *)

Lemma run_listeners_stops hs e st : (run_listeners hs e st).2 = existsb stops hs.
Proof.
  revert st. induction hs as [|h hs IH]; intros st; cbn; [done|].
  by rewrite IH, run_handler_stops.
Qed.

Lemma run_listeners_preserves (P : Store → Prop) e hs st :
  (∀ h s, h ∈ hs → P s → P (run_handler h e s).1) →
  P st → P (run_listeners hs e st).1.
Proof.
  revert st. induction hs as [|h hs IH]; intros st Hstep Hst; cbn; [done|].
  apply IH.
  - intros h' s Hh'. apply Hstep. by right.
  - apply Hstep; [by left|done].
Qed.

Lemma run_listeners_same_env hs e st : same_env st (run_listeners hs e st).1.
Proof.
  apply (run_listeners_preserves (same_env st)); [|done].
  intros h s _ Hs. eapply same_env_trans; [done|]. apply run_handler_same_env.
Qed.

(** A property that every listener registered for the event's type keeps is
    kept by the whole dispatch. *)
Lemma propagate_preserves (P : Store → Prop) e nodes st :
  (∀ n h s, (n, etype e, h) ∈ listeners st → same_env st s → P s →
            P (run_handler h e s).1) →
  P st → P (propagate nodes e st).1.
Proof.
  intros Hstep Hst.
  enough (∀ s, same_env st s → P s →
               P (propagate nodes e s).1 ∧ same_env st (propagate nodes e s).1)
    as H by by apply H.
  induction nodes as [|n nodes IH]; intros s Hs HP; cbn; [done|].
  set (hs := listeners_on n (etype e) (listeners s)).
  assert (P (run_listeners hs e s).1 ∧ same_env st (run_listeners hs e s).1) as [HP' Hs'].
  { apply (run_listeners_preserves (λ s', P s' ∧ same_env st s')); [|done].
    intros h s' Hh [HP' Hs']. split.
    - apply (Hstep n); [|done..].
      apply elem_of_listeners_on in Hh. by rewrite (proj1 Hs) in Hh.
    - eapply same_env_trans; [done|]. apply run_handler_same_env. }
  destruct (run_listeners hs e s).2; cbn; [done|]. by apply IH.
Qed.

Lemma propagate_same_env nodes e st : same_env st (propagate nodes e st).1.
Proof.
  apply (propagate_preserves (same_env st)); [|done].
  intros n h s _ Hs _. eapply same_env_trans; [done|]. apply run_handler_same_env.
Qed.

(** Nodes without a listener for the event's type are passed over. *)
Lemma propagate_elems e st (p : list elem) rest :
  (∀ x, x ∈ p → listeners_on (Elem x) (etype e) (listeners st) = []) →
  propagate ((Elem <$> p) ++ rest) e st = propagate rest e st.
Proof.
  induction p as [|x p IH]; intros Hno; cbn; [done|].
  rewrite (Hno x) by by left. cbn.
  rewrite IH by (intros y Hy; apply Hno; by right).
  by destruct (propagate rest e st).
Qed.

(** If no listener for the event's type stops propagation, a property that
    one listener on the path establishes and the others keep holds after the
    dispatch. *)
Lemma propagate_establish (Q : Store → Prop) e nodes st n0 h0 :
  n0 ∈ nodes → (n0, etype e, h0) ∈ listeners st →
  (∀ n h, (n, etype e, h) ∈ listeners st → stops h = false) →
  (∀ s, same_env st s → Q (run_handler h0 e s).1) →
  (∀ n h s, (n, etype e, h) ∈ listeners st → same_env st s → Q s →
            Q (run_handler h e s).1) →
  Q (propagate nodes e st).1.
Proof.
  intros Hn0 Hh0 Hstop Hest Hkeep.
  assert (∀ hs s, (∀ h, h ∈ hs → ∃ n, (n, etype e, h) ∈ listeners st) →
                  same_env st s → Q s ∨ h0 ∈ hs → Q (run_listeners hs e s).1) as Hrun.
  { induction hs as [|h hs IH]; intros s Hhs Hs HQ; cbn.
    - destruct HQ as [HQ|Hin]; [done|by apply elem_of_nil in Hin].
    - apply IH.
      + intros h' Hh'. apply Hhs. by right.
      + eapply same_env_trans; [done|]. apply run_handler_same_env.
      + destruct HQ as [HQ|[->|Hin]%elem_of_cons]; [left|left; by apply Hest|by right].
        destruct (Hhs h) as [n Hn]; [by left|]. by apply (Hkeep n). }
  enough (∀ s, same_env st s → Q s ∨ n0 ∈ nodes → Q (propagate nodes e s).1)
    as H by (apply H; [done|by right]).
  clear Hn0. induction nodes as [|n nodes IH]; intros s Hs HQ; cbn.
  - destruct HQ as [HQ|Hin]; [done|by apply elem_of_nil in Hin].
  - set (hs := listeners_on n (etype e) (listeners s)).
    assert (∀ h, h ∈ hs → (n, etype e, h) ∈ listeners st) as Hhs.
    { intros h Hh. apply elem_of_listeners_on in Hh. by rewrite (proj1 Hs) in Hh. }
    rewrite run_listeners_stops.
    assert (existsb stops hs = false) as ->.
    { apply not_true_is_false. intros (h & Hh & Hs')%existsb_exists.
      apply list_elem_of_In, Hhs, Hstop in Hh. congruence. }
    cbn. apply IH.
    + eapply same_env_trans; [done|]. apply run_listeners_same_env.
    + destruct HQ as [HQ|[->|Hin]%elem_of_cons]; [left|left|by right].
      * apply Hrun; [naive_solver|done|by left].
      * apply Hrun; [naive_solver|done|right].
        apply elem_of_listeners_on. by rewrite (proj1 Hs).
Qed.

Lemma event_path_elem e x : Elem x ∈ event_path e → x ∈ path e.
Proof.
  unfold event_path. destruct (bubbles e).
  - rewrite elem_of_app, !elem_of_cons, elem_of_nil.
    intros [(y & [= ->] & Hy)%list_elem_of_fmap|[|[|]]]; done.
  - intros (y & [= ->] & Hy)%list_elem_of_fmap.
    destruct (path e); [by apply elem_of_nil in Hy|].
    cbn in Hy. apply list_elem_of_singleton in Hy as ->. by left.
Qed.

(** A dispatch that meets no listener changes nothing. *)
Lemma propagate_none e nodes st :
  (∀ n, n ∈ nodes → listeners_on n (etype e) (listeners st) = []) →
  propagate nodes e st = (st, []).
Proof.
  induction nodes as [|n nodes IH]; intros Hno; cbn; [done|].
  rewrite (Hno n) by by left. cbn.
  rewrite IH; [done|]. intros n' Hn'. apply Hno. by right.
Qed.

(** As [propagate_preserves], looking only at the listeners of the nodes the
    event visits. *)
Lemma propagate_preserves_on (P : Store → Prop) e nodes st :
  (∀ n h s, n ∈ nodes → (n, etype e, h) ∈ listeners st → same_env st s → P s →
            P (run_handler h e s).1) →
  P st → P (propagate nodes e st).1.
Proof.
  intros Hstep Hst.
  enough (∀ s, same_env st s → P s →
               P (propagate nodes e s).1 ∧ same_env st (propagate nodes e s).1)
    as H by by apply H.
  revert Hstep. induction nodes as [|n nodes IH]; intros Hstep s Hs HP; cbn; [done|].
  set (hs := listeners_on n (etype e) (listeners s)).
  assert (P (run_listeners hs e s).1 ∧ same_env st (run_listeners hs e s).1) as [HP' Hs'].
  { apply (run_listeners_preserves (λ s', P s' ∧ same_env st s')); [|done].
    intros h s' Hh [HP' Hs']. split.
    - apply (Hstep n); [by left| |done..].
      apply elem_of_listeners_on in Hh. by rewrite (proj1 Hs) in Hh.
    - eapply same_env_trans; [done|]. apply run_handler_same_env. }
  destruct (run_listeners hs e s).2; cbn; [done|].
  apply IH; [|done..]. intros n' h s' Hn'. apply Hstep. by right.
Qed.

(** Within one node: a property that one of the node's listeners
    establishes and the others keep holds after all of them have run. *)
Lemma run_listeners_establish (Q : Store → Prop) e hs h0 st :
  h0 ∈ hs →
  (∀ s, same_env st s → Q (run_handler h0 e s).1) →
  (∀ h s, h ∈ hs → same_env st s → Q s → Q (run_handler h e s).1) →
  Q (run_listeners hs e st).1.
Proof.
  intros Hin Hest Hkeep.
  enough (∀ s, same_env st s → Q s ∨ h0 ∈ hs → Q (run_listeners hs e s).1) as H
    by (apply H; [done|by right]).
  clear Hin. induction hs as [|h hs IH]; intros s Hs HQ; cbn.
  - destruct HQ as [HQ|Hin]; [done|by apply elem_of_nil in Hin].
  - apply IH.
    + intros h' s' Hh'. apply Hkeep. by right.
    + eapply same_env_trans; [done|]. apply run_handler_same_env.
    + destruct HQ as [HQ|[->|Hin]%elem_of_cons]; [left|left; by apply Hest|by right].
      apply Hkeep; [by left|done..].
Qed.

(** When no listener for the event's type stops propagation, the walk of a
    path is the walk of its first part followed by the walk of the rest. *)
Lemma propagate_app e nodes1 nodes2 st :
  (∀ n h, (n, etype e, h) ∈ listeners st → stops h = false) →
  (propagate (nodes1 ++ nodes2) e st).1
  = (propagate nodes2 e (propagate nodes1 e st).1).1.
Proof.
  intros Hstop.
  enough (∀ s, listeners s = listeners st →
               (propagate (nodes1 ++ nodes2) e s).1
               = (propagate nodes2 e (propagate nodes1 e s).1).1) as H by by apply H.
  induction nodes1 as [|n nodes1 IH]; intros s Hs; cbn; [done|].
  set (hs := listeners_on n (etype e) (listeners s)).
  rewrite run_listeners_stops.
  assert (existsb stops hs = false) as ->.
  { apply not_true_is_false. intros (h & Hh & Hs')%existsb_exists.
    apply list_elem_of_In, elem_of_listeners_on in Hh. rewrite Hs in Hh.
    apply Hstop in Hh. congruence. }
  cbn. apply IH. by rewrite (proj1 (run_listeners_same_env hs e s)).
Qed.


(** The last writer wins: when no listener for the event's type stops
    propagation, a property that a listener of one node of the path
    establishes, and that the listeners of that node and of the nodes after it
    keep, holds after the dispatch, whatever the listeners of the nodes before
    it do. *)
Lemma propagate_establish_from (Q : Store → Prop) e pre n0 post st h0 :
  (∀ n h, (n, etype e, h) ∈ listeners st → stops h = false) →
  (n0, etype e, h0) ∈ listeners st →
  (∀ s, same_env st s → Q (run_handler h0 e s).1) →
  (∀ n h s, n ∈ n0 :: post → (n, etype e, h) ∈ listeners st → same_env st s → Q s →
            Q (run_handler h e s).1) →
  Q (propagate (pre ++ n0 :: post) e st).1.
Proof.
  intros Hstop Hh0 Hest Hkeep. rewrite propagate_app by done.
  pose proof (propagate_same_env pre e st) as Hs1.
  set (s1 := (propagate pre e st).1) in *. cbn.
  set (hs := listeners_on n0 (etype e) (listeners s1)).
  assert (∀ h, h ∈ hs → (n0, etype e, h) ∈ listeners st) as Hhs.
  { intros h Hh. apply elem_of_listeners_on in Hh. by rewrite (proj1 Hs1) in Hh. }
  rewrite run_listeners_stops.
  assert (existsb stops hs = false) as ->.
  { apply not_true_is_false. intros (h & Hh & Hs')%existsb_exists.
    apply list_elem_of_In, Hhs, Hstop in Hh. congruence. }
  cbn.
  pose proof (run_listeners_same_env hs e s1) as Hs2.
  assert (Q (run_listeners hs e s1).1) as HQ.
  { apply (run_listeners_establish Q e hs h0).
    - apply elem_of_listeners_on. by rewrite (proj1 Hs1).
    - intros s Hs. apply Hest. by eapply same_env_trans.
    - intros h s Hh Hs. apply (Hkeep n0); [by left|by apply Hhs|by eapply same_env_trans]. }
  set (s2 := (run_listeners hs e s1).1) in *.
  assert (same_env st s2) as Hst2 by by eapply same_env_trans.
  apply (propagate_preserves_on Q); [|done].
  intros n h s Hn Hh Hs. rewrite (proj1 Hst2) in Hh.
  apply (Hkeep n); [by right|done|]. by eapply same_env_trans.
Qed.

(** ** Which listeners an event meets *)

Lemma installed_split env doc :
  installed env doc
  = (navListeners doc ++ widgetListeners env doc ++ keyboardListeners)%list.
Proof. unfold installed, widgetListeners. by rewrite <- !app_assoc. Qed.

Lemma widgetListeners_types env doc l :
  l ∈ widgetListeners env doc → l.1.2 ∈ widgetTypes ∧ ∃ el, l.1.1 = Elem el.
Proof.
  unfold widgetListeners, widgetTypes. rewrite !elem_of_app. intros [Hl|[Hl|Hl]].
  - apply list_elem_of_bind in Hl as ([m [c|]] & Hl & _);
      unfold marqueeListeners in Hl; cbn in Hl; [|by apply elem_of_nil in Hl].
    repeat (apply elem_of_cons in Hl as [->|Hl];
            [split; [cbn; rewrite !elem_of_cons; tauto|by eexists]|]).
    by apply elem_of_nil in Hl.
  - unfold heroListeners in Hl.
    destruct (doc_hero doc); [|by apply elem_of_nil in Hl].
    destruct (prefersReducedMotion env); [by apply elem_of_nil in Hl|].
    repeat (apply elem_of_cons in Hl as [->|Hl];
            [split; [cbn; rewrite !elem_of_cons; tauto|by eexists]|]).
    by apply elem_of_nil in Hl.
  - destruct (prefersReducedMotion env); [by apply elem_of_nil in Hl|].
    apply list_elem_of_bind in Hl as (c & Hl & _). unfold cardListeners in Hl.
    repeat (apply elem_of_cons in Hl as [->|Hl];
            [split; [cbn; rewrite !elem_of_cons; tauto|by eexists]|]).
    by apply elem_of_nil in Hl.
Qed.

Lemma widgetListeners_none env doc n ty :
  ty ∉ widgetTypes ∨ n = Document ∨ n = Window →
  listeners_on n ty (widgetListeners env doc) = [].
Proof.
  intros Hty. apply listeners_on_nil. intros h Hh.
  apply widgetListeners_types in Hh as [Hin [el Hel]]. cbn in *. naive_solver.
Qed.

Lemma not_widget_type ty :
  ty = "click" ∨ ty = "keydown" ∨ ty = "mousedown" → ty ∉ widgetTypes.
Proof.
  unfold widgetTypes. rewrite !elem_of_cons, elem_of_nil.
  intros [-> | [-> | ->]] H; repeat (destruct H as [H|H]; [done|]); done.
Qed.

Lemma listeners_on_click env doc t n node :
  doc_toggle doc = Some t → doc_nav doc = Some n →
  listeners_on node "click" (installed env doc)
  = match node with
    | Elem x => if decide (x = t) then [ToggleClick t n] else []
    | Document => [OutsideClick t n]
    | Window => []
    end.
Proof.
  intros Ht Hn. rewrite installed_split, !listeners_on_app.
  rewrite widgetListeners_none by (left; apply not_widget_type; tauto).
  unfold navListeners. rewrite Ht, Hn.
  destruct node as [x| |]; cbn; repeat case_decide; naive_solver.
Qed.

Lemma listeners_on_keydown env doc node :
  listeners_on node "keydown" (installed env doc)
  = match node with
    | Elem x => []
    | Document => match doc_toggle doc, doc_nav doc with
                  | Some t, Some n => [EscapeKey t n]
                  | _, _ => []
                  end
    | Window => [TabKey]
    end.
Proof.
  rewrite installed_split, !listeners_on_app.
  rewrite widgetListeners_none by (left; apply not_widget_type; tauto).
  unfold navListeners.
  destruct (doc_toggle doc), (doc_nav doc), node as [x| |]; cbn;
    repeat case_decide; naive_solver.
Qed.

Lemma listeners_on_mousedown env doc node :
  listeners_on node "mousedown" (installed env doc)
  = match node with Window => [MouseDown] | _ => [] end.
Proof.
  rewrite installed_split, !listeners_on_app.
  rewrite widgetListeners_none by (left; apply not_widget_type; tauto).
  unfold navListeners.
  destruct (doc_toggle doc), (doc_nav doc), node as [x| |]; cbn;
    repeat case_decide; naive_solver.
Qed.

(** ** Inputs keep the listeners *)

Lemma revealCallback_frame entries st :
  listeners (revealCallback entries st) = listeners st
  ∧ documentElement (revealCallback entries st) = documentElement st
  ∧ usingKeyboard (revealCallback entries st) = usingKeyboard st
  ∧ styles (revealCallback entries st) = styles st
  ∧ attrs (revealCallback entries st) = attrs st
  ∧ layout (revealCallback entries st) = layout st.
Proof.
  unfold revealCallback. revert st.
  induction entries as [|en entries IH]; intros st; cbn; [done|].
  destruct (IH (if isIntersecting en
                then unobserve (target en) (addClass (target en) "visible" st)
                else st)) as (-> & -> & -> & -> & -> & ->).
  destruct (isIntersecting en); [|done].
  unfold unobserve. by destruct (observer _).
Qed.

Lemma step_listeners i st :
  listeners (step i st) = listeners st ∧ documentElement (step i st) = documentElement st.
Proof.
  destruct i as [e|entries|l]; cbn.
  - destruct (propagate_same_env (event_path e) e st) as (? & _ & ? & _). done.
  - destruct (observer st); [|done].
    destruct (revealCallback_frame entries st) as (? & ? & _). done.
  - done.
Qed.

Lemma run_app inputs1 inputs2 st : run (inputs1 ++ inputs2) st = run inputs2 (run inputs1 st).
Proof. apply foldl_app. Qed.

Lemma run_listeners_frame inputs st :
  listeners (run inputs st) = listeners st
  ∧ documentElement (run inputs st) = documentElement st.
Proof.
  revert st. induction inputs as [|i inputs IH]; intros st; [done|].
  change (run (i :: inputs) st) with (run inputs (step i st)).
  destruct (IH (step i st)) as [-> ->]. apply step_listeners.
Qed.

Lemma run_installed env doc mk inputs :
  listeners (run inputs (DOMContentLoaded env doc mk)) = installed env doc.
Proof. by rewrite (proj1 (run_listeners_frame _ _)), DOMContentLoaded_listeners. Qed.

(** ** Navigation toggle *)

Section Navigation.

Context (env : Env) (doc : Page) (t n : elem).
Hypothesis Htoggle : doc_toggle doc = Some t.
Hypothesis Hnav : doc_nav doc = Some n.

Lemma dispatch_toggle_click e st :
  listeners st = installed env doc →
  etype e = "click" → bubbles e = true → t ∈ path e →
  propagate (event_path e) e st
  = (if expanded t st then closed t n st else opened t n st, [ToggleClick t n]).
Proof.
  intros Hls Hty Hb Hin. unfold event_path. rewrite Hb.
  apply list_elem_of_split_l in Hin as (l1 & l2 & -> & Hl1).
  rewrite fmap_app, <- app_assoc, propagate_elems.
  - cbn. rewrite Hls, Hty, (listeners_on_click _ _ t n) by done.
    rewrite decide_True by done. done.
  - intros x Hx. rewrite Hls, Hty, (listeners_on_click _ _ t n) by done.
    rewrite decide_False; [done|]. by intros ->.
Qed.

Lemma dispatch_outside_click e st :
  listeners st = installed env doc →
  etype e = "click" → bubbles e = true → t ∉ path e →
  propagate (event_path e) e st
  = ((run_handler (OutsideClick t n) e st).1, [OutsideClick t n]).
Proof.
  intros Hls Hty Hb Hin. unfold event_path. rewrite Hb, propagate_elems.
  - cbn -[run_handler]. rewrite Hls, Hty, (listeners_on_click _ _ t n) by done.
    cbn -[run_handler].
    rewrite run_handler_listeners, Hls, (listeners_on_click _ _ t n) by done.
    done.
  - intros x Hx. rewrite Hls, Hty, (listeners_on_click _ _ t n) by done.
    rewrite decide_False; [done|]. by intros ->.
Qed.

Lemma dispatch_keydown_nav e st :
  listeners st = installed env doc →
  etype e = "keydown" → bubbles e = true →
  dispatch e st = (run_handler TabKey e (run_handler (EscapeKey t n) e st).1).1.
Proof.
  intros Hls Hty Hb. unfold dispatch, event_path. rewrite Hb, propagate_elems.
  - cbn -[run_handler]. rewrite Hls, Hty, listeners_on_keydown, Htoggle, Hnav.
    cbn -[run_handler].
    rewrite run_handler_listeners, Hls, listeners_on_keydown. done.
  - intros x Hx. by rewrite Hls, Hty, listeners_on_keydown.
Qed.

Lemma run_OutsideClick e st :
  (run_handler (OutsideClick t n) e st).1
  = if isOpen n st && negb (contains n e) && negb (contains t e)
    then closed t n st else st.
Proof. done. Qed.

Lemma run_EscapeKey e st :
  (run_handler (EscapeKey t n) e st).1
  = if bool_decide (key e = Some "Escape") && isOpen n st then closed t n st else st.
Proof. done. Qed.

Lemma closed_not_open st : isOpen n (closed t n st) = false.
Proof.
  unfold isOpen. rewrite closed_style, decide_True by (apply navProps_spec; tauto).
  by apply bool_decide_eq_false.
Qed.

Lemma opened_open st : isOpen n (opened t n st) = true.
Proof. unfold isOpen. rewrite opened_display. by apply bool_decide_eq_true. Qed.

Lemma closed_not_expanded st : expanded t (closed t n st) = false.
Proof. unfold expanded. rewrite closed_aria. by apply bool_decide_eq_false. Qed.

Lemma opened_expanded st : expanded t (opened t n st) = true.
Proof. unfold expanded. rewrite opened_aria. by apply bool_decide_eq_true. Qed.

(** One activation of the toggle flips the state and keeps the attribute in
    step with it. *)
Lemma toggle_click_step e st :
  listeners st = installed env doc →
  etype e = "click" → bubbles e = true → t ∈ path e →
  expanded t st = isOpen n st →
  isOpen n (dispatch e st) = negb (isOpen n st)
  ∧ expanded t (dispatch e st) = isOpen n (dispatch e st)
  ∧ getAttribute t "aria-expanded" (dispatch e st)
    = Some (if isOpen n (dispatch e st) then "true" else "false").
Proof.
  intros Hls Hty Hb Hin Hinv. unfold dispatch.
  rewrite dispatch_toggle_click by done. cbn [fst]. rewrite <- Hinv.
  destruct (expanded t st); cbn [negb].
  - by rewrite closed_not_open, closed_not_expanded, closed_aria.
  - by rewrite opened_open, opened_expanded, opened_aria.
Qed.

End Navigation.

(** C1. Starting from a closed navigation, after any number of activations of
    the menu toggle the navigation is open exactly when that number is odd
    (Closed, Open, Closed, ...), the test the toggle makes on [aria-expanded]
    agrees with the open state, and after at least one activation the
    attribute is literally "true" when open and "false" when closed. *)
Theorem toggle_clicks_alternate env doc mk t n (clicks : list event) :
  doc_toggle doc = Some t → doc_nav doc = Some n →
  expanded t (DOMContentLoaded env doc mk) = false →
  isOpen n (DOMContentLoaded env doc mk) = false →
  Forall (λ e, etype e = "click" ∧ bubbles e = true ∧ t ∈ path e) clicks →
  let st := run (Dispatch <$> clicks) (DOMContentLoaded env doc mk) in
  isOpen n st = Nat.odd (length clicks)
  ∧ expanded t st = isOpen n st
  ∧ (clicks ≠ [] →
     getAttribute t "aria-expanded" st = Some (if isOpen n st then "true" else "false")).
Proof.
  intros Ht Hn Hexp Hopen. induction clicks as [|e clicks IH] using rev_ind; intros Hall st.
  - subst st. cbn. by rewrite Hexp, Hopen.
  - apply Forall_app in Hall as [Hall He].
    apply Forall_singleton in He as (Hty & Hb & Hin).
    destruct (IH Hall) as (IH1 & IH2 & _).
    subst st. rewrite fmap_app, run_app. cbn [fmap list_fmap run foldl flip step].
    set (s := run (Dispatch <$> clicks) (DOMContentLoaded env doc mk)) in *.
    destruct (toggle_click_step env doc t n Ht Hn e s) as (H1 & H2 & H3); try done.
    { apply run_installed. }
    rewrite H1, IH1, length_app, Nat.add_1_r, Nat.odd_succ, Nat.negb_odd.
    split; [done|]. split; [by rewrite H2, H1, IH1, Nat.negb_odd|].
    intros _. by rewrite H3, H1, IH1, Nat.negb_odd.
Qed.

Lemma toggle_clicks_alternate_witness :
  let st := run (Dispatch <$> [click [1; 0]; click [1; 0]; click [1; 0]])
              (DOMContentLoaded fullMotion demoDoc demoMarkup) in
  isOpen 2 st = true ∧ expanded 1 st = isOpen 2 st
  ∧ getAttribute 1 "aria-expanded" st = Some "true".
Proof.
  pose proof (toggle_clicks_alternate fullMotion demoDoc demoMarkup 1 2
                [click [1; 0]; click [1; 0]; click [1; 0]]) as H.
  destruct H as (H1 & H2 & H3).
  - reflexivity.
  - reflexivity.
  - vm_compute; reflexivity.
  - vm_compute; reflexivity.
  - repeat constructor.
  - intros st. split; [exact H1|]. split; [exact H2|].
    subst st. rewrite H3; [|discriminate]. rewrite H1. reflexivity.
Defined.

(** C2. In every state the page can reach: a click that bubbles to the
    document with a target outside both the navigation and the toggle closes
    an open navigation, and so does an Escape key press; with the navigation
    closed both leave the whole store unchanged; and a click on the toggle
    runs the toggle's own listener only, the document's outside-click
    listener is not invoked in that dispatch. *)
Theorem nav_close_triggers env doc mk t n inputs e :
  doc_toggle doc = Some t → doc_nav doc = Some n → bubbles e = true →
  let st := run inputs (DOMContentLoaded env doc mk) in
  (etype e = "click" → n ∉ path e → t ∉ path e →
     (isOpen n st = true →
        isOpen n (dispatch e st) = false
        ∧ getAttribute t "aria-expanded" (dispatch e st) = Some "false")
     ∧ (isOpen n st = false → dispatch e st = st))
  ∧ (etype e = "keydown" → key e = Some "Escape" →
     (isOpen n st = true →
        isOpen n (dispatch e st) = false
        ∧ getAttribute t "aria-expanded" (dispatch e st) = Some "false")
     ∧ (isOpen n st = false → dispatch e st = st))
  ∧ (etype e = "click" → t ∈ path e →
     invoked e st = [ToggleClick t n] ∧ OutsideClick t n ∉ invoked e st).
Proof.
  intros Ht Hn Hb st.
  assert (listeners st = installed env doc) as Hls by apply run_installed.
  split; [|split].
  - intros Hty Hno Hto. unfold dispatch.
    rewrite (dispatch_outside_click env doc t n) by done.
    cbn [fst]. rewrite run_OutsideClick. unfold contains.
    rewrite !bool_decide_eq_false_2 by done. cbn [negb]. rewrite !andb_true_r.
    split; intros ->; [|done].
    by rewrite closed_not_open, closed_aria.
  - intros Hty Hkey. rewrite (dispatch_keydown_nav env doc t n) by done.
    rewrite run_TabKey_other by by rewrite Hkey.
    rewrite run_EscapeKey, Hkey.
    rewrite (bool_decide_eq_true_2 (Some "Escape" = Some "Escape")) by done.
    cbn [andb]. split; intros ->; [|done].
    by rewrite closed_not_open, closed_aria.
  - intros Hty Hin. unfold invoked.
    rewrite (dispatch_toggle_click env doc t n) by done. cbn [snd].
    split; [done|]. by intros [=]%list_elem_of_singleton.
Qed.

Lemma nav_close_triggers_witness :
  let st := run [Dispatch (click [1; 0])] (DOMContentLoaded fullMotion demoDoc demoMarkup) in
  isOpen 2 st = true
  ∧ isOpen 2 (dispatch (click [7; 5; 0]) st) = false
  ∧ isOpen 2 (dispatch (keydown "Escape" [0]) st) = false
  ∧ invoked (click [1; 0]) st = [ToggleClick 1 2].
Proof.
  intros st.
  assert (isOpen 2 st = true) as Hopen by (vm_compute; reflexivity).
  split; [exact Hopen|]. split; [|split].
  - refine (proj1 (proj1 (proj1 (nav_close_triggers fullMotion demoDoc demoMarkup 1 2
                            [Dispatch (click [1; 0])] (click [7; 5; 0])
                            eq_refl eq_refl eq_refl) eq_refl _ _) Hopen));
      cbn; rewrite !elem_of_cons, elem_of_nil; lia.
  - exact (proj1 (proj1 (proj1 (proj2 (nav_close_triggers fullMotion demoDoc demoMarkup
                                  1 2 [Dispatch (click [1; 0])] (keydown "Escape" [0])
                                  eq_refl eq_refl eq_refl)) eq_refl eq_refl) Hopen)).
  - refine (proj1 (proj2 (proj2 (nav_close_triggers fullMotion demoDoc demoMarkup 1 2
                                   [Dispatch (click [1; 0])] (click [1; 0])
                                   eq_refl eq_refl eq_refl)) eq_refl _)).
    cbn. left.
Defined.

(** C10. [closeNav] undoes [openNav] on a navigation without inline styles:
    neither call fails, [openNav] leaves exactly the nine properties of
    [navProps] set, [closeNav] clears exactly those nine and keeps every
    other one, and after the two calls every inline style property of every
    element reads as it did before (empty, for the navigation). *)
Theorem closeNav_undoes_openNav t n st :
  (∀ p, getStyle n p st = Text "") →
  ∃ st1 st2,
    openNav (Some t) (Some n) st = Some st1
    ∧ closeNav (Some t) (Some n) st1 = Some st2
    ∧ (∀ p, getStyle n p st1 ≠ Text "" ↔ p ∈ navProps)
    ∧ (∀ s s' p, closeNav (Some t) (Some n) s = Some s' →
         getStyle n p s' = if decide (p ∈ navProps) then Text "" else getStyle n p s)
    ∧ (∀ p, getStyle n p st2 = Text "")
    ∧ (∀ el p, getStyle el p st2 = getStyle el p st).
Proof.
  intros Hempty.
  exists (opened t n st), (closed t n (opened t n st)).
  assert (∀ p, getStyle n p (closed t n (opened t n st)) = Text "") as Hn.
  { intros p. rewrite closed_style. case_decide; [done|].
    by rewrite opened_style_other. }
  split; [done|]. split; [done|]. split; [|split; [|split]].
  - intros p. split.
    + intros Hset. destruct (decide (p ∈ navProps)) as [|Hp]; [done|].
      by rewrite opened_style_other, Hempty in Hset.
    + apply opened_style_set.
  - intros s s' p [= <-]. apply (closed_style t n p s).
  - done.
  - intros el p. destruct (decide (el = n)) as [->|Hne].
    + by rewrite Hn, Hempty.
    + destruct (nav_style_elsewhere t n el p (opened t n st) Hne) as [_ ->].
      by destruct (nav_style_elsewhere t n el p st Hne) as [-> _].
Qed.

Lemma closeNav_undoes_openNav_witness :
  ∃ st1 st2,
    openNav (Some 1) (Some 2) (load demoMarkup) = Some st1
    ∧ closeNav (Some 1) (Some 2) st1 = Some st2
    ∧ getStyle 2 "display" st1 = Text "block"
    ∧ (∀ el p, getStyle el p st2 = getStyle el p (load demoMarkup)).
Proof.
  destruct (closeNav_undoes_openNav 1 2 (load demoMarkup))
    as (st1 & st2 & H1 & H2 & _ & _ & _ & H6).
  - intros p. reflexivity.
  - exists st1, st2. split; [exact H1|]. split; [exact H2|]. split; [|exact H6].
    injection H1 as <-. vm_compute. reflexivity.
Defined.

(** ** What a listener may write *)

Lemma opened_style_frame t n el p st :
  ¬ (el = n ∧ p ∈ navProps) → getStyle el p (opened t n st) = getStyle el p st.
Proof.
  intros Hno. destruct (decide (el = n)) as [->|Hne].
  - apply opened_style_other. tauto.
  - exact (proj1 (nav_style_elsewhere t n el p st Hne)).
Qed.

Lemma closed_style_frame t n el p st :
  ¬ (el = n ∧ p ∈ navProps) → getStyle el p (closed t n st) = getStyle el p st.
Proof.
  intros Hno. destruct (decide (el = n)) as [->|Hne].
  - rewrite closed_style, decide_False; [done|tauto].
  - exact (proj2 (nav_style_elsewhere t n el p st Hne)).
Qed.

Lemma parallaxLeaves_other x y i leaves el p st :
  ¬ (el ∈ leaves ∧ p = "transform") →
  getStyle el p (parallaxLeaves x y i leaves st) = getStyle el p st.
Proof.
  revert i st. induction leaves as [|leaf rest IH]; intros i st Hno; cbn -[setStyle]; [done|].
  rewrite IH, getStyle_setStyle_ne; [done| |].
  - intros [= -> <-]. apply Hno. split; [by left|done].
  - intros [Hin ->]. apply Hno. split; [by right|done].
Qed.

Lemma resetLeaves_other (leaves : list elem) el p st :
  ¬ (el ∈ leaves ∧ p = "transform") →
  getStyle el p (foldl (λ st leaf, setStyle leaf "transform" (Text "") st) st leaves)
  = getStyle el p st.
Proof.
  revert st. induction leaves as [|leaf rest IH]; intros st Hno; cbn -[setStyle]; [done|].
  rewrite IH, getStyle_setStyle_ne; [done| |].
  - intros [= -> <-]. apply Hno. split; [by left|done].
  - intros [Hin ->]. apply Hno. split; [by right|done].
Qed.

Lemma run_handler_style h e st el p :
  ¬ writes h el p → getStyle el p (run_handler h e st).1 = getStyle el p st.
Proof.
  destruct h; cbn [run_handler fst writes]; intros Hno.
  - destruct (expanded toggle st);
      [apply closed_style_frame|apply opened_style_frame]; exact Hno.
  - destruct (_ && _); [apply closed_style_frame; exact Hno|reflexivity].
  - destruct (_ && _); [apply closed_style_frame; exact Hno|reflexivity].
  - apply getStyle_setStyle_ne. intros [= -> <-]. by apply Hno.
  - apply getStyle_setStyle_ne. intros [= -> <-]. by apply Hno.
  - apply getStyle_setStyle_ne. intros [= -> <-]. by apply Hno.
  - apply getStyle_setStyle_ne. intros [= -> <-]. by apply Hno.
  - by apply parallaxLeaves_other.
  - by apply resetLeaves_other.
  - apply getStyle_setStyle_ne. intros [= -> <-]. by apply Hno.
  - apply getStyle_setStyle_ne. intros [= -> <-]. by apply Hno.
  - by destruct (bool_decide _).
  - by destruct (usingKeyboard st).
Qed.

(** Only the two modality listeners touch class lists and [usingKeyboard]. *)
Lemma run_handler_modality h e st :
  h ≠ TabKey → h ≠ MouseDown →
  usingKeyboard (run_handler h e st).1 = usingKeyboard st
  ∧ classes (run_handler h e st).1 = classes st.
Proof.
  intros Htab Hmouse.
  destruct h; try done; cbn -[setStyle parallaxLeaves opened closed];
    repeat case_match; try done;
    split; (apply styles_only_usingKeyboard || apply styles_only_classes);
    auto using parallaxLeaves_styles_only, resetLeaves_styles_only, styles_only_refl.
Qed.

Lemma run_handler_attrs_frame h e st el a :
  a ≠ "aria-expanded" →
  getAttribute el a (run_handler h e st).1 = getAttribute el a st.
Proof.
  intros Ha. unfold getAttribute.
  destruct h; cbn -[setStyle parallaxLeaves opened closed]; repeat case_match; try done;
    try (cbn; rewrite lookup_insert_ne; [done|congruence]);
    try (erewrite styles_only_attrs; [done|];
         auto using parallaxLeaves_styles_only, resetLeaves_styles_only, styles_only_refl).
Qed.

(** The class a listener may add or remove is ["using-keyboard"] on the root. *)
Lemma run_handler_classes h e st el c :
  c ≠ "using-keyboard" →
  (el, c) ∈ classes (run_handler h e st).1 ↔ (el, c) ∈ classes st.
Proof.
  intros Hc. destruct (decide (h = TabKey)) as [->|Htab];
    [|destruct (decide (h = MouseDown)) as [->|Hmouse]].
  - cbn. case_match; [|done]. cbn. set_solver.
  - cbn. case_match; [|done]. cbn. set_solver.
  - by rewrite (proj2 (run_handler_modality h e st Htab Hmouse)).
Qed.

Lemma dispatch_classes e st el c :
  c ≠ "using-keyboard" → (el, c) ∈ classes (dispatch e st) ↔ (el, c) ∈ classes st.
Proof.
  intros Hc. unfold dispatch.
  apply (propagate_preserves (λ s, (el, c) ∈ classes s ↔ (el, c) ∈ classes st)); [|done].
  intros n h s _ _ <-. by apply run_handler_classes.
Qed.

Lemma dispatch_observer e st : observer (dispatch e st) = observer st.
Proof. apply propagate_same_env. Qed.

(** ** Scroll reveal *)

Lemma unobserve_frame x st :
  classes (unobserve x st) = classes st
  ∧ registrations (unobserve x st) = registrations st ∖ {[ x ]}
  ∧ threshold <$> observer (unobserve x st) = threshold <$> observer st.
Proof.
  unfold unobserve, registrations. destruct (observer st) eqn:Ho; cbn; [done|].
  rewrite Ho. set_solver.
Qed.

Lemma revealCallback_cons en entries st :
  revealCallback (en :: entries) st
  = revealCallback entries
      (if isIntersecting en
       then unobserve (target en) (addClass (target en) "visible" st) else st).
Proof. done. Qed.

Lemma reveals_now_cons el en entries :
  reveals_now el (en :: entries)
  ↔ (target en = el ∧ isIntersecting en = true) ∨ reveals_now el entries.
Proof.
  unfold reveals_now. split.
  - intros (en' & [->|Hin]%elem_of_cons & Ht & Hi); [by left|right; eauto].
  - intros [[Ht Hi]|(en' & Hin & Ht & Hi)].
    + exists en. split; [by left|done].
    + exists en'. split; [by right|done].
Qed.

Lemma reveals_now_nil el : ¬ reveals_now el [].
Proof. intros (en & Hin & _). by apply elem_of_nil in Hin. Qed.

Lemma revealCallback_classes entries st el c :
  (el, c) ∈ classes (revealCallback entries st)
  ↔ (el, c) ∈ classes st ∨ (c = "visible" ∧ reveals_now el entries).
Proof.
  revert st. induction entries as [|en entries IH]; intros st.
  - pose proof (reveals_now_nil el). cbn. tauto.
  - rewrite revealCallback_cons, IH, reveals_now_cons.
    destruct (isIntersecting en) eqn:Hi.
    + rewrite (proj1 (unobserve_frame _ _)). cbn.
      rewrite elem_of_union, elem_of_singleton. naive_solver.
    + naive_solver.
Qed.

Lemma revealCallback_registrations entries st el :
  el ∈ registrations (revealCallback entries st)
  ↔ el ∈ registrations st ∧ ¬ reveals_now el entries.
Proof.
  revert st. induction entries as [|en entries IH]; intros st.
  - pose proof (reveals_now_nil el). cbn. tauto.
  - rewrite revealCallback_cons, IH, reveals_now_cons.
    destruct (isIntersecting en) eqn:Hi.
    + rewrite (proj1 (proj2 (unobserve_frame _ _))).
      change (registrations (addClass (target en) "visible" st)) with (registrations st).
      rewrite elem_of_difference, elem_of_singleton. naive_solver.
    + naive_solver.
Qed.

Lemma revealCallback_threshold entries st :
  threshold <$> observer (revealCallback entries st) = threshold <$> observer st.
Proof.
  revert st. induction entries as [|en entries IH]; intros st; [done|].
  rewrite revealCallback_cons, IH. destruct (isIntersecting en); [|done].
  by rewrite (proj2 (proj2 (unobserve_frame _ _))).
Qed.

Lemma step_classes i st el c :
  c ≠ "using-keyboard" →
  (el, c) ∈ classes (step i st)
  ↔ (el, c) ∈ classes st ∨ (c = "visible" ∧ is_Some (observer st) ∧ notifies el i).
Proof.
  intros Hc. destruct i as [e|entries|l]; cbn.
  - rewrite dispatch_classes by done. tauto.
  - destruct (observer st) eqn:Ho.
    + rewrite revealCallback_classes. naive_solver.
    + split; [tauto|]. intros [?|(_ & [? [=]] & _)]. done.
  - tauto.
Qed.

Lemma step_registrations i st el :
  el ∈ registrations (step i st) ↔ el ∈ registrations st ∧ ¬ notifies el i.
Proof.
  destruct i as [e|entries|l]; cbn.
  - unfold registrations. rewrite dispatch_observer. tauto.
  - destruct (observer st) eqn:Ho.
    + apply revealCallback_registrations.
    + unfold registrations. rewrite Ho. set_solver.
  - tauto.
Qed.

Lemma step_threshold i st :
  threshold <$> observer (step i st) = threshold <$> observer st.
Proof.
  destruct i as [e|entries|l]; cbn.
  - by rewrite dispatch_observer.
  - destruct (observer st) eqn:Ho; [|by rewrite Ho].
    by rewrite revealCallback_threshold, Ho.
  - done.
Qed.

Lemma run_cons i inputs st : run (i :: inputs) st = run inputs (step i st).
Proof. done. Qed.

Lemma run_snoc i inputs st : run (inputs ++ [i]) st = step i (run inputs st).
Proof. by rewrite run_app. Qed.

Lemma run_threshold inputs st :
  threshold <$> observer (run inputs st) = threshold <$> observer st.
Proof.
  revert st. induction inputs as [|i inputs IH]; intros st; [done|].
  by rewrite run_cons, IH, step_threshold.
Qed.

(** A class other than ["using-keyboard"] is never removed, and no element is
    ever added to the observer after start-up. *)
Lemma run_monotone inputs st el c :
  c ≠ "using-keyboard" →
  ((el, c) ∈ classes st → (el, c) ∈ classes (run inputs st))
  ∧ (el ∉ registrations st → el ∉ registrations (run inputs st)).
Proof.
  intros Hc. revert st. induction inputs as [|i inputs IH]; intros st; [done|].
  rewrite run_cons. destruct (IH (step i st)) as [IH1 IH2]. split.
  - intros Hin. apply IH1, step_classes; [done|by left].
  - intros Hnot. apply IH2. rewrite step_registrations. tauto.
Qed.

(** *** Start-up of the reveal controller *)

Lemma initMarquees_same_reveal env doc st : same_reveal st (initMarquees env doc st).
Proof.
  unfold initMarquees, same_reveal. revert st.
  induction (doc_marquees doc) as [|m l IH]; intros st; [done|]. cbn [foldl].
  destruct (IH (initMarquee env st m)) as [-> ->].
  unfold initMarquee. destruct (m.2); [|done]. by destruct (prefersReducedMotion env).
Qed.

Lemma initCards_same_reveal env doc st : same_reveal st (initCards env doc st).
Proof.
  unfold initCards, same_reveal. destruct (negb _); [|done]. revert st.
  induction (doc_cards doc) as [|c l IH]; intros st; [done|]. cbn [foldl].
  by destruct (IH (initCard st c)) as [-> ->].
Qed.

Lemma initHero_same_reveal env doc st : same_reveal st (initHero env doc st).
Proof. unfold initHero. destruct (doc_hero doc); [|done]. by destruct (negb _). Qed.

Lemma initNav_same_reveal doc st : same_reveal st (initNav doc st).
Proof. unfold initNav. by destruct (doc_toggle doc), (doc_nav doc). Qed.

Lemma DOMContentLoaded_reveal env doc mk :
  same_reveal (initReveal env doc (initNav doc (load mk))) (DOMContentLoaded env doc mk).
Proof.
  unfold DOMContentLoaded, keyboardFocusOutline, same_reveal; cbn.
  destruct (initCards_same_reveal env doc
              (initHero env doc (initMarquees env doc
                 (initReveal env doc (initNav doc (load mk)))))) as [-> ->].
  destruct (initHero_same_reveal env doc
              (initMarquees env doc (initReveal env doc (initNav doc (load mk)))))
    as [-> ->].
  by destruct (initMarquees_same_reveal env doc
                 (initReveal env doc (initNav doc (load mk)))) as [-> ->].
Qed.

Lemma observeAll_frame (l : list elem) st o :
  observer st = Some o →
  classes (foldl (λ st el, observe el st) st l) = classes st
  ∧ threshold <$> observer (foldl (λ st el, observe el st) st l) = Some (threshold o)
  ∧ registrations (foldl (λ st el, observe el st) st l) = list_to_set l ∪ targets o.
Proof.
  revert st o. induction l as [|el l IH]; intros st o Ho; cbn [foldl].
  - unfold registrations. rewrite Ho. cbn. split; [done|]. split; [done|]. set_solver.
  - unfold observe at 2 4 6. rewrite Ho.
    edestruct IH as (-> & -> & ->); [done|]. cbn. split; [done|]. split; [done|].
    set_solver.
Qed.

Lemma revealAll_frame (l : list elem) st el :
  observer (foldl (λ st el, addClass el "visible" st) st l) = observer st
  ∧ (el ∈ l → (el, "visible") ∈ classes (foldl (λ st el, addClass el "visible" st) st l))
  ∧ ((el, "visible") ∈ classes st →
     (el, "visible") ∈ classes (foldl (λ st el, addClass el "visible" st) st l)).
Proof.
  revert st. induction l as [|x l IH]; intros st; cbn [foldl].
  - split; [done|]. split; [|done]. by intros ?%elem_of_nil.
  - destruct (IH (addClass x "visible" st)) as (-> & IH1 & IH2).
    split; [done|]. split.
    + intros [->|Hin]%elem_of_cons; [|by apply IH1].
      apply IH2. cbn. set_solver.
    + intros Hin. apply IH2. cbn. set_solver.
Qed.

Lemma hasClass_true el c st : hasClass el c st = true ↔ (el, c) ∈ classes st.
Proof. apply bool_decide_eq_true. Qed.

Lemma hasClass_false el c st : hasClass el c st = false ↔ (el, c) ∉ classes st.
Proof. apply bool_decide_eq_false. Qed.

Lemma visible_is_not_keyboard : "visible" ≠ "using-keyboard".
Proof. done. Qed.

(** C5. With reduced motion active at start-up, or without
    [IntersectionObserver] in the runtime, start-up marks every reveal
    element visible, constructs no observer and registers nothing with one;
    and this stays so under every later input. *)
Theorem degraded_reveals_everything env doc mk inputs el :
  prefersReducedMotion env = true ∨ hasIntersectionObserver env = false →
  el ∈ doc_reveals doc →
  let st0 := DOMContentLoaded env doc mk in
  hasClass el "visible" st0 = true
  ∧ observer st0 = None
  ∧ registrations st0 = ∅
  ∧ hasClass el "visible" (run inputs st0) = true
  ∧ registrations (run inputs st0) = ∅.
Proof.
  intros Hdeg Hel st0.
  destruct (DOMContentLoaded_reveal env doc mk) as [Hcl Hob]. fold st0 in Hcl, Hob.
  assert (initReveal env doc (initNav doc (load mk))
          = foldl (λ st el, addClass el "visible" st) (initNav doc (load mk))
              (doc_reveals doc)) as Hinit.
  { unfold initReveal. by destruct Hdeg as [-> | ->]; rewrite ?andb_false_r. }
  rewrite Hinit in Hcl, Hob.
  destruct (revealAll_frame (doc_reveals doc) (initNav doc (load mk)) el)
    as (Hob' & Hvis & _).
  rewrite Hob', (proj2 (initNav_same_reveal doc (load mk))) in Hob.
  change (observer (load mk)) with (@None Observer) in Hob.
  assert ((el, "visible") ∈ classes st0) as Hin by (rewrite Hcl; auto).
  assert (registrations st0 = ∅) as Hreg by (unfold registrations; by rewrite Hob).
  split; [by apply hasClass_true|]. split; [done|]. split; [done|]. split.
  - apply hasClass_true. by apply (run_monotone inputs st0 el "visible").
  - apply elem_of_equiv_empty_L. intros x.
    apply (run_monotone inputs st0 x "visible"); [done|]. rewrite Hreg. set_solver.
Qed.

Lemma degraded_reveals_everything_witness :
  let st := run [Notify [{| target := 9; isIntersecting := true;
                            intersectionRatio := Q2Qc (1 # 2) |}];
                 Dispatch (click [9; 0])]
              (DOMContentLoaded reducedMotion demoDoc demoMarkup) in
  hasClass 9 "visible" (DOMContentLoaded reducedMotion demoDoc demoMarkup) = true
  ∧ hasClass 9 "visible" st = true ∧ registrations st = ∅.
Proof.
  intros st.
  pose proof (degraded_reveals_everything reducedMotion demoDoc demoMarkup
                [Notify [{| target := 9; isIntersecting := true;
                            intersectionRatio := Q2Qc (1 # 2) |}];
                 Dispatch (click [9; 0])] 9
                (or_introl eq_refl)) as H.
  destruct H as (H1 & _ & _ & H4 & H5).
  - cbn. left.
  - split; [exact H1|]. split; [exact H4|exact H5].
Defined.

(** C4 (as the code has it). On the observed path (motion not reduced,
    [IntersectionObserver] present), for a reveal element that is not
    visible in the markup: the observer is constructed with threshold 0.12;
    after any inputs the element is visible exactly when some notification
    so far carried an entry for it that reports [isIntersecting], whatever
    visible fraction the entry gives, so it becomes visible at the first such
    notification; it is observed exactly as long as it is not visible; and
    once visible it stays visible and unobserved under every later input. *)
Theorem reveal_one_shot env doc mk el inputs :
  prefersReducedMotion env = false → hasIntersectionObserver env = true →
  el ∈ doc_reveals doc → hasClass el "visible" (load mk) = false →
  let st := run inputs (DOMContentLoaded env doc mk) in
  threshold <$> observer st = Some (Q2Qc (12 # 100))
  ∧ (hasClass el "visible" st = true ↔ Exists (notifies el) inputs)
  ∧ (el ∈ registrations st ↔ hasClass el "visible" st = false)
  ∧ (∀ later, hasClass el "visible" st = true →
       hasClass el "visible" (run later st) = true ∧ el ∉ registrations (run later st)).
Proof.
  intros Hprm Hio Hel Hhidden.
  set (st0 := DOMContentLoaded env doc mk).
  destruct (DOMContentLoaded_reveal env doc mk) as [Hcl Hob]. fold st0 in Hcl, Hob.
  set (s1 := set_observer (Some {| threshold := revealThreshold; targets := ∅ |})
               (initNav doc (load mk))).
  assert (initReveal env doc (initNav doc (load mk))
          = foldl (λ st el, observe el st) s1 (doc_reveals doc)) as Hinit.
  { unfold initReveal. by rewrite Hprm, Hio. }
  rewrite Hinit in Hcl, Hob.
  destruct (observeAll_frame (doc_reveals doc) s1 _ eq_refl) as (Hc1 & Ht1 & Hr1).
  assert (classes st0 = classes (load mk)) as Hcl0.
  { rewrite Hcl, Hc1. apply initNav_same_reveal. }
  assert (threshold <$> observer st0 = Some (Q2Qc (12 # 100))) as Hthr0
    by by rewrite Hob.
  assert (el ∈ registrations st0) as Hreg0.
  { unfold registrations at 1. rewrite Hob.
    fold (registrations (foldl (λ st el, observe el st) s1 (doc_reveals doc))).
    rewrite Hr1. set_solver. }
  assert ((el, "visible") ∉ classes st0) as Hnot0.
  { rewrite Hcl0. by apply hasClass_false. }
  clearbody st0. clear Hcl Hob Hinit Hc1 Ht1 Hr1 Hcl0 s1.
  intros st.
  assert (threshold <$> observer st = Some (Q2Qc (12 # 100))
          ∧ ((el, "visible") ∈ classes st ↔ Exists (notifies el) inputs)
          ∧ (el ∈ registrations st ↔ (el, "visible") ∉ classes st)) as (Hthr & Hvis & Hreg).
  { subst st. induction inputs as [|i inputs IH] using rev_ind.
    - cbn. rewrite Exists_nil. tauto.
    - destruct IH as (IH1 & IH2 & IH3).
      rewrite run_snoc. set (s := run inputs st0) in *.
      assert (is_Some (observer s)) as Hsome.
      { destruct (observer s); [by eexists|done]. }
      split; [by rewrite step_threshold|].
      rewrite step_classes by done. rewrite step_registrations.
      rewrite Exists_app, Exists_cons, Exists_nil.
      rewrite IH3. rewrite <- IH2. tauto. }
  split; [done|]. split; [by rewrite hasClass_true|].
  split; [by rewrite hasClass_false|].
  intros later Hv%hasClass_true. rewrite hasClass_true.
  destruct (run_monotone later st el "visible" visible_is_not_keyboard) as [H1 H2].
  split; [by apply H1|]. apply H2. rewrite Hreg. tauto.
Qed.

Lemma reveal_one_shot_witness :
  let inputs :=
    [Notify [{| target := 9; isIntersecting := false; intersectionRatio := Q2Qc (0 # 1) |}];
     Dispatch (click [9; 0]);
     Notify [{| target := 9; isIntersecting := true; intersectionRatio := Q2Qc (1 # 2) |}]] in
  let st := run inputs (DOMContentLoaded fullMotion demoDoc demoMarkup) in
  threshold <$> observer st = Some (Q2Qc (12 # 100))
  ∧ hasClass 9 "visible" st = true
  ∧ 9 ∉ registrations st.
Proof.
  intros inputs st.
  pose proof (reveal_one_shot fullMotion demoDoc demoMarkup 9 inputs
                eq_refl eq_refl (list_elem_of_here 9 []) eq_refl) as H.
  destruct H as (H1 & H2 & H3 & _).
  assert (hasClass 9 "visible" st = true) as Hvisible.
  { apply H2. do 2 apply Exists_cons_tl. apply Exists_cons_hd.
    eexists. split; [apply list_elem_of_here|]. split; reflexivity. }
  split; [exact H1|]. split; [exact Hvisible|].
  intros Hin. apply H3 in Hin. fold st in Hin. rewrite Hvisible in Hin. discriminate.
Defined.

(** C4 as stated fails: the callback tests [entry.isIntersecting] and never
    reads the visible fraction.  A notification whose entry reports
    [isIntersecting] with 5% of the element visible, below the 12% of the
    claim, marks the element visible and ends its observation. *)
Lemma reveal_below_threshold :
  let en := {| target := 9; isIntersecting := true; intersectionRatio := Q2Qc (5 # 100) |} in
  let st0 := DOMContentLoaded fullMotion demoDoc demoMarkup in
  let st := run [Notify [en]] st0 in
  (intersectionRatio en < Q2Qc (12 # 100))%Qc
  ∧ hasClass 9 "visible" st0 = false ∧ 9 ∈ registrations st0
  ∧ hasClass 9 "visible" st = true ∧ 9 ∉ registrations st.
Proof.
  intros en st0 st. split; [reflexivity|]. split; [reflexivity|].
  split; [|split; [reflexivity|]].
  - apply (bool_decide_unpack (9 ∈ registrations st0)). vm_compute. reflexivity.
  - apply (bool_decide_eq_false_1 (9 ∈ registrations st)). vm_compute. reflexivity.
Qed.

(** ** Input modality *)

Lemma dispatch_keydown env doc e st :
  listeners st = installed env doc →
  etype e = "keydown" → bubbles e = true →
  ∃ s, dispatch e st = (run_handler TabKey e s).1
       ∧ usingKeyboard s = usingKeyboard st ∧ classes s = classes st
       ∧ documentElement s = documentElement st
       ∧ (key e ≠ Some "Escape" → s = st).
Proof.
  intros Hls Hty Hb. unfold dispatch, event_path. rewrite Hb, propagate_elems.
  - cbn -[run_handler run_listeners]. rewrite Hls, Hty, listeners_on_keydown.
    set (hs := match doc_toggle doc with Some _ => _ | None => _ end).
    exists (run_listeners hs e st).1.
    assert (listeners (run_listeners hs e st).1 = installed env doc) as Hls'.
    { by rewrite (proj1 (run_listeners_same_env hs e st)). }
    assert ((run_listeners hs e st).2 = false) as ->.
    { rewrite run_listeners_stops. subst hs.
      by destruct (doc_toggle doc), (doc_nav doc). }
    cbn -[run_handler run_listeners]. rewrite Hls', listeners_on_keydown.
    cbn -[run_handler run_listeners hs]. split; [done|].
    subst hs. destruct (doc_toggle doc), (doc_nav doc); try done.
    cbn -[closed]. destruct (key e) as [k|]; [|done].
    destruct (decide (k = "Escape")) as [->|Hk].
    + destruct (_ && _); repeat split; done.
    + rewrite bool_decide_eq_false_2 by congruence. done.
  - intros x Hx. by rewrite Hls, Hty, listeners_on_keydown.
Qed.

Lemma dispatch_mousedown env doc e st :
  listeners st = installed env doc →
  etype e = "mousedown" → bubbles e = true →
  dispatch e st = (run_handler MouseDown e st).1.
Proof.
  intros Hls Hty Hb. unfold dispatch, event_path. rewrite Hb, propagate_elems.
  - cbn -[run_handler]. rewrite Hls, Hty, listeners_on_mousedown.
    cbn -[run_handler]. by rewrite Hls, listeners_on_mousedown.
  - intros x Hx. by rewrite Hls, Hty, listeners_on_mousedown.
Qed.

(** An event that is neither a mouse-down nor a Tab key press leaves the
    modality flag and every class list alone. *)
Lemma dispatch_modality_frame env doc e st :
  listeners st = installed env doc →
  etype e ≠ "mousedown" → ¬ (etype e = "keydown" ∧ key e = Some "Tab") →
  usingKeyboard (dispatch e st) = usingKeyboard st
  ∧ classes (dispatch e st) = classes st.
Proof.
  intros Hls Hmouse Htab. unfold dispatch.
  apply (propagate_preserves
           (λ s, usingKeyboard s = usingKeyboard st ∧ classes s = classes st)); [|done].
  intros n h s Hin _ [<- <-].
  rewrite Hls in Hin.
  pose proof (proj1 (list.Forall_forall _ _) (installed_all_ok env doc) _ Hin) as Hok.
  unfold installed_ok in Hok; cbn in Hok.
  destruct (decide (h = TabKey)) as [->|Hh1].
  { injection Hok as _ Hty. rewrite run_TabKey_other; [done|]. intros Hk. by apply Htab. }
  destruct (decide (h = MouseDown)) as [->|Hh2].
  { by injection Hok as _ Hty. }
  by apply run_handler_modality.
Qed.

(** A mouse-down never sets the flag. *)
Lemma dispatch_mousedown_flag env doc e st :
  listeners st = installed env doc → etype e = "mousedown" →
  usingKeyboard st = false → usingKeyboard (dispatch e st) = false.
Proof.
  intros Hls Hty Hfalse. unfold dispatch.
  apply (propagate_preserves (λ s, usingKeyboard s = false)); [|done].
  intros n h s Hin _ Hs. rewrite Hls, Hty in Hin.
  pose proof (proj1 (list.Forall_forall _ _) (installed_all_ok env doc) _ Hin) as Hok.
  unfold installed_ok in Hok; cbn in Hok.
  destruct (decide (h = TabKey)) as [->|Hh1]; [done|].
  destruct (decide (h = MouseDown)) as [->|Hh2]; [cbn; by rewrite Hs|].
  by rewrite (proj1 (run_handler_modality h e s Hh1 Hh2)).
Qed.

Lemma run_without_tab env doc inputs st :
  listeners st = installed env doc →
  Forall (λ i, ¬ tab_press i) inputs →
  usingKeyboard st = false → usingKeyboard (run inputs st) = false.
Proof.
  revert st. induction inputs as [|i inputs IH]; intros st Hls Hno Hfalse; [done|].
  apply Forall_cons_1 in Hno as [Hi Hno].
  rewrite run_cons. apply IH; [|done|].
  - by rewrite (proj1 (step_listeners i st)).
  - destruct i as [e|entries|l]; cbn.
    + destruct (decide (etype e = "mousedown")) as [Hm|Hm].
      * by apply (dispatch_mousedown_flag env doc).
      * by rewrite (proj1 (dispatch_modality_frame env doc e st Hls Hm Hi)).
    + destruct (observer st); [|done].
      by rewrite (proj1 (proj2 (proj2 (revealCallback_frame entries st)))).
    + done.
Qed.

(** C9. In every state the page can reach: a Tab key press sets
    [usingKeyboard] and puts the class ["using-keyboard"] on the root
    element; a mouse-down clears both when [usingKeyboard] is set and leaves
    the whole store unchanged when it is not; without a Tab press so far
    the flag is unset; and an event that is neither a mouse-down nor a Tab
    key press changes neither the flag nor the class. *)
Theorem keyboard_modality env doc mk inputs e :
  let st := run inputs (DOMContentLoaded env doc mk) in
  let keyboardClass s := hasClass (documentElement s) "using-keyboard" s in
  (etype e = "keydown" → bubbles e = true → key e = Some "Tab" →
     usingKeyboard (dispatch e st) = true ∧ keyboardClass (dispatch e st) = true)
  ∧ (etype e = "mousedown" → bubbles e = true →
     (usingKeyboard st = true →
        usingKeyboard (dispatch e st) = false ∧ keyboardClass (dispatch e st) = false)
     ∧ (usingKeyboard st = false → dispatch e st = st))
  ∧ (Forall (λ i, ¬ tab_press i) inputs → usingKeyboard st = false)
  ∧ (etype e ≠ "mousedown" → ¬ (etype e = "keydown" ∧ key e = Some "Tab") →
     usingKeyboard (dispatch e st) = usingKeyboard st
     ∧ keyboardClass (dispatch e st) = keyboardClass st).
Proof.
  intros st keyboardClass.
  assert (listeners st = installed env doc) as Hls by apply run_installed.
  split; [|split; [|split]].
  - intros Hty Hb Hkey.
    destruct (dispatch_keydown env doc e st Hls Hty Hb) as (s & -> & _ & _ & _ & _).
    subst keyboardClass. cbn. rewrite Hkey.
    rewrite (bool_decide_eq_true_2 (Some "Tab" = Some "Tab")) by done. cbn.
    split; [done|]. apply hasClass_true. cbn. set_solver.
  - intros Hty Hb. rewrite (dispatch_mousedown env doc e st Hls Hty Hb).
    subst keyboardClass. cbn. split; intros ->; [|done]. cbn.
    split; [done|]. apply hasClass_false. cbn. set_solver.
  - intros Hno. apply (run_without_tab env doc); [|done|reflexivity].
    apply DOMContentLoaded_listeners.
  - intros Hmouse Htab.
    destruct (dispatch_modality_frame env doc e st Hls Hmouse Htab) as [Hk Hc].
    split; [done|]. subst keyboardClass. cbn. unfold hasClass, dispatch.
    by rewrite (proj1 (proj2 (proj2 (propagate_same_env (event_path e) e st)))), <- Hc.
Qed.

Lemma keyboard_modality_witness :
  let st := run [Dispatch (click [1; 0])] (DOMContentLoaded fullMotion demoDoc demoMarkup) in
  (usingKeyboard (dispatch (keydown "Tab" [1; 0]) st) = true
   ∧ hasClass 0 "using-keyboard" (dispatch (keydown "Tab" [1; 0]) st) = true)
  ∧ dispatch (mousedown [8; 0]) st = st
  ∧ usingKeyboard st = false
  ∧ usingKeyboard (dispatch (keydown "Enter" [1; 0]) st) = usingKeyboard st.
Proof.
  intros st.
  pose proof (keyboard_modality fullMotion demoDoc demoMarkup [Dispatch (click [1; 0])])
    as H.
  assert (usingKeyboard st = false) as Hflag.
  { refine (proj1 (proj2 (proj2 (H (click [1; 0])))) _).
    repeat constructor. cbn. intros [Hty _]. discriminate. }
  split; [|split; [|split]].
  - exact (proj1 (H (keydown "Tab" [1; 0])) eq_refl eq_refl eq_refl).
  - exact (proj2 (proj1 (proj2 (H (mousedown [8; 0]))) eq_refl eq_refl) Hflag).
  - exact Hflag.
  - refine (proj1 (proj2 (proj2 (proj2 (H (keydown "Enter" [1; 0])))) _ _)).
    + cbn. discriminate.
    + cbn. intros [_ Hk]. discriminate.
Defined.

(** ** Marquee *)

Lemma initMarquee_motionless env st m c :
  prefersReducedMotion env = true →
  motionless c st ∨ m.2 = Some c → motionless c (initMarquee env st m).
Proof.
  intros Hprm Hc. unfold initMarquee, motionless.
  destruct (m.2) as [c'|]; [|by destruct Hc]. rewrite Hprm.
  rewrite !getStyle_setStyle. change (getStyle c ?p (addEventListener _ _ _ ?s))
    with (getStyle c p s).
  repeat (change (getStyle c ?p (addEventListener ?a ?b ?d ?s)) with (getStyle c p s)).
  destruct (decide (c' = c)) as [->|Hne].
  - by repeat style_case.
  - rewrite !decide_False by congruence.
    destruct Hc as [Hc|[= ?]]; [done|congruence].
Qed.

Lemma initMarquees_motionless env doc st m c :
  prefersReducedMotion env = true → (m, Some c) ∈ doc_marquees doc →
  motionless c (initMarquees env doc st).
Proof.
  intros Hprm Hin. unfold initMarquees.
  enough (∀ l s, motionless c s ∨ (m, Some c) ∈ l → motionless c (foldl (initMarquee env) s l))
    as H by (apply H; by right).
  induction l as [|m' l IH]; intros s Hs; cbn [foldl].
  - destruct Hs as [Hs|Hs]; [done|by apply elem_of_nil in Hs].
  - apply IH. destruct Hs as [Hs|[<-|Hs]%elem_of_cons]; [left|left|by right].
    + apply initMarquee_motionless; [done|by left].
    + apply initMarquee_motionless; [done|by right].
Qed.

Lemma DOMContentLoaded_motionless env doc mk m c :
  prefersReducedMotion env = true → (m, Some c) ∈ doc_marquees doc →
  motionless c (DOMContentLoaded env doc mk).
Proof.
  intros Hprm Hin.
  pose proof (initMarquees_motionless env doc
                (initReveal env doc (initNav doc (load mk))) m c Hprm Hin) as H.
  unfold DOMContentLoaded, keyboardFocusOutline, initCards, initHero.
  rewrite Hprm. cbn [negb]. by destruct (doc_hero doc).
Qed.

Lemma not_navProp_animation : ("animation" ∉ navProps) ∧ ("transform" ∉ navProps).
Proof. rewrite !navProps_spec. split; intros H; repeat (destruct H as [H|H]; [done|]); done. Qed.

(** Under reduced motion no installed listener assigns [animation] or
    [transform]. *)
Lemma reduced_motion_no_writer env doc l c p :
  prefersReducedMotion env = true → l ∈ installed env doc →
  p = "animation" ∨ p = "transform" → ¬ writes l.2 c p.
Proof.
  intros Hprm Hin Hp.
  pose proof (proj1 (list.Forall_forall _ _) (installed_all_ok env doc) _ Hin) as Hok.
  destruct not_navProp_animation as [Ha Ht].
  destruct l as [[n ty] h]. unfold installed_ok in Hok. cbn in *.
  destruct h; cbn; try (intros [_ Hw]; destruct Hp as [-> | ->]; done);
    try done; try (destruct Hok as (_ & _ & _ & Hf); congruence);
    try (destruct Hok as (_ & _ & Hf); congruence); try tauto.
  destruct Hok as (? & _ & _ & _ & Hf). congruence.
Qed.

Lemma step_motionless env doc i st c :
  prefersReducedMotion env = true → listeners st = installed env doc →
  motionless c st → motionless c (step i st).
Proof.
  intros Hprm Hls Hc. destruct i as [e|entries|l]; cbn.
  - unfold dispatch. apply (propagate_preserves (motionless c)); [|done].
    intros n h s Hin _ [Ha Ht]. rewrite Hls in Hin. unfold motionless.
    rewrite !run_handler_style; [done|..].
    + apply (reduced_motion_no_writer env doc (n, etype e, h)); auto.
    + apply (reduced_motion_no_writer env doc (n, etype e, h)); auto.
  - destruct (observer st); [|done]. unfold motionless, getStyle.
    by rewrite (proj1 (proj2 (proj2 (proj2 (revealCallback_frame entries st))))).
  - done.
Qed.

Lemma run_motionless env doc inputs st c :
  prefersReducedMotion env = true → listeners st = installed env doc →
  motionless c st → motionless c (run inputs st).
Proof.
  intros Hprm. revert st. induction inputs as [|i inputs IH]; intros st Hls Hc; [done|].
  rewrite run_cons. apply IH.
  - by rewrite (proj1 (step_listeners i st)).
  - by apply (step_motionless env doc).
Qed.

Lemma marquee_listeners_installed env doc m c :
  (m, Some c) ∈ doc_marquees doc →
  (Elem m, "pointerenter", MarqueePointerEnter c) ∈ installed env doc
  ∧ (Elem m, "pointerleave", MarqueePointerLeave c) ∈ installed env doc
  ∧ (Elem m, "focusin", MarqueeFocusIn c) ∈ installed env doc
  ∧ (Elem m, "focusout", MarqueeFocusOut c) ∈ installed env doc.
Proof.
  intros Hin. unfold installed. rewrite !elem_of_app, !list_elem_of_bind.
  repeat split; right; left; exists (m, Some c); (split; [|done]);
    unfold marqueeListeners; cbn; rewrite !elem_of_cons; tauto.
Qed.

(** Whatever else is going on, a pointer or focus event that reaches a
    marquee leaves its content's play state as that event's listener
    assigns it. *)
Lemma marquee_event env doc st m c e v :
  listeners st = installed env doc → (m, Some c) ∈ doc_marquees doc →
  marqueeAssigns (etype e) = Some v → Elem m ∈ event_path e →
  getStyle c "animationPlayState" (dispatch e st) = v.
Proof.
  intros Hls Hm Hv Hpath. unfold dispatch.
  destruct (marquee_listeners_installed env doc m c Hm) as (H1 & H2 & H3 & H4).
  assert (∃ h0, (Elem m, etype e, h0) ∈ listeners st
                ∧ ∀ s, getStyle c "animationPlayState" (run_handler h0 e s).1 = v)
    as (h0 & Hh0 & Hest).
  { rewrite Hls. unfold marqueeAssigns in Hv. repeat case_decide; [| |done].
    - injection Hv as <-. destruct H as [-> | ->]; eexists; (split; [done|]);
        intros s; apply getStyle_setStyle_eq.
    - injection Hv as <-. destruct H0 as [-> | ->]; eexists; (split; [done|]);
        intros s; apply getStyle_setStyle_eq. }
  apply (propagate_establish (λ s, getStyle c "animationPlayState" s = v)
           e _ st (Elem m) h0); try done.
  - intros n h Hin. rewrite Hls in Hin.
    pose proof (proj1 (list.Forall_forall _ _) (installed_all_ok env doc) _ Hin) as Hok.
    destruct h; try done. unfold installed_ok in Hok; cbn in Hok.
    destruct Hok as [[= _ Hty] _]. rewrite Hty in Hv. done.
  - intros n h s Hin _ Hs. rewrite Hls in Hin.
    pose proof (proj1 (list.Forall_forall _ _) (installed_all_ok env doc) _ Hin) as Hok.
    unfold installed_ok in Hok; cbn in Hok.
    destruct h; cbn [run_handler fst];
      try (destruct Hok as [[= _ Hty] _]; rewrite Hty in Hv; done);
      try (destruct Hok as (? & [= _ Hty] & _); rewrite Hty in Hv;
           injection Hv as <-; rewrite getStyle_setStyle; by case_decide);
      try (injection Hok as _ Hty; rewrite Hty in Hv; done).
    + rewrite resetLeaves_other; [done|]. by intros [_ ?].
    + rewrite getStyle_setStyle_ne; done.
Qed.

(** C6 (as the code has it). With reduced motion active at start-up, the
    content of every marquee has [animation] set to "none" and [transform]
    set to "translateX(0)" after start-up and after every later input; the
    pointer and focus listeners are installed all the same and still assign
    the content's [animationPlayState]: "paused" on pointerenter and focusin,
    cleared on pointerleave and focusout. *)
Theorem reduced_motion_marquee env doc mk m c inputs p :
  prefersReducedMotion env = true → (m, Some c) ∈ doc_marquees doc → m ∈ p →
  let st := run inputs (DOMContentLoaded env doc mk) in
  getStyle c "animation" st = Text "none"
  ∧ getStyle c "transform" st = Text "translateX(0)"
  ∧ getStyle c "animationPlayState" (dispatch (pointerenter m) st) = Text "paused"
  ∧ getStyle c "animationPlayState" (dispatch (pointerleave m) st) = Text ""
  ∧ getStyle c "animationPlayState" (dispatch (focusin p) st) = Text "paused"
  ∧ getStyle c "animationPlayState" (dispatch (focusout p) st) = Text "".
Proof.
  intros Hprm Hm Hp st.
  assert (listeners st = installed env doc) as Hls by apply run_installed.
  assert (motionless c st) as [Ha Ht].
  { apply (run_motionless env doc); [done|apply DOMContentLoaded_listeners|].
    by apply (DOMContentLoaded_motionless env doc mk m). }
  assert (Elem m ∈ ((Elem <$> p) ++ [Document; Window])%list) as Hpath.
  { apply elem_of_app. left. by apply list_elem_of_fmap_2. }
  split; [done|]. split; [done|].
  repeat split; apply (marquee_event env doc st m); try done; by left.
Qed.

Lemma reduced_motion_marquee_witness :
  let st := run [Dispatch (pointerenter 3); Dispatch (click [4; 3; 0])]
              (DOMContentLoaded reducedMotion demoDoc demoMarkup) in
  getStyle 4 "animation" st = Text "none"
  ∧ getStyle 4 "transform" st = Text "translateX(0)"
  ∧ getStyle 4 "animationPlayState" (dispatch (pointerleave 3) st) = Text "".
Proof.
  intros st.
  pose proof (reduced_motion_marquee reducedMotion demoDoc demoMarkup 3 4
                [Dispatch (pointerenter 3); Dispatch (click [4; 3; 0])] [4; 3; 0]
                eq_refl (list_elem_of_here _ _)
                (list_elem_of_further _ _ _ (list_elem_of_here _ _))) as H.
  destruct H as (H1 & H2 & _ & H4 & _).
  split; [exact H1|]. split; [exact H2|exact H4].
Defined.

(** C6 as stated fails: with reduced motion active, a pointerenter on the
    marquee still changes its content's animation play state. *)
Lemma reduced_motion_marquee_still_pauses :
  let st0 := DOMContentLoaded reducedMotion demoDoc demoMarkup in
  prefersReducedMotion reducedMotion = true
  ∧ (3, Some 4) ∈ doc_marquees demoDoc
  ∧ getStyle 4 "animationPlayState" st0 = Text ""
  ∧ getStyle 4 "animationPlayState" (step (Dispatch (pointerenter 3)) st0) = Text "paused"
  ∧ getStyle 4 "animationPlayState" (step (Dispatch (pointerenter 3)) st0)
    ≠ getStyle 4 "animationPlayState" st0.
Proof.
  intros st0. split; [reflexivity|]. split; [left|].
  assert (getStyle 4 "animationPlayState" st0 = Text "") as H0
    by (vm_compute; reflexivity).
  assert (getStyle 4 "animationPlayState" (step (Dispatch (pointerenter 3)) st0)
          = Text "paused") as H1 by (vm_compute; reflexivity).
  split; [exact H0|]. split; [exact H1|]. rewrite H0, H1. discriminate.
Qed.

(** C3 fails on the code. Focus moves into marquee 3, the pointer enters it
    and leaves again: focus is still within, so the rule says paused, but the
    pointerleave listener has cleared [animationPlayState]. *)
Theorem marquee_resumes_while_focused :
  let inputs := [Dispatch (focusin [4; 3; 0]); Dispatch (pointerenter 3);
                 Dispatch (pointerleave 3)] in
  let st := run inputs (DOMContentLoaded fullMotion demoDoc demoMarkup) in
  focusWithin 3 inputs = true
  ∧ hovering 3 inputs = false
  ∧ spec_paused 3 inputs = true
  ∧ getStyle 4 "animationPlayState" st = Text ""
  ∧ paused 4 st = false.
Proof. intros inputs st. repeat split; vm_compute; reflexivity. Qed.

(** ** Integers in double precision

    The depth factor [(i + 1) * 6] is computed on doubles.  For the indices
    a page can have it is an integer below 2^53, which a double holds
    exactly. *)

Section Doubles.
Local Open Scope Z_scope.

Lemma digits2_pos_bounds p :
  2 ^ (Zpos (digits2_pos p) - 1) <= Zpos p < 2 ^ Zpos (digits2_pos p).
Proof.
  induction p as [p IH|p IH|]; cbn [digits2_pos]; [| |done].
  - rewrite Pos2Z.inj_succ, Z.pow_succ_r by lia.
    replace (Z.succ (Zpos (digits2_pos p)) - 1) with (Z.succ (Zpos (digits2_pos p) - 1))
      by lia.
    rewrite Z.pow_succ_r by lia. lia.
  - rewrite Pos2Z.inj_succ, Z.pow_succ_r by lia.
    replace (Z.succ (Zpos (digits2_pos p)) - 1) with (Z.succ (Zpos (digits2_pos p) - 1))
      by lia.
    rewrite Z.pow_succ_r by lia. lia.
Qed.

Lemma Zdigits2_bounds z : 0 < z → 2 ^ (Zdigits2 z - 1) <= z < 2 ^ Zdigits2 z.
Proof. destruct z as [|p|p]; [lia| |lia]. intros _. apply digits2_pos_bounds. Qed.

Lemma Zdigits2_pos z : 0 < z → 0 < Zdigits2 z.
Proof. destruct z; cbn; lia. Qed.

Lemma Zdigits2_unique z d : 0 < z → 2 ^ (d - 1) <= z < 2 ^ d → Zdigits2 z = d.
Proof.
  intros Hz [Hlo Hhi]. pose proof (Zdigits2_bounds z Hz) as [Hlo' Hhi'].
  pose proof (Zdigits2_pos z Hz) as Hd.
  assert (0 < d) as Hd'.
  { destruct (Z.lt_ge_cases 0 d) as [|Hle]; [done|].
    assert (2 ^ d <= 1); [|lia].
    destruct (Z.eq_dec d 0) as [->|]; [done|]. rewrite Z.pow_neg_r by lia. lia. }
  destruct (Z.lt_trichotomy (Zdigits2 z) d) as [Hlt|[Heq|Hgt]]; [|done|].
  - assert (2 ^ Zdigits2 z <= 2 ^ (d - 1)) by (apply Z.pow_le_mono_r; lia). lia.
  - assert (2 ^ d <= 2 ^ (Zdigits2 z - 1)) by (apply Z.pow_le_mono_r; lia). lia.
Qed.

Lemma Zdigits2_shift z k : 0 < z → 0 <= k → Zdigits2 (z * 2 ^ k) = Zdigits2 z + k.
Proof.
  intros Hz Hk. pose proof (Zdigits2_bounds z Hz) as [Hlo Hhi].
  pose proof (Zdigits2_pos z Hz) as Hd.
  assert (0 < 2 ^ k) by (apply Z.pow_pos_nonneg; lia).
  apply Zdigits2_unique; [lia|].
  replace (Zdigits2 z + k - 1) with ((Zdigits2 z - 1) + k) by lia.
  rewrite !Z.pow_add_r by lia. nia.
Qed.

Lemma Zdigits2_le z n : 0 < z → 0 <= n → z < 2 ^ n → Zdigits2 z <= n.
Proof.
  intros Hz Hn Hlt. pose proof (Zdigits2_bounds z Hz) as [Hlo _].
  destruct (Z.le_gt_cases (Zdigits2 z) n) as [|Hgt]; [done|].
  assert (2 ^ n <= 2 ^ (Zdigits2 z - 1)) by (apply Z.pow_le_mono_r; lia). lia.
Qed.

Lemma Zdigits2_mul a b : 0 < a → 0 < b → Zdigits2 a + Zdigits2 b - 1 <= Zdigits2 (a * b).
Proof.
  intros Ha Hb.
  pose proof (Zdigits2_bounds a Ha) as [Hla _]. pose proof (Zdigits2_bounds b Hb) as [Hlb _].
  pose proof (Zdigits2_pos a Ha). pose proof (Zdigits2_pos b Hb).
  pose proof (Zdigits2_bounds (a * b) ltac:(nia)) as [_ Hh].
  destruct (Z.le_gt_cases (Zdigits2 a + Zdigits2 b - 1) (Zdigits2 (a * b))) as [|Hgt]; [done|].
  assert (2 ^ Zdigits2 (a * b) <= 2 ^ (Zdigits2 a - 1 + (Zdigits2 b - 1)))
    by (apply Z.pow_le_mono_r; lia).
  rewrite Z.pow_add_r in * by lia.
  assert (0 < 2 ^ (Zdigits2 a - 1)) by (apply Z.pow_pos_nonneg; lia).
  assert (0 < 2 ^ (Zdigits2 b - 1)) by (apply Z.pow_pos_nonneg; lia).
  nia.
Qed.

Lemma iter_pos_nat {A} (f : A → A) p x :
  SpecFloat.iter_pos f p x = Nat.iter (Pos.to_nat p) f x.
Proof.
  revert x. induction p as [p IH|p IH|]; intros x; cbn [SpecFloat.iter_pos]; [| |done].
  - rewrite !IH, Pos2Nat.inj_xI.
    replace (S (2 * Pos.to_nat p)) with (Pos.to_nat p + (Pos.to_nat p + 1))%nat by lia.
    by rewrite !Nat.iter_add.
  - rewrite !IH, Pos2Nat.inj_xO.
    replace (2 * Pos.to_nat p)%nat with (Pos.to_nat p + Pos.to_nat p)%nat by lia.
    by rewrite Nat.iter_add.
Qed.

Lemma shr_1_even z :
  0 < z →
  shr_1 {| shr_m := 2 * z; shr_r := false; shr_s := false |}
  = {| shr_m := z; shr_r := false; shr_s := false |}.
Proof. destruct z; [lia| |lia]. done. Qed.

Lemma shr_iter_exact n z :
  0 < z →
  Nat.iter n shr_1 {| shr_m := z * 2 ^ Z.of_nat n; shr_r := false; shr_s := false |}
  = {| shr_m := z; shr_r := false; shr_s := false |}.
Proof.
  intros Hz. induction n as [|n IH].
  - cbn. f_equal. lia.
  - rewrite Nat.iter_succ_r.
    replace (z * 2 ^ Z.of_nat (S n)) with (2 * (z * 2 ^ Z.of_nat n)).
    + rewrite shr_1_even; [done|].
      assert (0 < 2 ^ Z.of_nat n) by (apply Z.pow_pos_nonneg; lia). nia.
    + rewrite Nat2Z.inj_succ, Z.pow_succ_r by lia. lia.
Qed.

(** Shifting out bits that are all zero loses nothing. *)
Lemma shr_exact z e n :
  0 < z → 0 <= n →
  shr {| shr_m := z * 2 ^ n; shr_r := false; shr_s := false |} e n
  = ({| shr_m := z; shr_r := false; shr_s := false |}, e + n).
Proof.
  intros Hz Hn. unfold shr. destruct n as [|p|p]; [| |lia].
  - f_equal; [f_equal|]; lia.
  - rewrite iter_pos_nat. f_equal.
    rewrite <- (shr_iter_exact (Pos.to_nat p) z Hz). by rewrite positive_nat_Z.
Qed.

Lemma fexp_normal d : -1021 <= d → fexp prec emax d = d - prec.
Proof. unfold fexp, emin, prec, emax. lia. Qed.

(** Rounding an integer that fits into 53 bits returns it. *)
Lemma binary_round_aux_exact z k :
  0 < z → Zdigits2 z <= prec → prec - Zdigits2 z <= k →
  binary_round_aux prec emax false (z * 2 ^ k) (- k) loc_Exact = exactZ z.
Proof.
  intros Hz Hd Hk. pose proof (Zdigits2_pos z Hz) as Hd0.
  assert (0 <= k) as Hk0 by (unfold prec in *; lia).
  unfold binary_round_aux, shr_fexp.
  rewrite Zdigits2_shift by done.
  rewrite fexp_normal by lia. cbn [shr_record_of_loc].
  set (n := Zdigits2 z + k + - k - prec - - k).
  assert (n = k - (prec - Zdigits2 z)) as Hn by lia.
  replace (z * 2 ^ k) with ((z * 2 ^ (prec - Zdigits2 z)) * 2 ^ n).
  2:{ rewrite <- Z.mul_assoc, <- Z.pow_add_r by lia. f_equal. f_equal. lia. }
  assert (0 < z * 2 ^ (prec - Zdigits2 z)) as Hm.
  { assert (0 < 2 ^ (prec - Zdigits2 z)) by (apply Z.pow_pos_nonneg; lia). nia. }
  rewrite shr_exact by lia. cbn [shr_m loc_of_shr_record round_nearest_even].
  rewrite Zdigits2_shift by lia. rewrite fexp_normal by lia.
  replace (Zdigits2 z + (prec - Zdigits2 z) + (- k + n) - prec - (- k + n)) with 0 by lia.
  cbn [shr shr_m]. unfold exactZ.
  destruct (z * 2 ^ (prec - Zdigits2 z)) as [|m|m] eqn:Hm'; [lia| |lia].
  assert (- k + n = Zdigits2 z - prec) as -> by lia.
  rewrite (proj2 (Z.leb_le _ _)) by (unfold prec, emax in *; lia). done.
Qed.

Lemma iter_xO m d : Zpos (Pos.iter xO m d) = Zpos m * 2 ^ Zpos d.
Proof.
  induction d as [|d IH] using Pos.peano_ind; [cbn; lia|].
  rewrite Pos.iter_succ, Pos2Z.inj_succ, Z.pow_succ_r by lia.
  rewrite Pos2Z.inj_xO, IH. lia.
Qed.

Lemma binary_normalize_exact z k :
  0 < z → Zdigits2 z <= prec → 0 <= k →
  binary_normalize prec emax (z * 2 ^ k) (- k) false = exactZ z.
Proof.
  intros Hz Hd Hk. pose proof (Zdigits2_pos z Hz) as Hd0.
  assert (0 < z * 2 ^ k) as Hm.
  { assert (0 < 2 ^ k) by (apply Z.pow_pos_nonneg; lia). nia. }
  destruct (z * 2 ^ k) as [|m|m] eqn:Hm'; [lia| |lia].
  cbn [binary_normalize]. unfold binary_round.
  change (Zpos (digits2_pos m)) with (Zdigits2 (Zpos m)).
  rewrite <- Hm', Zdigits2_shift by done. rewrite fexp_normal by lia.
  unfold shl_align.
  destruct (Zdigits2 z + k + - k - prec - - k) as [|d|d] eqn:Hs.
  - rewrite <- Hm'. apply binary_round_aux_exact; lia.
  - rewrite <- Hm'. apply binary_round_aux_exact; lia.
  - rewrite iter_xO, <- Hm'.
    replace (z * 2 ^ k * 2 ^ Zpos d) with (z * 2 ^ (prec - Zdigits2 z)).
    + replace (Zdigits2 z + k + - k - prec) with (- (prec - Zdigits2 z)) by lia.
      apply binary_round_aux_exact; lia.
    + rewrite <- Z.mul_assoc, <- Z.pow_add_r by lia. f_equal. f_equal. lia.
Qed.

Lemma of_Z_exact z : 0 < z < 2 ^ prec → of_Z z = exactZ z.
Proof.
  intros [Hz Hlt]. unfold of_Z.
  rewrite <- (binary_normalize_exact z 0); [|done|by apply Zdigits2_le|done].
  f_equal. cbn. lia.
Qed.

Lemma exactZ_mantissa z :
  0 < z < 2 ^ prec →
  Zpos (Z.to_pos (z * 2 ^ (prec - Zdigits2 z))) = z * 2 ^ (prec - Zdigits2 z).
Proof.
  intros [Hz Hlt]. apply Z2Pos.id. pose proof (Zdigits2_le z prec Hz ltac:(done) Hlt).
  assert (0 < 2 ^ (prec - Zdigits2 z)) by (apply Z.pow_pos_nonneg; lia). nia.
Qed.

Lemma shl_align_fst m e e' :
  e' <= e → Zpos (fst (shl_align m e e')) = Zpos m * 2 ^ (e - e').
Proof.
  intros He. unfold shl_align. destruct (e' - e) as [|d|d] eqn:Hd; cbn [fst].
  - replace (e - e') with 0 by lia. cbn. lia.
  - lia.
  - rewrite iter_xO. f_equal. f_equal. lia.
Qed.

(** Sums and products of positive integers are exact as long as they fit. *)
Lemma nadd_exact a b :
  0 < a → 0 < b → a + b < 2 ^ prec → nadd (exactZ a) (exactZ b) = exactZ (a + b).
Proof.
  intros Ha Hb Hlt.
  pose proof (Zdigits2_pos a Ha) as Hda. pose proof (Zdigits2_pos b Hb) as Hdb.
  pose proof (Zdigits2_le a prec Ha ltac:(done) ltac:(lia)) as Hda'.
  pose proof (Zdigits2_le b prec Hb ltac:(done) ltac:(lia)) as Hdb'.
  unfold nadd, exactZ at 1 2. cbn [SFadd cond_Zopp].
  set (ez := Z.min (Zdigits2 a - prec) (Zdigits2 b - prec)).
  rewrite !shl_align_fst by lia. rewrite !exactZ_mantissa by lia.
  rewrite <- !Z.mul_assoc, <- !Z.pow_add_r by lia.
  replace (prec - Zdigits2 a + (Zdigits2 a - prec - ez)) with (- ez) by lia.
  replace (prec - Zdigits2 b + (Zdigits2 b - prec - ez)) with (- ez) by lia.
  rewrite <- Z.mul_add_distr_r.
  replace (binary_normalize prec emax ((a + b) * 2 ^ (- ez)) ez false)
    with (binary_normalize prec emax ((a + b) * 2 ^ (- ez)) (- (- ez)) false)
    by (by rewrite Z.opp_involutive).
  apply binary_normalize_exact; [lia| |lia].
  apply Zdigits2_le; lia.
Qed.

Lemma nmul_exact a b :
  0 < a → 0 < b → a * b < 2 ^ prec → nmul (exactZ a) (exactZ b) = exactZ (a * b).
Proof.
  intros Ha Hb Hlt.
  pose proof (Zdigits2_pos a Ha) as Hda. pose proof (Zdigits2_pos b Hb) as Hdb.
  pose proof (Zdigits2_le a prec Ha ltac:(done) ltac:(nia)) as Hda'.
  pose proof (Zdigits2_le b prec Hb ltac:(done) ltac:(nia)) as Hdb'.
  pose proof (Zdigits2_mul a b Ha Hb) as Hdab.
  unfold nmul, exactZ at 1 2. cbn [SFmul xorb].
  rewrite Pos2Z.inj_mul, !exactZ_mantissa by (split; [done|nia]).
  replace (a * 2 ^ (prec - Zdigits2 a) * (b * 2 ^ (prec - Zdigits2 b)))
    with (a * b * 2 ^ (prec - Zdigits2 a + (prec - Zdigits2 b)))
    by (rewrite Z.pow_add_r by lia; ring).
  replace (Zdigits2 a - prec + (Zdigits2 b - prec))
    with (- (prec - Zdigits2 a + (prec - Zdigits2 b))) by lia.
  apply binary_round_aux_exact; [nia| |lia].
  apply Zdigits2_le; [nia|done|done].
Qed.

(** The depth factor of every index below 2^32 is the integer
    [6 * (i + 1)], held exactly. *)
Lemma depth_exactZ i : Z.of_nat i < 2 ^ 32 → depth i = exactZ (6 * (Z.of_nat i + 1)).
Proof.
  intros Hi. unfold depth, of_nat.
  assert (2 ^ 32 * 8 < 2 ^ prec) as Hp by done.
  assert (nadd (of_Z (Z.of_nat i)) (of_Z 1) = exactZ (Z.of_nat i + 1)) as ->.
  { destruct (decide (i = 0%nat)) as [->|Hne]; [done|].
    rewrite !of_Z_exact by lia. apply nadd_exact; lia. }
  rewrite !of_Z_exact by lia. rewrite nmul_exact by lia. f_equal. lia.
Qed.


(** *** Rounding keeps a bound that is a double *)

Lemma dyadic_le_at c m1 e1 m2 e2 :
  c <= e1 → c <= e2 → dyadic_le m1 e1 m2 e2 ↔ m1 * 2 ^ (e1 - c) <= m2 * 2 ^ (e2 - c).
Proof.
  intros H1 H2. unfold dyadic_le. set (c0 := Z.min e1 e2).
  assert (c <= c0) by lia.
  replace (e1 - c) with ((e1 - c0) + (c0 - c)) by lia.
  replace (e2 - c) with ((e2 - c0) + (c0 - c)) by lia.
  rewrite !Z.pow_add_r by lia. rewrite !Z.mul_assoc.
  assert (0 < 2 ^ (c0 - c)) by (apply Z.pow_pos_nonneg; lia).
  split; intros; nia.
Qed.

Lemma shr_1_spec m r s :
  0 <= m →
  shr_1 {| shr_m := m; shr_r := r; shr_s := s |}
  = {| shr_m := m / 2; shr_r := Z.odd m; shr_s := r || s |}.
Proof.
  intros Hm. rewrite <- Z.div2_div.
  destruct m as [|[p|p|]|]; try lia; done.
Qed.

Lemma shr_iter_spec n m r s :
  0 <= m →
  shr_m (Nat.iter n shr_1 {| shr_m := m; shr_r := r; shr_s := s |}) = m / 2 ^ Z.of_nat n
  ∧ (shr_r (Nat.iter n shr_1 {| shr_m := m; shr_r := r; shr_s := s |})
     || shr_s (Nat.iter n shr_1 {| shr_m := m; shr_r := r; shr_s := s |}) = true →
     r || s = true ∨ m mod 2 ^ Z.of_nat n ≠ 0).
Proof.
  revert m r s. induction n as [|n IH]; intros m r s Hm.
  - cbn. split; [by rewrite Z.div_1_r|tauto].
  - rewrite Nat.iter_succ_r, shr_1_spec by done.
    assert (0 <= m / 2) as Hm2 by (apply Z.div_pos; lia).
    destruct (IH (m / 2) (Z.odd m) (r || s) Hm2) as [H1 H2].
    assert (0 < 2 ^ Z.of_nat n) as Hp by (apply Z.pow_pos_nonneg; lia).
    rewrite Nat2Z.inj_succ, Z.pow_succ_r by lia.
    split.
    + rewrite H1. rewrite Z.div_div by lia. done.
    + intros H. destruct (H2 H) as [Ho|Hne].
      * apply orb_true_iff in Ho as [Ho|Ho]; [right|by left].
        intros Hz. apply Z.mod_divide in Hz; [|lia].
        destruct Hz as [k Hk]. rewrite Hk in Ho.
        replace (k * (2 * 2 ^ Z.of_nat n)) with (2 * (k * 2 ^ Z.of_nat n)) in Ho by lia.
        by rewrite Z.odd_mul in Ho.
      * right. intros Hz. apply Hne. apply Z.mod_divide in Hz; [|lia].
        destruct Hz as [k Hk]. apply Z.mod_divide; [lia|]. exists k.
        rewrite Hk. replace (k * (2 * 2 ^ Z.of_nat n)) with ((k * 2 ^ Z.of_nat n) * 2) by lia.
        by rewrite Z.div_mul.
Qed.

Lemma shr_spec m r s e n :
  0 <= m →
  (shr {| shr_m := m; shr_r := r; shr_s := s |} e n).2 = e + Z.max 0 n
  ∧ shr_m (shr {| shr_m := m; shr_r := r; shr_s := s |} e n).1 = m / 2 ^ Z.max 0 n
  ∧ (shr_r (shr {| shr_m := m; shr_r := r; shr_s := s |} e n).1
     || shr_s (shr {| shr_m := m; shr_r := r; shr_s := s |} e n).1 = true →
     r || s = true ∨ m mod 2 ^ Z.max 0 n ≠ 0).
Proof.
  intros Hm. unfold shr. destruct n as [|p|p]; cbn [fst snd].
  - change (Z.max 0 0) with 0. rewrite Z.add_0_r, Z.div_1_r. cbn. tauto.
  - rewrite iter_pos_nat. replace (Z.max 0 (Zpos p)) with (Z.of_nat (Pos.to_nat p)) by lia.
    split; [lia|]. by apply shr_iter_spec.
  - replace (Z.max 0 (Zneg p)) with 0 by lia. rewrite Z.add_0_r, Z.div_1_r. cbn. tauto.
Qed.

Lemma loc_inexact mrs :
  loc_of_shr_record mrs ≠ loc_Exact → shr_r mrs || shr_s mrs = true.
Proof. destruct mrs as [m [] []]; cbn; tauto. Qed.

Lemma record_of_loc_inexact m l :
  shr_r (shr_record_of_loc m l) || shr_s (shr_record_of_loc m l) = true → l ≠ loc_Exact.
Proof. destruct l as [|[]]; cbn; congruence. Qed.

Lemma round_nearest_even_bounds m l :
  m <= round_nearest_even m l <= m + 1
  ∧ (l = loc_Exact → round_nearest_even m l = m).
Proof. destruct l as [|[]]; cbn; try destruct (Z.even m); split; try lia; congruence. Qed.

(** What [shr_fexp] returns: the mantissa shifted down by as many bits as
    the format requires, and whether bits were lost. *)
Lemma shr_fexp_spec m e l :
  0 <= m →
  let n := Z.max 0 (fexp prec emax (Zdigits2 m + e) - e) in
  (shr_fexp prec emax m e l).2 = e + n
  ∧ shr_m (shr_fexp prec emax m e l).1 = m / 2 ^ n
  ∧ (loc_of_shr_record (shr_fexp prec emax m e l).1 ≠ loc_Exact →
     l ≠ loc_Exact ∨ m mod 2 ^ n ≠ 0).
Proof.
  intros Hm n. unfold shr_fexp.
  pose proof (shr_spec m (shr_r (shr_record_of_loc m l)) (shr_s (shr_record_of_loc m l))
                e (fexp prec emax (Zdigits2 m + e) - e) Hm) as (H1 & H2 & H3).
  assert (shr_record_of_loc m l
          = {| shr_m := m; shr_r := shr_r (shr_record_of_loc m l);
               shr_s := shr_s (shr_record_of_loc m l) |}) as Hrec
    by (by destruct l as [|[]]).
  rewrite <- Hrec in H1, H2, H3. fold n in H1, H2, H3.
  split; [done|]. split; [done|].
  intros Hl%loc_inexact. destruct (H3 Hl) as [H|H]; [left|by right].
  by eapply record_of_loc_inexact.
Qed.

Lemma Zdigits2_nonneg z : 0 <= Zdigits2 z.
Proof. destruct z; cbn; lia. Qed.

Lemma bounded_spec mb eb :
  bounded prec emax mb eb = true →
  Zdigits2 (Zpos mb) <= prec ∧ -1074 <= eb <= emax - prec.
Proof.
  unfold bounded, canonical_mantissa. intros [H1 H2]%andb_true_iff.
  apply Z.eqb_eq in H1. apply Z.leb_le in H2.
  unfold fexp, emin, prec, emax in *. cbn [Zdigits2]. lia.
Qed.

Lemma div_pow2_lower m n :
  0 < m → 0 <= n → n <= Zdigits2 m - 1 → 2 ^ (Zdigits2 m - 1 - n) <= m / 2 ^ n.
Proof.
  intros Hm Hn Hd. pose proof (Zdigits2_bounds m Hm) as [Hlo _].
  apply Z.div_le_lower_bound; [apply Z.pow_pos_nonneg; lia|].
  rewrite <- Z.pow_add_r by lia. by replace (n + (Zdigits2 m - 1 - n)) with (Zdigits2 m - 1) by lia.
Qed.

(** Rounding never carries a magnitude past a double that bounds it: if the
    number being rounded, or when it is inexact the next multiple of its unit,
    is at most the double [mb * 2^eb], then so is the result, which is in
    particular not an infinity. *)
Lemma binary_round_aux_le s mx ex lx mb eb :
  0 <= mx →
  ex <= fexp prec emax (Zdigits2 mx + ex) →
  bounded prec emax mb eb = true →
  dyadic_le (match lx with loc_Exact => mx | _ => mx + 1 end) ex (Zpos mb) eb →
  match binary_round_aux prec emax s mx ex lx with
  | S754_zero s' => s' = s
  | S754_finite s' m e => s' = s ∧ dyadic_le (Zpos m) e (Zpos mb) eb
  | _ => False
  end.
Proof.
  intros Hmx Hnorm Hb Hle.
  set (mx' := match lx with loc_Exact => mx | _ => mx + 1 end) in *.
  assert (mx <= mx') as Hmx' by (subst mx'; destruct lx; lia).
  destruct (bounded_spec mb eb Hb) as [Hdmb [Heb1 Heb2]].
  pose proof (Zdigits2_bounds (Zpos mb) ltac:(done)) as [_ Hmb].
  assert (Z.pos mb < 2 ^ prec) as Hmb53.
  { eapply Z.lt_le_trans; [exact Hmb|]. apply Z.pow_le_mono_r; lia. }
  pose proof (Zdigits2_nonneg mx) as Hdmx.
  unfold binary_round_aux.
  pose proof (shr_fexp_spec mx ex lx Hmx) as (H1e & H1m & H1l). cbn zeta in H1e, H1m, H1l.
  destruct (shr_fexp prec emax mx ex lx) as [mrs1 e1]. cbn [fst snd] in H1e, H1m, H1l.
  replace (Z.max 0 (fexp prec emax (Zdigits2 mx + ex) - ex))
    with (fexp prec emax (Zdigits2 mx + ex) - ex) in * by lia.
  set (n1 := fexp prec emax (Zdigits2 mx + ex) - ex) in *.
  assert (0 <= n1) as Hn1 by (subst n1; lia).
  assert (0 < 2 ^ n1) as Hp1 by (apply Z.pow_pos_nonneg; lia).
  set (M1 := shr_m mrs1) in *.
  assert (0 <= M1) as HM1 by (rewrite H1m; apply Z.div_pos; lia).
  assert (M1 * 2 ^ n1 <= mx) as HM1le.
  { rewrite H1m, Z.mul_comm. apply Z.mul_div_le. lia. }
  pose proof (round_nearest_even_bounds M1 (loc_of_shr_record mrs1)) as [[Hr1 Hr2] Hr3].
  set (M2 := round_nearest_even M1 (loc_of_shr_record mrs1)) in *.
  assert (0 <= M2) as HM2 by lia.
  pose proof (shr_fexp_spec M2 e1 loc_Exact HM2) as (H2e & H2m & _). cbn zeta in H2e, H2m.
  destruct (shr_fexp prec emax M2 e1 loc_Exact) as [mrs2 e2]. cbn [fst snd] in H2e, H2m.
  set (n2 := Z.max 0 (fexp prec emax (Zdigits2 M2 + e1) - e1)) in *.
  assert (0 <= n2) as Hn2 by (subst n2; lia).
  assert (0 < 2 ^ n2) as Hp2 by (apply Z.pow_pos_nonneg; lia).
  (* the rounded mantissa stays below the bound *)
  assert (dyadic_le M2 e1 (Zpos mb) eb) as HM2le.
  { assert (loc_of_shr_record mrs1 = loc_Exact ∨ loc_of_shr_record mrs1 ≠ loc_Exact)
      as [Hex|Hinex] by (destruct (loc_of_shr_record mrs1); [by left|by right]).
    - rewrite (Hr3 Hex).
      apply (dyadic_le_at (Z.min ex eb)); [lia|lia|].
      apply (dyadic_le_at (Z.min ex eb)) in Hle; [|lia|lia].
      replace (e1 - Z.min ex eb) with (n1 + (ex - Z.min ex eb)) by lia.
      rewrite Z.pow_add_r by lia.
      assert (0 < 2 ^ (ex - Z.min ex eb)) by (apply Z.pow_pos_nonneg; lia).
      apply Z.le_trans with (mx' * 2 ^ (ex - Z.min ex eb)); [|exact Hle].
      rewrite Z.mul_assoc. apply Z.mul_le_mono_nonneg_r; lia.
    - assert (M1 * 2 ^ n1 + 1 <= mx') as Hgt.
      { destruct (H1l Hinex) as [Hl|Hmod].
        - subst mx'. destruct lx; [done|lia].
        - pose proof (Z.div_mod mx (2 ^ n1) ltac:(lia)) as Hdm.
          pose proof (Z.mod_pos_bound mx (2 ^ n1) ltac:(lia)) as Hmb'.
          rewrite <- H1m in Hdm. lia. }
      assert (e1 <= eb) as He1.
      { destruct (Z.le_gt_cases e1 eb) as [|Hlt]; [done|exfalso].
        assert (eb < Zdigits2 mx + ex - prec) as Hlt'
          by (unfold fexp, emin, prec, emax in *; lia).
        remember (Z.min ex eb) as c eqn:Hc.
        apply (dyadic_le_at c) in Hle; [|lia|lia].
        clearbody mx'.
        assert (0 < 2 ^ (ex - c)) by (apply Z.pow_pos_nonneg; lia).
        assert (0 < 2 ^ (eb - c)) by (apply Z.pow_pos_nonneg; lia).
        assert (Z.pos mb * 2 ^ (eb - c) < 2 ^ (prec + eb - c)) as Hup.
        { replace (prec + eb - c) with (prec + (eb - c)) by lia.
          rewrite Z.pow_add_r by (unfold prec; lia).
          apply Z.mul_lt_mono_pos_r; lia. }
        assert (2 ^ (prec + eb - c) <= mx' * 2 ^ (ex - c)); [|lia].
        destruct (decide (mx = 0)) as [->|Hne].
        + cbn in Hlt'. 
          assert (2 ^ (prec + eb - c) <= 2 ^ (ex - c)) as Hq
            by (apply Z.pow_le_mono_r; unfold prec in *; lia).
          apply Z.le_trans with (1 * 2 ^ (ex - c)); [lia|].
          apply Z.mul_le_mono_nonneg_r; lia.
        + pose proof (Zdigits2_bounds mx ltac:(lia)) as [Hlo _].
          pose proof (Zdigits2_pos mx ltac:(lia)).
          assert (2 ^ (prec + eb - c) <= 2 ^ (Zdigits2 mx - 1 + (ex - c))) as Hq
            by (apply Z.pow_le_mono_r; unfold prec in *; lia).
          rewrite Z.pow_add_r in Hq by lia.
          apply Z.le_trans with (2 ^ (Zdigits2 mx - 1) * 2 ^ (ex - c)); [done|].
          apply Z.mul_le_mono_nonneg_r; lia. }
      apply (dyadic_le_at e1); [lia|lia|].
      apply (dyadic_le_at ex) in Hle; [|lia|lia].
      rewrite Z.sub_diag, Z.mul_1_r in Hle. rewrite Z.sub_diag, Z.mul_1_r.
      replace (eb - ex) with ((eb - e1) + n1) in Hle by lia.
      rewrite Z.pow_add_r, Z.mul_assoc in Hle by lia.
      set (K := Z.pos mb * 2 ^ (eb - e1)) in *.
      assert (M1 < K); [|lia].
      apply (Z.mul_lt_mono_pos_r (2 ^ n1)); lia. }
  (* so does the final mantissa *)
  assert (dyadic_le (shr_m mrs2) e2 (Zpos mb) eb) as Hfin.
  { apply (dyadic_le_at (Z.min e1 eb)); [lia|lia|].
    apply (dyadic_le_at (Z.min e1 eb)) in HM2le; [|lia|lia].
    rewrite H2m, H2e.
    replace (e1 + n2 - Z.min e1 eb) with (n2 + (e1 - Z.min e1 eb)) by lia.
    rewrite Z.pow_add_r by lia.
    assert (0 < 2 ^ (e1 - Z.min e1 eb)) by (apply Z.pow_pos_nonneg; lia).
    pose proof (Z.mul_div_le M2 (2 ^ n2) ltac:(lia)) as Hdiv.
    apply Z.le_trans with (M2 * 2 ^ (e1 - Z.min e1 eb)); [|exact HM2le].
    rewrite Z.mul_assoc. apply Z.mul_le_mono_nonneg_r; lia. }
  assert (0 <= shr_m mrs2) as Hf0 by (rewrite H2m; apply Z.div_pos; lia).
  destruct (shr_m mrs2) as [|m|m] eqn:Hm; [done| |lia].
  destruct (Z.leb_spec e2 (emax - prec)) as [Hok|Hover]; [done|].
  (* an exponent past the largest would need a mantissa smaller than a normal one *)
  exfalso.
  assert (Zpos m < 2 ^ 52) as Hsmall.
  { apply (dyadic_le_at eb) in Hfin; [|lia|lia].
    rewrite Z.sub_diag, Z.mul_1_r in Hfin.
    assert (2 ^ 1 <= 2 ^ (e2 - eb)) as Hq by (apply Z.pow_le_mono_r; lia).
    change (2 ^ prec) with (2 ^ 52 * 2) in Hmb53. change (2 ^ 1) with 2 in Hq.
    assert (Z.pos m * 2 <= Z.pos m * 2 ^ (e2 - eb))
      by (apply Z.mul_le_mono_nonneg_l; lia).
    lia. }
  assert (2 ^ 52 <= Zpos m); [|lia].
  rewrite H2m.
  destruct (decide (0 < fexp prec emax (Zdigits2 M2 + e1) - e1)) as [Hpos|Hzero].
  - assert (n2 = Zdigits2 M2 - prec) as Hn2'
      by (subst n2; unfold fexp, emin, prec, emax in *; lia).
    assert (0 < M2) as HM2pos.
    { destruct (decide (M2 = 0)) as [HM0|]; [|lia].
      rewrite HM0 in Hn2'. cbn in Hn2'. unfold prec in *. lia. }
    rewrite Hn2'. 
    replace 52 with (Zdigits2 M2 - 1 - (Zdigits2 M2 - prec)) by (unfold prec; lia).
    apply div_pow2_lower; unfold prec in *; lia.
  - assert (n2 = 0) as -> by (subst n2; lia). rewrite Z.div_1_r.
    assert (n1 = Zdigits2 mx - prec) as Hn1'
      by (subst n1; unfold fexp, emin, prec, emax in *; lia).
    assert (0 < mx) as Hmxpos.
    { destruct (decide (mx = 0)) as [Hm0|]; [|lia].
      rewrite Hm0 in Hn1'. cbn in Hn1'. unfold prec in *. lia. }
    assert (2 ^ 52 <= M1); [|lia].
    rewrite H1m, Hn1'.
    replace 52 with (Zdigits2 mx - 1 - (Zdigits2 mx - prec)) by (unfold prec; lia).
    apply div_pow2_lower; unfold prec in *; lia.
Qed.

Lemma dyadic_le_refl m e : dyadic_le m e m e.
Proof. unfold dyadic_le. lia. Qed.

Lemma dyadic_le_trans a ea b eb c ec :
  dyadic_le a ea b eb → dyadic_le b eb c ec → dyadic_le a ea c ec.
Proof.
  intros H1 H2. remember (Z.min ea (Z.min eb ec)) as c0 eqn:Hc.
  apply (dyadic_le_at c0) in H1; [|lia|lia]. apply (dyadic_le_at c0) in H2; [|lia|lia].
  apply (dyadic_le_at c0); lia.
Qed.

(** Both sides times [k * 2^j]. *)
Lemma dyadic_le_scale a ea b eb k j :
  0 <= k → dyadic_le a ea b eb → dyadic_le (a * k) (ea + j) (b * k) (eb + j).
Proof.
  intros Hk H. remember (Z.min ea eb) as c eqn:Hc.
  apply (dyadic_le_at c) in H; [|lia|lia].
  apply (dyadic_le_at (c + j)); [lia|lia|].
  replace (ea + j - (c + j)) with (ea - c) by lia.
  replace (eb + j - (c + j)) with (eb - c) by lia.
  rewrite <- !Z.mul_assoc, !(Z.mul_comm k), !Z.mul_assoc.
  apply Z.mul_le_mono_nonneg_r; lia.
Qed.

(** The same value at a lower exponent. *)
Lemma dyadic_le_shift m e k : 0 <= k → dyadic_le (m * 2 ^ k) (e - k) m e ∧ dyadic_le m e (m * 2 ^ k) (e - k).
Proof.
  intros Hk. split; apply (dyadic_le_at (e - k)); try lia;
    rewrite Z.sub_diag, Z.mul_1_r; replace (e - (e - k)) with k by lia; lia.
Qed.

Lemma exactZ_bounded z :
  0 < z < 2 ^ prec →
  bounded prec emax (Z.to_pos (z * 2 ^ (prec - Zdigits2 z))) (Zdigits2 z - prec) = true.
Proof.
  intros [Hz Hlt]. pose proof (Zdigits2_pos z Hz) as Hd.
  pose proof (Zdigits2_le z prec Hz ltac:(done) Hlt) as Hd'.
  unfold bounded, canonical_mantissa. apply andb_true_iff. split.
  - apply Z.eqb_eq.
    change (Zpos (digits2_pos ?p)) with (Zdigits2 (Zpos p)).
    rewrite exactZ_mantissa, Zdigits2_shift by lia.
    rewrite fexp_normal; unfold prec in *; lia.
  - apply Z.leb_le. unfold prec, emax in *. lia.
Qed.

(** [binary_round] first brings the mantissa up to the format's exponent,
    which changes neither the value nor the bound. *)
Lemma binary_round_le s m e mb eb :
  bounded prec emax mb eb = true →
  dyadic_le (Zpos m) e (Zpos mb) eb →
  match binary_round prec emax s m e with
  | S754_zero s' => s' = s
  | S754_finite s' m' e' => s' = s ∧ dyadic_le (Zpos m') e' (Zpos mb) eb
  | _ => False
  end.
Proof.
  intros Hb Hle. unfold binary_round, shl_align.
  change (Zpos (digits2_pos m)) with (Zdigits2 (Zpos m)).
  destruct (fexp prec emax (Zdigits2 (Z.pos m) + e) - e) as [|d|d] eqn:Hd.
  - apply binary_round_aux_le; [lia|lia|done|done].
  - apply binary_round_aux_le; [lia|lia|done|done].
  - rewrite iter_xO.
    replace (fexp prec emax (Zdigits2 (Z.pos m) + e)) with (e - Zpos d) by lia.
    apply binary_round_aux_le; [lia| |done|].
    + rewrite Zdigits2_shift by lia.
      replace (Zdigits2 (Z.pos m) + Z.pos d + (e - Z.pos d)) with (Zdigits2 (Z.pos m) + e)
        by lia.
      lia.
    + eapply dyadic_le_trans; [|exact Hle]. apply dyadic_le_shift. lia.
Qed.

Lemma binary_normalize_le z e mb eb :
  bounded prec emax mb eb = true →
  dyadic_le (Z.abs z) e (Zpos mb) eb →
  match binary_normalize prec emax z e false with
  | S754_zero _ => True
  | S754_finite _ m' e' => dyadic_le (Zpos m') e' (Zpos mb) eb
  | _ => False
  end.
Proof.
  intros Hb Hle. destruct z as [|m|m]; cbn [binary_normalize]; [done| |].
  - pose proof (binary_round_le false m e mb eb Hb Hle) as H.
    destruct (binary_round prec emax false m e); try done. tauto.
  - pose proof (binary_round_le true m e mb eb Hb Hle) as H.
    destruct (binary_round prec emax true m e); try done. tauto.
Qed.

Lemma mag_le_printed n b : mag_le n b → mag_le (printed n) b.
Proof. by destruct n. Qed.

Lemma new_location_exact nb k : new_location nb k ≠ loc_Exact → k ≠ 0.
Proof.
  intros H ->. apply H. unfold new_location, new_location_even, new_location_odd.
  by destruct (Z.even nb).
Qed.

Lemma div_eucl_spec a b : 0 < b → Z.div_eucl a b = (a / b, a mod b).
Proof. intros _. unfold Z.div, Z.modulo. by destruct (Z.div_eucl a b). Qed.

(** A quotient of an offset by an extent that contains it is within 1. *)
Lemma ndiv_within d w : within d w → within (ndiv d w) (of_Z 1).
Proof.
  destruct d as [sd| | |[] md ed], w as [| | |[] mw ew]; try done.
  intros Hle. cbn in Hle. unfold ndiv. cbn [SFdiv xorb]. unfold SFdiv_core_binary.
  set (d1 := Zdigits2 (Z.pos md)). set (d2 := Zdigits2 (Z.pos mw)).
  pose proof (Zdigits2_bounds (Zpos md) ltac:(done)) as [Hd1lo Hd1hi]. fold d1 in Hd1lo, Hd1hi.
  pose proof (Zdigits2_bounds (Zpos mw) ltac:(done)) as [Hd2lo Hd2hi]. fold d2 in Hd2lo, Hd2hi.
  pose proof (Zdigits2_pos (Zpos md) ltac:(done)) as Hd1. fold d1 in Hd1.
  pose proof (Zdigits2_pos (Zpos mw) ltac:(done)) as Hd2. fold d2 in Hd2.
  (* the offset is at most the extent, so it has no more magnitude *)
  assert (d1 + ed <= d2 + ew) as HD.
  { remember (Z.min ed ew) as c eqn:Hc.
    apply (dyadic_le_at c) in Hle; [|lia|lia].
    destruct (Z.le_gt_cases (d1 + ed) (d2 + ew)) as [|Hgt]; [done|exfalso].
    assert (2 ^ (d2 + (ew - c)) <= 2 ^ (d1 - 1 + (ed - c))) as Hq
      by (apply Z.pow_le_mono_r; lia).
    rewrite !Z.pow_add_r in Hq by lia.
    assert (0 < 2 ^ (ew - c)) by (apply Z.pow_pos_nonneg; lia).
    assert (0 < 2 ^ (ed - c)) by (apply Z.pow_pos_nonneg; lia).
    assert (Z.pos mw * 2 ^ (ew - c) < 2 ^ d2 * 2 ^ (ew - c))
      by (apply Z.mul_lt_mono_pos_r; lia).
    assert (2 ^ (d1 - 1) * 2 ^ (ed - c) <= Z.pos md * 2 ^ (ed - c))
      by (apply Z.mul_le_mono_nonneg_r; lia).
    lia. }
  set (e' := Z.min (fexp prec emax (d1 + ed - (d2 + ew))) (ed - ew)).
  assert (e' <= - prec) as He' by (subst e'; unfold fexp, emin, prec, emax; lia).
  set (sh := ed - ew - e').
  assert (0 <= sh) as Hsh by (subst sh e'; lia).
  set (m' := match sh with Z.pos _ => Z.shiftl (Z.pos md) sh | 0 => Z.pos md | _ => 0 end).
  assert (m' = Z.pos md * 2 ^ sh) as Hm'.
  { subst m'. destruct sh as [|p|p] eqn:Hp; [lia| |lia]. by rewrite Z.shiftl_mul_pow2. }
  clearbody m'. rewrite div_eucl_spec by done.
  set (q := m' / Z.pos mw). set (r := m' mod Z.pos mw).
  assert (0 < 2 ^ sh) as Hpsh by (apply Z.pow_pos_nonneg; lia).
  assert (0 < m') as Hm'pos by (rewrite Hm'; lia).
  pose proof (Z.div_mod m' (Z.pos mw) ltac:(done)) as Hdm. fold q r in Hdm.
  pose proof (Z.mod_pos_bound m' (Z.pos mw) ltac:(done)) as Hr. fold r in Hr.
  assert (0 <= q) as Hq0 by (apply Z.div_pos; lia).
  assert (0 < 2 ^ (- e')) as Hpe by (apply Z.pow_pos_nonneg; unfold prec in *; lia).
  (* the scaled offset is at most the extent times 2^-e' *)
  assert (m' <= Z.pos mw * 2 ^ (- e')) as Hm'le.
  { apply (dyadic_le_at (ew + e')) in Hle; [|subst sh; lia|unfold prec in *; lia].
    rewrite Hm'. subst sh.
    replace (ed - (ew + e')) with (ed - ew - e') in Hle by lia.
    by replace (ew - (ew + e')) with (- e') in Hle by lia. }
  assert (q <= 2 ^ (- e') ∧ (r ≠ 0 → q + 1 <= 2 ^ (- e'))) as [Hqle Hqlt].
  { split.
    - apply Z.div_le_upper_bound; lia.
    - intros Hr0. destruct (Z.le_gt_cases (q + 1) (2 ^ (- e'))) as [|Hgt]; [done|exfalso].
      assert (Z.pos mw * 2 ^ (- e') <= Z.pos mw * q)
        by (apply Z.mul_le_mono_nonneg_l; lia).
      lia. }
  cbn [of_Z binary_normalize].
  change (binary_round prec emax false 1 0) with (S754_finite false 4503599627370496 (-52)).
  pose proof (binary_round_aux_le false q e' (new_location (Z.pos mw) r)
                4503599627370496 (-52) Hq0) as H.
  assert (e' <= fexp prec emax (Zdigits2 q + e')) as Hnorm.
  { (* the quotient is normalised *)
    destruct (Z.le_gt_cases e' (-1074)) as [Hlow|Hhigh].
    - unfold fexp, emin, prec, emax. lia.
    - assert (e' <= d1 + ed - (d2 + ew) - prec ∧ -1074 < d1 + ed - (d2 + ew) - prec)
        as [He1 He2] by (subst e'; unfold fexp, emin, prec, emax in *; lia).
      assert (2 ^ 52 <= q) as Hbig.
      { apply Z.div_le_lower_bound; [done|].
        rewrite Hm'.
        assert (2 ^ (52 + d2) <= 2 ^ (d1 - 1 + sh)) as Hq
          by (apply Z.pow_le_mono_r; subst sh; unfold prec in *; lia).
        rewrite !Z.pow_add_r in Hq by lia.
        assert (2 ^ (d1 - 1) * 2 ^ sh <= Z.pos md * 2 ^ sh)
          by (apply Z.mul_le_mono_nonneg_r; lia).
        assert (Z.pos mw * 2 ^ 52 <= 2 ^ d2 * 2 ^ 52)
          by (apply Z.mul_le_mono_nonneg_r; lia).
        lia. }
      pose proof (Zdigits2_bounds q ltac:(lia)) as [_ Hqhi].
      assert (52 < Zdigits2 q).
      { apply (Z.pow_lt_mono_r_iff 2); [lia|apply Zdigits2_nonneg|lia]. }
      unfold fexp, emin, prec, emax. lia. }
  specialize (H Hnorm eq_refl).
  assert (dyadic_le (match new_location (Z.pos mw) r with loc_Exact => q | _ => q + 1 end)
            e' 4503599627370496 (-52)) as Hone.
  { (* the rounded quotient is at most 1 *)
    apply (dyadic_le_at e'); [lia|unfold prec in *; lia|].
    rewrite Z.sub_diag, Z.mul_1_r.
    replace (4503599627370496 * 2 ^ (-52 - e')) with (2 ^ (- e')).
    - destruct (new_location (Z.pos mw) r) eqn:Hloc; [done|].
      apply Hqlt. apply (new_location_exact (Z.pos mw)). by rewrite Hloc.
    - change 4503599627370496 with (2 ^ 52). rewrite <- Z.pow_add_r by (unfold prec in *; lia).
      f_equal. lia. }
  specialize (H Hone). unfold within.
  destruct (binary_round_aux prec emax false q e' (new_location (Z.pos mw) r))
    as [s| | |s m e]; [by subst| done | done |].
  by destruct H as [-> H].
Qed.

(** Taking one half from a number between 0 and 1 leaves at most one half. *)
Lemma nsub_half_mag_le p : within p (of_Z 1) → mag_le (nsub p half) half.
Proof.
  change (of_Z 1) with (S754_finite false 4503599627370496 (-52)).
  destruct p as [s| | |[] m e]; try done.
  intros Hle. cbn in Hle. unfold nsub, half. cbn [SFsub negb cond_Zopp].
  set (ez := Z.min e (-53)).
  rewrite !shl_align_fst by (subst ez; lia).
  pose proof (binary_normalize_le
                (Z.pos m * 2 ^ (e - ez) + - (4503599627370496 * 2 ^ (-53 - ez))) ez
                4503599627370496 (-53) eq_refl) as H.
  unfold mag_le. change (Z.pos 4503599627370496) with 4503599627370496 in *.
  destruct (binary_normalize prec emax _ ez false) as [| | |s' m' e'];
    [done|apply H|apply H|apply H].
  all: apply (dyadic_le_at ez); [subst ez; lia|subst ez; lia|].
  all: rewrite Z.sub_diag, Z.mul_1_r.
  all: apply (dyadic_le_at ez) in Hle; [|subst ez; lia|subst ez; lia].
  all: replace (-52 - ez) with (1 + (-53 - ez)) in Hle by lia.
  all: rewrite Z.pow_add_r in Hle by (subst ez; lia).
  all: assert (0 < 2 ^ (-53 - ez)) by (apply Z.pow_pos_nonneg; subst ez; lia).
  all: assert (0 < 2 ^ (e - ez)) by (apply Z.pow_pos_nonneg; subst ez; lia).
  all: lia.
Qed.

(** Scaling a number of at most one half by [2 * k], with either sign,
    gives at most [k]. *)
Lemma nmul_mag_le t c k :
  0 < k → 2 * k < 2 ^ prec →
  (c = exactZ (2 * k) ∨ c = SFopp (exactZ (2 * k))) →
  mag_le t half → mag_le (nmul t c) (exactZ k).
Proof.
  intros Hk Hk2 Hc Ht.
  assert (∃ sc, c = S754_finite sc (Z.to_pos (2 * k * 2 ^ (prec - Zdigits2 (2 * k))))
                      (Zdigits2 (2 * k) - prec)) as [sc ->]
    by (destruct Hc as [-> | ->]; unfold exactZ; cbn [SFopp]; eauto).
  unfold exactZ.
  pose proof (exactZ_mantissa (2 * k) ltac:(lia)) as Hmc.
  pose proof (exactZ_mantissa k ltac:(lia)) as Hmk.
  pose proof (exactZ_bounded k ltac:(lia)) as Hbk.
  assert (Zdigits2 (2 * k) = Zdigits2 k + 1) as Hd2.
  { replace (2 * k) with (k * 2 ^ 1) by lia. apply Zdigits2_shift; lia. }
  pose proof (Zdigits2_pos k Hk) as Hdk.
  pose proof (Zdigits2_le (2 * k) prec ltac:(lia) ltac:(done) Hk2) as Hdk'.
  set (mc := Z.to_pos (2 * k * 2 ^ (prec - Zdigits2 (2 * k)))) in *.
  set (mk := Z.to_pos (k * 2 ^ (prec - Zdigits2 k))) in *.
  destruct t as [s| | |s m e]; try done.
  unfold half, mag_le in Ht. unfold nmul. cbn [SFmul].
  pose proof (binary_round_aux_le (xorb s sc) (Z.pos (m * mc)) (e + (Zdigits2 (2 * k) - prec))
                loc_Exact mk (Zdigits2 k - prec) ltac:(done)) as H.
  unfold mag_le.
  assert (Zdigits2 (Z.pos mc) = prec) as Hdmc.
  { rewrite Hmc, Zdigits2_shift by lia. lia. }
  destruct (binary_round_aux prec emax (xorb s sc) (Z.pos (m * mc)) _ loc_Exact)
    as [| | |s' m' e']; [done|apply H|apply H|apply H].
  all: try done.
  all: try (rewrite Pos2Z.inj_mul;
            pose proof (Zdigits2_mul (Z.pos m) (Z.pos mc) ltac:(done) ltac:(done));
            pose proof (Zdigits2_pos (Z.pos m) ltac:(done));
            unfold fexp, emin, prec, emax in *; lia).
  all: rewrite Pos2Z.inj_mul.
  all: eapply dyadic_le_trans;
    [apply (dyadic_le_scale _ _ _ _ (Z.pos mc) (Zdigits2 (2 * k) - prec) ltac:(done) Ht)|].
  all: rewrite Hmc, Hmk, Hd2.
  all: apply (dyadic_le_at (Zdigits2 k - 105)); [unfold prec; lia|unfold prec; lia|].
  all: replace (-53 + (Zdigits2 k + 1 - prec) - (Zdigits2 k - 105)) with 0
         by (unfold prec; lia).
  all: replace (Zdigits2 k - prec - (Zdigits2 k - 105)) with 52 by (unfold prec; lia).
  all: replace (prec - Zdigits2 k) with (1 + (prec - (Zdigits2 k + 1))) by lia.
  all: rewrite Z.pow_add_r by lia.
  all: change (Z.pos 4503599627370496) with (2 ^ 52).
  all: lia.
Qed.

End Doubles.


(** The literal [0.5] is one divided by two. *)
Lemma half_spec : half = ndiv (of_Z 1) (of_Z 2).
Proof. vm_compute. reflexivity. Qed.

Lemma fromCentre_spec f : nsub f half = fromCentre f.
Proof. unfold fromCentre. by rewrite half_spec. Qed.



(** ** Parallax and tilt *)

Lemma mod2_even i : Nat.eqb (i mod 2) 0 = Nat.even i.
Proof.
  rewrite (Nat.div_mod_eq i 2) at 2.
  rewrite Nat.even_add, Nat.even_mul. cbn [Nat.even orb].
  pose proof (Nat.mod_upper_bound i 2 ltac:(lia)) as Hlt.
  destruct (i mod 2) as [|[|k]]; [done|done|lia].
Qed.

Lemma baseRotate_printed i :
  printed (baseRotate i) = if Nat.even i then of_Z 6 else of_Z (-12).
Proof. unfold baseRotate. rewrite mod2_even. by destruct (Nat.even i). Qed.

Lemma parallaxLeaves_lookup x y i0 leaves st i leaf :
  NoDup leaves → leaves !! i = Some leaf →
  getStyle leaf "transform" (parallaxLeaves x y i0 leaves st) = leafTransform x y (i0 + i).
Proof.
  revert i0 i st. induction leaves as [|l rest IH]; intros i0 i st Hnd Hi; [done|].
  apply list.NoDup_cons in Hnd as [Hl Hnd]. cbn -[setStyle depth baseRotate].
  destruct i as [|i].
  - injection Hi as ->. rewrite parallaxLeaves_other by tauto.
    rewrite getStyle_setStyle_eq, Nat.add_0_r. unfold leafTransform, depth.
    by rewrite baseRotate_printed.
  - cbn in Hi. rewrite (IH (S i0) i _ Hnd Hi). f_equal. lia.
Qed.

Lemma pointermove_listeners env doc n h :
  (n, "pointermove", h) ∈ installed env doc →
  prefersReducedMotion env = false
  ∧ ((∃ hero, h = HeroPointerMove hero (doc_leaves doc) ∧ doc_hero doc = Some hero)
     ∨ (∃ c, h = CardPointerMove c ∧ c ∈ doc_cards doc)).
Proof.
  intros Hin.
  pose proof (proj1 (list.Forall_forall _ _) (installed_all_ok env doc) _ Hin) as Hok.
  unfold installed_ok in Hok; cbn in Hok.
  destruct h; try (by destruct Hok as [[=] _]); try (by destruct Hok as (? & [=] & _));
    try (by injection Hok).
  - destruct Hok as (_ & ? & -> & ?). split; [done|]. left. eauto.
  - destruct Hok as (_ & ? & ?). split; [done|]. right. eauto.
Qed.

(** The pointermove listeners, with the node each one sits on. *)
Lemma pointermove_listeners_at env doc n h :
  (n, "pointermove", h) ∈ installed env doc →
  (∃ hero, h = HeroPointerMove hero (doc_leaves doc) ∧ doc_hero doc = Some hero
           ∧ n = Elem hero)
  ∨ (∃ c, h = CardPointerMove c ∧ c ∈ doc_cards doc ∧ n = Elem c).
Proof.
  intros Hok%installed_ok_in. unfold installed_ok in Hok; cbn in Hok.
  destruct h; try (by destruct Hok as [[=] _]); try (by destruct Hok as (? & [=] & _));
    try (by injection Hok).
  - destruct Hok as ([= ->] & ? & -> & ?). left. eauto.
  - destruct Hok as ([= ->] & ? & ?). right. eauto.
Qed.

Lemma hero_listener_installed env doc hero :
  prefersReducedMotion env = false → doc_hero doc = Some hero →
  (Elem hero, "pointermove", HeroPointerMove hero (doc_leaves doc)) ∈ installed env doc.
Proof.
  intros Hprm Hh. unfold installed, heroListeners. rewrite Hh, Hprm.
  rewrite !elem_of_app. right. right. left. by left.
Qed.

Lemma card_listener_installed env doc card :
  prefersReducedMotion env = false → card ∈ doc_cards doc →
  (Elem card, "pointermove", CardPointerMove card) ∈ installed env doc.
Proof.
  intros Hprm Hc. unfold installed. rewrite Hprm.
  rewrite !elem_of_app. right. right. right. left.
  apply list_elem_of_bind. exists card. split; [by left|done].
Qed.

Lemma pointermove_never_stops env doc n h :
  (n, "pointermove", h) ∈ installed env doc → stops h = false.
Proof.
  intros [_ [(hero & -> & _)|(c & -> & _)]]%pointermove_listeners; done.
Qed.


(** The nodes a bubbling event visits, split at one element of its path. *)
Lemma event_path_split e pre x post :
  bubbles e = true → path e = (pre ++ x :: post)%list →
  event_path e
  = ((Elem <$> pre) ++ Elem x :: ((Elem <$> post) ++ [Document; Window]))%list.
Proof.
  intros Hb Hp. unfold event_path. rewrite Hb, Hp, fmap_app, fmap_cons.
  by rewrite <- app_assoc.
Qed.

Lemma elem_of_above x y (post : list elem) :
  Elem x ∈ Elem y :: ((Elem <$> post) ++ [Document; Window])%list → x ∈ y :: post.
Proof.
  rewrite !elem_of_cons, elem_of_app, !elem_of_cons, elem_of_nil.
  intros [[= ->]|[(z & [= ->] & Hz)%list_elem_of_fmap|[|[|]]]]; try done; tauto.
Qed.

(** What a pointermove leaves on a leaf: the hero's listener writes the
    leaf after the listener of the leaf itself, should the leaf be a card,
    because the hero comes later on the path. *)
Lemma dispatch_leaf_transform env doc st e hero leaf i pre post :
  listeners st = installed env doc →
  prefersReducedMotion env = false → doc_hero doc = Some hero →
  NoDup (doc_leaves doc) → doc_leaves doc !! i = Some leaf →
  etype e = "pointermove" → bubbles e = true →
  path e = (pre ++ hero :: post)%list → (leaf ∈ doc_cards doc → leaf ∉ hero :: post) →
  getStyle leaf "transform" (dispatch e st)
  = leafTransform (fromCentre (fractionX e (layout st hero)))
      (fromCentre (fractionY e (layout st hero))) i.
Proof.
  intros Hls Hprm Hhero Hnd Hi Hty Hb Hpath Hbelow.
  unfold dispatch. rewrite (event_path_split e pre hero post) by done.
  rewrite <- !fromCentre_spec.
  apply (propagate_establish_from
           (λ s, getStyle leaf "transform" s
                 = leafTransform (nsub (fractionX e (layout st hero)) half)
                     (nsub (fractionY e (layout st hero)) half) i)
           e _ _ _ st (HeroPointerMove hero (doc_leaves doc))).
  - intros n h. rewrite Hls, Hty. apply pointermove_never_stops.
  - rewrite Hls, Hty. by apply hero_listener_installed.
  - intros s (_ & Hlay & _). cbn [run_handler fst]. rewrite Hlay.
    by rewrite (parallaxLeaves_lookup _ _ 0 _ _ i leaf).
  - intros n h s Hn Hh (_ & Hlay & _) Hs. rewrite Hls, Hty in Hh.
    apply pointermove_listeners_at in Hh as [(hero' & -> & Hh' & _)|(c & -> & Hc & ->)].
    + assert (hero' = hero) as -> by congruence.
      cbn [run_handler fst]. rewrite Hlay.
      by rewrite (parallaxLeaves_lookup _ _ 0 _ _ i leaf).
    + rewrite run_handler_style; [done|]. cbn. intros [-> _].
      apply elem_of_above in Hn. by apply Hbelow.
Qed.

(** What a pointermove leaves on a card, unless the card is a leaf of a hero
    that the event reaches at or after the card. *)
Lemma dispatch_card_transform env doc st e card pre post :
  listeners st = installed env doc →
  prefersReducedMotion env = false → card ∈ doc_cards doc →
  etype e = "pointermove" → bubbles e = true → path e = (pre ++ card :: post)%list →
  ¬ (card ∈ doc_leaves doc ∧ ∃ hero, doc_hero doc = Some hero ∧ hero ∈ card :: post) →
  getStyle card "transform" (dispatch e st)
  = cardTransform (fractionX e (layout st card)) (fractionY e (layout st card)).
Proof.
  intros Hls Hprm Hcard Hty Hb Hpath Hfree.
  unfold dispatch. rewrite (event_path_split e pre card post) by done.
  apply (propagate_establish_from
           (λ s, getStyle card "transform" s
                 = cardTransform (fractionX e (layout st card)) (fractionY e (layout st card)))
           e _ _ _ st (CardPointerMove card)).
  - intros n h. rewrite Hls, Hty. apply pointermove_never_stops.
  - rewrite Hls, Hty. by apply card_listener_installed.
  - intros s (_ & Hlay & _). cbn [run_handler fst]. rewrite Hlay.
    rewrite getStyle_setStyle_eq. unfold cardTransform. by rewrite !fromCentre_spec.
  - intros n h s Hn Hh (_ & Hlay & _) Hs. rewrite Hls, Hty in Hh.
    apply pointermove_listeners_at in Hh as [(hero & -> & Hh & ->)|(c & -> & Hc & ->)].
    + rewrite run_handler_style; [done|]. cbn. intros [Hleaf _].
      apply Hfree. split; [done|]. exists hero. split; [done|]. by apply elem_of_above in Hn.
    + destruct (decide (c = card)) as [->|Hne].
      * cbn [run_handler fst]. rewrite Hlay.
        rewrite getStyle_setStyle_eq. unfold cardTransform. by rewrite !fromCentre_spec.
      * rewrite run_handler_style; [done|]. cbn. intros [-> _]. done.
Qed.






(** * Further properties of the script *)

(** ** Navigation: what does not close it, and what it never touches *)

Lemma click_listeners env doc n h :
  (n, "click", h) ∈ installed env doc →
  ∃ t nv, doc_toggle doc = Some t ∧ doc_nav doc = Some nv
          ∧ ((h = ToggleClick t nv ∧ n = Elem t) ∨ (h = OutsideClick t nv ∧ n = Document)).
Proof.
  intros Hok%installed_ok_in. unfold installed_ok in Hok; cbn in Hok.
  destruct h; try (by destruct Hok as [[=] _]); try (by destruct Hok as (? & [=] & _));
    try (by injection Hok).
  - destruct Hok as ([= ->] & ? & ?). exists toggle, nav. tauto.
  - destruct Hok as ([= ->] & ? & ?). exists toggle, nav. tauto.
Qed.

Lemma keydown_listeners env doc n h :
  (n, "keydown", h) ∈ installed env doc →
  h = TabKey ∨ ∃ t nv, doc_toggle doc = Some t ∧ doc_nav doc = Some nv ∧ h = EscapeKey t nv.
Proof.
  intros Hok%installed_ok_in. unfold installed_ok in Hok; cbn in Hok.
  destruct h; try (by destruct Hok as [[=] _]); try (by destruct Hok as (? & [=] & _));
    try (by injection Hok); [|by left].
  destruct Hok as (_ & ? & ?). right. eauto.
Qed.

(** X1. Without the toggle or without the nav the navigation component is
    inert: in every reachable state a click of any kind, and a key press
    other than Tab, leave the whole store unchanged. *)
Theorem nav_absent_inert env doc mk inputs e :
  doc_toggle doc = None ∨ doc_nav doc = None →
  let st := run inputs (DOMContentLoaded env doc mk) in
  (etype e = "click" → dispatch e st = st ∧ invoked e st = [])
  ∧ (etype e = "keydown" → key e ≠ Some "Tab" → dispatch e st = st).
Proof.
  intros Habsent st.
  assert (listeners st = installed env doc) as Hls by apply run_installed.
  split.
  - intros Hty. unfold dispatch, invoked. rewrite propagate_none; [done|].
    intros n _. rewrite Hls, Hty. apply listeners_on_nil. intros h Hh.
    apply click_listeners in Hh as (t & nv & Ht & Hn & _).
    destruct Habsent; congruence.
  - intros Hty Hkey. unfold dispatch.
    apply (propagate_preserves (λ s, s = st)); [|done].
    intros n h s Hh _ ->. rewrite Hls, Hty in Hh.
    apply keydown_listeners in Hh as [->|(t & nv & Ht & Hn & _)].
    + by apply run_TabKey_other.
    + destruct Habsent; congruence.
Qed.

Lemma nav_absent_inert_witness :
  let doc := {| doc_toggle := Some 1; doc_nav := None; doc_reveals := [9];
                doc_marquees := [(3, Some 4)]; doc_hero := Some 5; doc_leaves := [6; 7];
                doc_cards := [8] |} in
  let st := run [Dispatch (pointerenter 3)] (DOMContentLoaded fullMotion doc demoMarkup) in
  dispatch (click [1; 0]) st = st ∧ dispatch (keydown "Escape" [0]) st = st.
Proof.
  intros doc st.
  pose proof (nav_absent_inert fullMotion doc demoMarkup [Dispatch (pointerenter 3)])
    as H.
  split.
  - exact (proj1 (proj1 (H (click [1; 0]) (or_intror eq_refl)) eq_refl)).
  - refine (proj2 (H (keydown "Escape" [0]) (or_intror eq_refl)) eq_refl _).
    cbn. discriminate.
Defined.

(** X2. A click whose target is inside the nav and outside the toggle never
    changes anything, whether the navigation is open or closed. *)
Theorem click_inside_nav_inert env doc mk t n inputs e :
  doc_toggle doc = Some t → doc_nav doc = Some n →
  etype e = "click" → n ∈ path e → t ∉ path e →
  let st := run inputs (DOMContentLoaded env doc mk) in
  dispatch e st = st.
Proof.
  intros Ht Hn Hty Hin Hout st.
  assert (listeners st = installed env doc) as Hls by apply run_installed.
  unfold dispatch. apply (propagate_preserves_on (λ s, s = st)); [|done].
  intros nd h s Hnd Hh _ ->. rewrite Hls, Hty in Hh.
  apply click_listeners in Hh as (t' & n' & Ht' & Hn' & [[-> ->]|[-> ->]]).
  - assert (t' = t) as -> by congruence. by apply event_path_elem in Hnd.
  - assert (t' = t) as -> by congruence. assert (n' = n) as -> by congruence.
    rewrite run_OutsideClick. unfold contains at 1.
    rewrite (bool_decide_eq_true_2 (n ∈ path e)) by done.
    by rewrite andb_false_r.
Qed.

Lemma click_inside_nav_inert_witness :
  let st := run [Dispatch (click [1; 0])] (DOMContentLoaded fullMotion demoDoc demoMarkup) in
  isOpen 2 st = true ∧ dispatch (click [2; 0]) st = st.
Proof.
  intros st. split; [vm_compute; reflexivity|].
  refine (click_inside_nav_inert fullMotion demoDoc demoMarkup 1 2
            [Dispatch (click [1; 0])] (click [2; 0]) eq_refl eq_refl eq_refl _ _).
  - cbn. left.
  - cbn. rewrite !elem_of_cons, elem_of_nil. lia.
Defined.

(** X3. On any page, a key press other than Escape and Tab leaves the whole
    store unchanged. *)
Theorem other_keys_inert env doc mk inputs e :
  etype e = "keydown" → key e ≠ Some "Escape" → key e ≠ Some "Tab" →
  let st := run inputs (DOMContentLoaded env doc mk) in
  dispatch e st = st.
Proof.
  intros Hty Hesc Htab st.
  assert (listeners st = installed env doc) as Hls by apply run_installed.
  unfold dispatch. apply (propagate_preserves (λ s, s = st)); [|done].
  intros n h s Hh _ ->. rewrite Hls, Hty in Hh.
  apply keydown_listeners in Hh as [->|(t & nv & _ & _ & ->)].
  - by apply run_TabKey_other.
  - rewrite run_EscapeKey. by rewrite bool_decide_eq_false_2.
Qed.

Lemma other_keys_inert_witness :
  let st := run [Dispatch (click [1; 0])] (DOMContentLoaded fullMotion demoDoc demoMarkup) in
  dispatch (keydown "Enter" [1; 0]) st = st.
Proof.
  intros st.
  refine (other_keys_inert fullMotion demoDoc demoMarkup [Dispatch (click [1; 0])]
            (keydown "Enter" [1; 0]) eq_refl _ _); cbn; discriminate.
Defined.

Lemma closed_attrs t n st :
  attrs (closed t n st) = <[(t, "aria-expanded") := "false"]> (attrs st).
Proof. done. Qed.

Lemma opened_attrs t n st :
  attrs (opened t n st) = <[(t, "aria-expanded") := "true"]> (attrs st).
Proof. done. Qed.

Lemma run_handler_attr h e st el a :
  ¬ writesAttr h el a → getAttribute el a (run_handler h e st).1 = getAttribute el a st.
Proof.
  unfold getAttribute.
  destruct h; cbn [run_handler fst writesAttr]; intros Hno.
  - destruct (expanded toggle st); rewrite ?closed_attrs, ?opened_attrs;
      (rewrite lookup_insert_ne; [done|]); intros [= -> <-]; by apply Hno.
  - destruct (_ && _); [|done]. rewrite closed_attrs.
    rewrite lookup_insert_ne; [done|]. intros [= -> <-]. by apply Hno.
  - destruct (_ && _); [|done]. rewrite closed_attrs.
    rewrite lookup_insert_ne; [done|]. intros [= -> <-]. by apply Hno.
  - done.
  - done.
  - done.
  - done.
  - by rewrite (styles_only_attrs st _ (parallaxLeaves_styles_only _ _ _ _ _ _
                                          (styles_only_refl st))).
  - by rewrite (styles_only_attrs st _ (resetLeaves_styles_only _ _ _
                                          (styles_only_refl st))).
  - done.
  - done.
  - by destruct (bool_decide _).
  - by destruct (usingKeyboard st).
Qed.

Lemma nav_handler_params env doc t n nd ty h :
  doc_toggle doc = Some t → doc_nav doc = Some n → (nd, ty, h) ∈ installed env doc →
  match h with
  | ToggleClick t' n' | OutsideClick t' n' | EscapeKey t' n' => t' = t ∧ n' = n
  | _ => True
  end.
Proof.
  intros Ht Hn Hok%installed_ok_in. unfold installed_ok in Hok; cbn in Hok.
  destruct h; try done; destruct Hok as (_ & ? & ?); split; congruence.
Qed.

Lemma not_navProp_display :
  "display" ≠ "animationPlayState" ∧ "display" ≠ "transform".
Proof. done. Qed.

Lemma bystander_keeps_nav t n h e s :
  ¬ writes h n "display" → ¬ writesAttr h t "aria-expanded" →
  expanded t (run_handler h e s).1 = expanded t s
  ∧ isOpen n (run_handler h e s).1 = isOpen n s.
Proof.
  intros Hw Ha. unfold expanded, isOpen.
  by rewrite run_handler_attr, run_handler_style.
Qed.

Lemma step_nav_consistent env doc t n i st :
  doc_toggle doc = Some t → doc_nav doc = Some n →
  listeners st = installed env doc →
  expanded t st = isOpen n st → expanded t (step i st) = isOpen n (step i st).
Proof.
  intros Ht Hn Hls Hinv. destruct i as [e|entries|l]; cbn [step].
  - unfold dispatch.
    apply (propagate_preserves (λ s, expanded t s = isOpen n s)); [|done].
    intros nd h s Hh _ Hs. rewrite Hls in Hh.
    pose proof (nav_handler_params env doc t n _ _ _ Ht Hn Hh) as Hp.
    destruct h;
      try (match goal with
           | |- context [run_handler ?h e s] =>
               destruct (bystander_keeps_nav t n h e s) as [-> ->];
               [cbn; try tauto; by intros [_ ?] | cbn; tauto | done]
           end);
      destruct Hp as [-> ->]; cbn [run_handler fst].
    + destruct (expanded t s).
      * by rewrite closed_not_open, closed_not_expanded.
      * by rewrite opened_open, opened_expanded.
    + destruct (_ && _); [|done]. by rewrite closed_not_open, closed_not_expanded.
    + destruct (_ && _); [|done]. by rewrite closed_not_open, closed_not_expanded.
  - destruct (observer st); [|done].
    destruct (revealCallback_frame entries st) as (_ & _ & _ & Hst & Hat & _).
    unfold expanded, isOpen, getAttribute, getStyle in *. by rewrite Hst, Hat.
  - done.
Qed.

(** X4. If the toggle's [aria-expanded] test and the nav's inline display
    agree after start-up, they agree in every reachable state, whatever the
    inputs: clicks anywhere, key presses, pointer and focus events, observer
    notifications and layout changes. *)
Theorem nav_consistent_always env doc mk t n inputs :
  doc_toggle doc = Some t → doc_nav doc = Some n →
  expanded t (DOMContentLoaded env doc mk) = isOpen n (DOMContentLoaded env doc mk) →
  expanded t (run inputs (DOMContentLoaded env doc mk))
  = isOpen n (run inputs (DOMContentLoaded env doc mk)).
Proof.
  intros Ht Hn. generalize (DOMContentLoaded_listeners env doc mk).
  generalize (DOMContentLoaded env doc mk).
  induction inputs as [|i inputs IH]; intros st Hls Hinv; [done|].
  rewrite run_cons. apply IH.
  - by rewrite (proj1 (step_listeners i st)).
  - by apply (step_nav_consistent env doc).
Qed.

Lemma nav_consistent_always_witness :
  let st := run [Dispatch (click [1; 0]); Dispatch (pointerenter 3);
                 Dispatch (keydown "Tab" [0]); Dispatch (click [9; 0])]
              (DOMContentLoaded fullMotion demoDoc demoMarkup) in
  expanded 1 st = isOpen 2 st.
Proof.
  intros st.
  refine (nav_consistent_always fullMotion demoDoc demoMarkup 1 2 _ eq_refl eq_refl _).
  vm_compute. reflexivity.
Defined.

(** X5. On a nav without any inline style, opening the navigation with
    the toggle and then closing it by any of the three triggers (toggle
    click, outside click, Escape) restores every inline style property of
    every element; the attribute ends as "false". *)
Theorem nav_open_close_restores env doc mk t n inputs e1 e2 :
  doc_toggle doc = Some t → doc_nav doc = Some n →
  let st := run inputs (DOMContentLoaded env doc mk) in
  expanded t st = false → (∀ p, getStyle n p st = Text "") →
  etype e1 = "click" → bubbles e1 = true → t ∈ path e1 → bubbles e2 = true →
  (etype e2 = "click" ∧ t ∈ path e2)
  ∨ (etype e2 = "click" ∧ (n ∉ path e2) ∧ (t ∉ path e2))
  ∨ (etype e2 = "keydown" ∧ key e2 = Some "Escape") →
  isOpen n (dispatch e1 st) = true
  ∧ (∀ el p, getStyle el p (dispatch e2 (dispatch e1 st)) = getStyle el p st)
  ∧ getAttribute t "aria-expanded" (dispatch e2 (dispatch e1 st)) = Some "false".
Proof.
  intros Ht Hn st Hexp Hclean Hty1 Hb1 Hin1 Hb2 He2.
  assert (listeners st = installed env doc) as Hls by apply run_installed.
  assert (dispatch e1 st = opened t n st) as H1.
  { unfold dispatch. rewrite (dispatch_toggle_click env doc t n) by done.
    by rewrite Hexp. }
  rewrite H1. set (s1 := opened t n st).
  assert (listeners s1 = installed env doc) as Hls1 by done.
  assert (dispatch e2 s1 = closed t n s1) as H2.
  { destruct He2 as [[Hty Hin]|[(Hty & Hno & Hto)|[Hty Hkey]]].
    - unfold dispatch. rewrite (dispatch_toggle_click env doc t n) by done.
      cbn [fst]. subst s1. by rewrite opened_expanded.
    - unfold dispatch. rewrite (dispatch_outside_click env doc t n) by done.
      cbn [fst]. rewrite run_OutsideClick. unfold contains.
      rewrite !bool_decide_eq_false_2 by done. subst s1. by rewrite opened_open.
    - rewrite (dispatch_keydown_nav env doc t n) by done.
      rewrite run_TabKey_other by by rewrite Hkey.
      rewrite run_EscapeKey, Hkey. subst s1. rewrite opened_open.
      by rewrite (bool_decide_eq_true_2 (Some "Escape" = Some "Escape")). }
  rewrite H2. split; [apply opened_open|]. split; [|apply closed_aria].
  intros el p. destruct (decide (el = n ∧ p ∈ navProps)) as [[-> Hp]|Hno].
  - rewrite closed_style, decide_True by done. by rewrite Hclean.
  - rewrite closed_style_frame by done. subst s1. by rewrite opened_style_frame.
Qed.

Lemma nav_open_close_restores_witness :
  let st := run [Dispatch (pointerenter 3)]
              (DOMContentLoaded fullMotion demoDoc demoMarkup) in
  isOpen 2 (dispatch (click [1; 0]) st) = true
  ∧ (∀ el p, getStyle el p (dispatch (keydown "Escape" [0]) (dispatch (click [1; 0]) st))
             = getStyle el p st)
  ∧ getAttribute 1 "aria-expanded"
      (dispatch (keydown "Escape" [0]) (dispatch (click [1; 0]) st)) = Some "false".
Proof.
  intros st.
  refine (nav_open_close_restores fullMotion demoDoc demoMarkup 1 2
            [Dispatch (pointerenter 3)] (click [1; 0])
            (keydown "Escape" [0]) eq_refl eq_refl _ _
            eq_refl eq_refl (list_elem_of_here _ _) eq_refl
            (or_intror (or_intror (conj eq_refl eq_refl)))).
  - vm_compute. reflexivity.
  - intros p. unfold getStyle.
    assert (styles (run [Dispatch (pointerenter 3)]
                      (DOMContentLoaded fullMotion demoDoc demoMarkup))
            = {[ (4, "animationPlayState") := Text "paused" ]}) as ->
      by (vm_compute; reflexivity).
    by rewrite lookup_singleton_ne.
Defined.

Lemma opened_style_value t n p st st' :
  p ∈ navProps → getStyle n p (opened t n st) = getStyle n p (opened t n st').
Proof.
  intros Hp. unfold opened, openNav; cbn -[setStyle].
  rewrite !getStyle_setStyle.
  repeat (style_case; [done|]).
  exfalso. apply navProps_spec in Hp.
  repeat (destruct Hp as [->|Hp]; [done|]). by subst.
Qed.

(** X6. Only the last of consecutive [openNav]/[closeNav] calls matters:
    calling either function after either function gives the inline styles
    and attributes of calling it alone, so each of them is idempotent. *)
Theorem nav_last_call_wins t n st el p a :
  let same s s' := getStyle el p s = getStyle el p s'
                   ∧ getAttribute el a s = getAttribute el a s' in
  same (opened t n (opened t n st)) (opened t n st)
  ∧ same (opened t n (closed t n st)) (opened t n st)
  ∧ same (closed t n (closed t n st)) (closed t n st)
  ∧ same (closed t n (opened t n st)) (closed t n st).
Proof.
  intros same. subst same. cbn beta.
  assert (∀ s, getStyle el p (opened t n (opened t n s)) = getStyle el p (opened t n s)
               ∧ getStyle el p (opened t n (closed t n s)) = getStyle el p (opened t n s)
               ∧ getStyle el p (closed t n (closed t n s)) = getStyle el p (closed t n s)
               ∧ getStyle el p (closed t n (opened t n s)) = getStyle el p (closed t n s))
    as Hst.
  { intros s. destruct (decide (el = n ∧ p ∈ navProps)) as [[-> Hp]|Hno].
    - rewrite !closed_style, !decide_True by done.
      repeat split; by apply opened_style_value.
    - by rewrite !opened_style_frame, !closed_style_frame, ?opened_style_frame by done. }
  assert (∀ v w (m : gmap (nat * string) string),
            <[(t, "aria-expanded") := v]> (<[(t, "aria-expanded") := w]> m) !! (el, a)
            = <[(t, "aria-expanded") := v]> m !! (el, a)) as Hat.
  { intros v w m. by rewrite insert_insert_eq. }
  unfold getAttribute.
  repeat first [rewrite opened_attrs | rewrite closed_attrs]. rewrite !Hat.
  destruct (Hst st) as (? & ? & ? & ?). repeat split; done.
Qed.

(** ** Pointer effects: resets, inert cases, and what a move leaves alone *)

Lemma head_in_event_path e x : head (path e) = Some x → Elem x ∈ event_path e.
Proof.
  intros Hhd. unfold event_path. destruct (path e) as [|y p]; [done|].
  injection Hhd as ->. destruct (bubbles e); cbn; by left.
Qed.

Lemma pointerleave_listeners env doc n h :
  (n, "pointerleave", h) ∈ installed env doc →
  (∃ c, h = MarqueePointerLeave c)
  ∨ (h = HeroPointerLeave (doc_leaves doc) ∧ prefersReducedMotion env = false
     ∧ ∃ hero, n = Elem hero ∧ doc_hero doc = Some hero)
  ∨ (∃ c, h = CardPointerLeave c ∧ n = Elem c ∧ c ∈ doc_cards doc
          ∧ prefersReducedMotion env = false).
Proof.
  intros Hok%installed_ok_in. unfold installed_ok in Hok; cbn in Hok.
  destruct h; try (by destruct Hok as [[=] _]); try (by destruct Hok as (? & [=] & _));
    try (by injection Hok).
  - left. eauto.
  - destruct Hok as (hero & [= ->] & ? & -> & ?). right. left. eauto.
  - destruct Hok as ([= ->] & ? & ?). right. right. eauto.
Qed.

Lemma pointerleave_never_stops env doc n h :
  (n, "pointerleave", h) ∈ installed env doc → stops h = false.
Proof.
  intros [(c & ->)|[(-> & _)|(c & -> & _)]]%pointerleave_listeners; done.
Qed.

Lemma resetLeaves_in (leaves : list elem) el st :
  el ∈ leaves →
  getStyle el "transform" (foldl (λ st leaf, setStyle leaf "transform" (Text "") st) st leaves)
  = Text "".
Proof.
  revert st. induction leaves as [|leaf rest IH]; intros st Hin; [by apply elem_of_nil in Hin|].
  cbn -[setStyle]. destruct (decide (el ∈ rest)) as [Hr|Hr]; [by apply IH|].
  apply elem_of_cons in Hin as [->|Hin]; [|done].
  rewrite resetLeaves_other by tauto. apply getStyle_setStyle_eq.
Qed.

Lemma hero_leave_installed env doc hero :
  prefersReducedMotion env = false → doc_hero doc = Some hero →
  (Elem hero, "pointerleave", HeroPointerLeave (doc_leaves doc)) ∈ installed env doc.
Proof.
  intros Hprm Hh. unfold installed, heroListeners. rewrite Hh, Hprm.
  rewrite !elem_of_app. right. right. left. right. by left.
Qed.

Lemma card_leave_installed env doc card :
  prefersReducedMotion env = false → card ∈ doc_cards doc →
  (Elem card, "pointerleave", CardPointerLeave card) ∈ installed env doc.
Proof.
  intros Hprm Hc. unfold installed. rewrite Hprm.
  rewrite !elem_of_app. right. right. right. left.
  apply list_elem_of_bind. exists card. split; [|done]. right. by left.
Qed.

(** The reset both pointerleave listeners perform on [el]'s transform. *)
Lemma pointerleave_keeps_reset env doc n h e s el :
  (n, "pointerleave", h) ∈ installed env doc →
  getStyle el "transform" s = Text "" →
  getStyle el "transform" (run_handler h e s).1 = Text "".
Proof.
  intros [(c & ->)|[(-> & _)|(c & -> & _)]]%pointerleave_listeners Hs.
  - by rewrite run_handler_style by (cbn; by intros [_ ?]).
  - cbn [run_handler fst]. destruct (decide (el ∈ doc_leaves doc)).
    + by apply resetLeaves_in.
    + rewrite resetLeaves_other; tauto.
  - cbn [run_handler fst]. rewrite getStyle_setStyle. by case_decide.
Qed.

(** X7. With motion not reduced, a pointerleave at the hero clears the
    inline transform of every leaf, in every reachable state (so whatever
    pointer moves came before). *)
Theorem hero_pointerleave_resets env doc mk inputs e hero leaf :
  prefersReducedMotion env = false → doc_hero doc = Some hero →
  leaf ∈ doc_leaves doc → etype e = "pointerleave" → head (path e) = Some hero →
  let st := run inputs (DOMContentLoaded env doc mk) in
  getStyle leaf "transform" (dispatch e st) = Text "".
Proof.
  intros Hprm Hhero Hleaf Hty Hhd st.
  assert (listeners st = installed env doc) as Hls by apply run_installed.
  unfold dispatch.
  apply (propagate_establish (λ s, getStyle leaf "transform" s = Text "")
           e _ st (Elem hero) (HeroPointerLeave (doc_leaves doc))).
  - by apply head_in_event_path.
  - rewrite Hls, Hty. by apply hero_leave_installed.
  - intros n h. rewrite Hls, Hty. apply pointerleave_never_stops.
  - intros s _. cbn [run_handler fst]. by apply resetLeaves_in.
  - intros n h s Hh _ Hs. rewrite Hls, Hty in Hh.
    by apply (pointerleave_keeps_reset env doc n).
Qed.

Lemma hero_pointerleave_resets_witness :
  let st := run [Dispatch (pointermove [6; 5; 0] (of_Z 300) (of_Z 100))]
              (DOMContentLoaded fullMotion demoDoc demoMarkup) in
  getStyle 7 "transform" st ≠ Text ""
  ∧ getStyle 7 "transform" (dispatch (pointerleave 5) st) = Text "".
Proof.
  intros st. split; [vm_compute; discriminate|].
  refine (hero_pointerleave_resets fullMotion demoDoc demoMarkup _ (pointerleave 5) 5 7
            eq_refl eq_refl _ eq_refl eq_refl).
  cbn. right. left.
Defined.

(** X8. With motion not reduced, a pointerleave at a card clears the card's
    inline transform, in every reachable state. *)
Theorem card_pointerleave_resets env doc mk inputs e card :
  prefersReducedMotion env = false → card ∈ doc_cards doc →
  etype e = "pointerleave" → head (path e) = Some card →
  let st := run inputs (DOMContentLoaded env doc mk) in
  getStyle card "transform" (dispatch e st) = Text "".
Proof.
  intros Hprm Hcard Hty Hhd st.
  assert (listeners st = installed env doc) as Hls by apply run_installed.
  unfold dispatch.
  apply (propagate_establish (λ s, getStyle card "transform" s = Text "")
           e _ st (Elem card) (CardPointerLeave card)).
  - by apply head_in_event_path.
  - rewrite Hls, Hty. by apply card_leave_installed.
  - intros n h. rewrite Hls, Hty. apply pointerleave_never_stops.
  - intros s _. cbn [run_handler fst]. apply getStyle_setStyle_eq.
  - intros n h s Hh _ Hs. rewrite Hls, Hty in Hh.
    by apply (pointerleave_keeps_reset env doc n).
Qed.

Lemma card_pointerleave_resets_witness :
  let st := run [Dispatch (pointermove [8; 0] (of_Z 100) (of_Z 50))]
              (DOMContentLoaded fullMotion demoDoc demoMarkup) in
  getStyle 8 "transform" st ≠ Text ""
  ∧ getStyle 8 "transform" (dispatch (pointerleave 8) st) = Text "".
Proof.
  intros st. split; [vm_compute; discriminate|].
  exact (card_pointerleave_resets fullMotion demoDoc demoMarkup _ (pointerleave 8) 8
           eq_refl (list_elem_of_here _ _) eq_refl eq_refl).
Defined.

(** A style property no installed listener assigns keeps its value. *)
Lemma run_style_unwritten env doc el p inputs st :
  listeners st = installed env doc →
  (∀ l, l ∈ installed env doc → ¬ writes l.2 el p) →
  getStyle el p (run inputs st) = getStyle el p st.
Proof.
  intros Hls Hno. revert st Hls.
  induction inputs as [|i inputs IH]; intros st Hls; [done|].
  rewrite run_cons, IH by by rewrite (proj1 (step_listeners i st)).
  destruct i as [e|entries|l]; cbn [step].
  - unfold dispatch. apply (propagate_preserves (λ s, getStyle el p s = getStyle el p st));
      [|done].
    intros n h s Hh _ <-. rewrite Hls in Hh.
    apply run_handler_style. apply (Hno (n, etype e, h) Hh).
  - destruct (observer st); [|done]. unfold getStyle.
    by rewrite (proj1 (proj2 (proj2 (proj2 (revealCallback_frame entries st))))).
  - done.
Qed.

(** X9. With reduced motion active the parallax and tilt listeners do not
    exist: a pointermove leaves the whole store unchanged and invokes no
    listener, and no input whatever changes any element's inline transform
    after start-up. *)
Theorem reduced_motion_pointer_inert env doc mk inputs e :
  prefersReducedMotion env = true →
  let st0 := DOMContentLoaded env doc mk in
  (etype e = "pointermove" →
   dispatch e (run inputs st0) = run inputs st0 ∧ invoked e (run inputs st0) = [])
  ∧ (∀ el, getStyle el "transform" (run inputs st0) = getStyle el "transform" st0).
Proof.
  intros Hprm st0. subst st0. split.
  - intros Hty. unfold dispatch, invoked. rewrite propagate_none; [done|].
    intros n _. rewrite run_installed, Hty. apply listeners_on_nil. intros h Hh.
    apply pointermove_listeners in Hh as [Hf _]. congruence.
  - intros el. apply (run_style_unwritten env doc).
    + apply DOMContentLoaded_listeners.
    + intros l Hl. apply (reduced_motion_no_writer env doc l el); auto.
Qed.

Lemma reduced_motion_pointer_inert_witness :
  let st := run [Dispatch (click [1; 0])]
              (DOMContentLoaded reducedMotion demoDoc demoMarkup) in
  dispatch (pointermove [6; 5; 0] (of_Z 300) (of_Z 100)) st = st
  ∧ getStyle 8 "transform" (dispatch (pointermove [8; 0] (of_Z 100) (of_Z 50)) st)
    = Text "".
Proof.
  intros st. subst st.
  pose proof (reduced_motion_pointer_inert reducedMotion demoDoc demoMarkup
                [Dispatch (click [1; 0])]) as H.
  split.
  - exact (proj1 (proj1 (H (pointermove [6; 5; 0] (of_Z 300) (of_Z 100)) eq_refl)
                    eq_refl)).
  - rewrite (proj1 (proj1 (H (pointermove [8; 0] (of_Z 100) (of_Z 50)) eq_refl)
                      eq_refl)).
    rewrite (proj2 (H (click [0]) eq_refl) 8). vm_compute. reflexivity.
Defined.

(** X10. Events of the types only marquees listen to (pointerenter, focusin,
    focusout) leave the whole store unchanged when no element on their path
    is a marquee with content; in particular a marquee without a content
    element is inert for them. *)
Theorem marquee_without_content_inert env doc mk inputs e :
  etype e = "pointerenter" ∨ etype e = "focusin" ∨ etype e = "focusout" →
  (∀ m c, m ∈ path e → (m, Some c) ∉ doc_marquees doc) →
  let st := run inputs (DOMContentLoaded env doc mk) in
  dispatch e st = st ∧ invoked e st = [].
Proof.
  intros Hty Hno st.
  assert (listeners st = installed env doc) as Hls by apply run_installed.
  unfold dispatch, invoked. rewrite propagate_none; [done|].
  intros n Hn. rewrite Hls. apply listeners_on_nil. intros h Hh.
  pose proof (installed_ok_in _ _ _ _ _ Hh) as Hok.
  unfold installed_ok in Hok; cbn in Hok.
  destruct h;
    try (destruct Hok as [[= _ Hty'] _]; rewrite Hty' in Hty;
         by destruct Hty as [|[|]]);
    try (destruct Hok as (? & [= _ Hty'] & _); rewrite Hty' in Hty;
         by destruct Hty as [|[|]]);
    try (injection Hok as _ Hty'; rewrite Hty' in Hty; by destruct Hty as [|[|]]);
    destruct Hok as (m & [= -> _] & Hm);
    apply event_path_elem in Hn; by apply (Hno m content).
Qed.

Lemma marquee_without_content_inert_witness :
  let doc := {| doc_toggle := Some 1; doc_nav := Some 2; doc_reveals := [9];
                doc_marquees := [(3, None)]; doc_hero := Some 5; doc_leaves := [6; 7];
                doc_cards := [8] |} in
  let st := run [Dispatch (click [1; 0])] (DOMContentLoaded fullMotion doc demoMarkup) in
  dispatch (pointerenter 3) st = st ∧ dispatch (focusin [4; 3; 0]) st = st.
Proof.
  intros doc st.
  assert (∀ (p : list nat) (m c : nat), m ∈ p → (m, Some c) ∉ doc_marquees doc) as Hno.
  { intros p m c _. cbn. rewrite list_elem_of_singleton. discriminate. }
  split.
  - exact (proj1 (marquee_without_content_inert fullMotion doc demoMarkup
                    [Dispatch (click [1; 0])] (pointerenter 3)
                    (or_introl eq_refl) (Hno _))).
  - exact (proj1 (marquee_without_content_inert fullMotion doc demoMarkup
                    [Dispatch (click [1; 0])] (focusin [4; 3; 0])
                    (or_intror (or_introl eq_refl)) (Hno _))).
Defined.

(** X11. On any page and whatever the motion preference, in every reachable
    state the marquee listeners set the content's play state from the event
    alone: "paused" after a pointerenter at the marquee or a focusin that
    passes it, cleared after a pointerleave at it or a focusout that passes
    it. *)
Theorem marquee_play_state env doc mk inputs m c p :
  (m, Some c) ∈ doc_marquees doc → m ∈ p →
  let st := run inputs (DOMContentLoaded env doc mk) in
  getStyle c "animationPlayState" (dispatch (pointerenter m) st) = Text "paused"
  ∧ getStyle c "animationPlayState" (dispatch (pointerleave m) st) = Text ""
  ∧ getStyle c "animationPlayState" (dispatch (focusin p) st) = Text "paused"
  ∧ getStyle c "animationPlayState" (dispatch (focusout p) st) = Text "".
Proof.
  intros Hm Hp st.
  assert (listeners st = installed env doc) as Hls by apply run_installed.
  assert (Elem m ∈ ((Elem <$> p) ++ [Document; Window])%list) as Hpath.
  { apply elem_of_app. left. by apply list_elem_of_fmap_2. }
  repeat split; apply (marquee_event env doc st m); try done; by left.
Qed.

Lemma marquee_play_state_witness :
  let st := run [Dispatch (focusin [4; 3; 0])]
              (DOMContentLoaded fullMotion demoDoc demoMarkup) in
  getStyle 4 "animationPlayState" (dispatch (pointerenter 3) st) = Text "paused"
  ∧ getStyle 4 "animationPlayState" (dispatch (focusout [4; 3; 0]) st) = Text "".
Proof.
  intros st.
  pose proof (marquee_play_state fullMotion demoDoc demoMarkup
                [Dispatch (focusin [4; 3; 0])] 3 4 [4; 3; 0]
                (list_elem_of_here _ _)
                (list_elem_of_further _ _ _ (list_elem_of_here _ _))) as H.
  destruct H as (H1 & _ & _ & H4). split; [exact H1|exact H4].
Defined.

(** X12. A pointermove assigns nothing but the transform of the cards on its
    path and, when the hero is on its path, of the hero's leaves: every
    other inline style property of every element, every attribute other than
    the reflected [class] and [style], all class lists and the modality flag
    are as before. *)
Theorem pointermove_frame env doc mk inputs e el p :
  etype e = "pointermove" →
  ¬ (p = "transform"
     ∧ ((el ∈ doc_cards doc ∧ el ∈ path e)
        ∨ (el ∈ doc_leaves doc ∧ ∃ hero, doc_hero doc = Some hero ∧ hero ∈ path e))) →
  let st := run inputs (DOMContentLoaded env doc mk) in
  getStyle el p (dispatch e st) = getStyle el p st
  ∧ (∀ x a, ¬ reflected a → getAttribute x a (dispatch e st) = getAttribute x a st)
  ∧ classes (dispatch e st) = classes st
  ∧ usingKeyboard (dispatch e st) = usingKeyboard st.
Proof.
  intros Hty Hno st.
  assert (listeners st = installed env doc) as Hls by apply run_installed.
  enough (getStyle el p (dispatch e st) = getStyle el p st
          ∧ attrs (dispatch e st) = attrs st
          ∧ classes (dispatch e st) = classes st
          ∧ usingKeyboard (dispatch e st) = usingKeyboard st) as (H1 & H2 & H3 & H4).
  { split; [done|]. split; [|done]. intros x a _. unfold getAttribute. by rewrite H2. }
  unfold dispatch.
  apply (propagate_preserves_on
           (λ s, getStyle el p s = getStyle el p st ∧ attrs s = attrs st
                 ∧ classes s = classes st ∧ usingKeyboard s = usingKeyboard st));
    [|done].
  intros n h s Hn Hh _ (<- & <- & <- & <-). rewrite Hls, Hty in Hh.
  pose proof (installed_ok_in _ _ _ _ _ Hh) as Hok.
  unfold installed_ok in Hok; cbn in Hok.
  assert (¬ writes h el p ∧ h ≠ TabKey ∧ h ≠ MouseDown ∧ ∀ x a, ¬ writesAttr h x a)
    as (Hw & Ht & Hm & Ha).
  { destruct h; try (by destruct Hok as [[=] _]); try (by destruct Hok as (? & [=] & _));
      try (by injection Hok); cbn.
    - destruct Hok as ([= ->] & Hhero & -> & _). apply event_path_elem in Hn.
      repeat split; try done; [|tauto]. intros [Hel ->]. apply Hno. eauto 10.
    - destruct Hok as ([= ->] & Hc & _). apply event_path_elem in Hn.
      repeat split; try done; [|tauto]. intros [-> ->]. apply Hno. eauto 10. }
  destruct (run_handler_modality h e s Ht Hm) as [-> ->].
  rewrite run_handler_style by done. repeat split.
  apply map_eq. intros [x a]. by apply (run_handler_attr h e s x a).
Qed.

Lemma pointermove_frame_witness :
  let doc := {| doc_toggle := Some 1; doc_nav := Some 2; doc_reveals := [9];
                doc_marquees := [(3, Some 4)]; doc_hero := Some 5; doc_leaves := [6; 7];
                doc_cards := [8; 10] |} in
  let st := run [Dispatch (pointermove [10; 0] (of_Z 120) (of_Z 60))]
              (DOMContentLoaded fullMotion doc demoMarkup) in
  getStyle 10 "transform" (dispatch (pointermove [8; 0] (of_Z 100) (of_Z 50)) st)
  = getStyle 10 "transform" st.
Proof.
  intros doc st.
  refine (proj1 (pointermove_frame fullMotion doc demoMarkup _
                   (pointermove [8; 0] (of_Z 100) (of_Z 50)) 10 "transform" eq_refl _)).
  cbn. rewrite !elem_of_cons, !elem_of_nil.
  intros [_ [[_ H]|[H _]]]; lia.
Defined.

Lemma writes_owned env doc l el p :
  l ∈ installed env doc → writes l.2 el p → owned env doc el p.
Proof.
  destruct l as [[n ty] h]. intros Hok%installed_ok_in.
  unfold installed_ok in Hok; cbn in Hok. unfold owned.
  destruct h; cbn.
  - destruct Hok as (_ & Ht & Hn). intros [-> Hp]. left. rewrite Ht. eauto.
  - destruct Hok as (_ & Ht & Hn). intros [-> Hp]. left. rewrite Ht. eauto.
  - destruct Hok as (_ & Ht & Hn). intros [-> Hp]. left. rewrite Ht. eauto.
  - destruct Hok as (m & _ & Hm). intros [-> ->]. right. left. eauto.
  - destruct Hok as (m & _ & Hm). intros [-> ->]. right. left. eauto.
  - destruct Hok as (m & _ & Hm). intros [-> ->]. right. left. eauto.
  - destruct Hok as (m & _ & Hm). intros [-> ->]. right. left. eauto.
  - destruct Hok as (_ & Hh & -> & Hprm). intros [Hel ->]. right. right.
    rewrite Hh. eauto 10.
  - destruct Hok as (hero & _ & Hh & -> & Hprm). intros [Hel ->]. right. right.
    rewrite Hh. eauto 10.
  - destruct Hok as (_ & Hc & Hprm). intros [-> ->]. right. right. eauto.
  - destruct Hok as (_ & Hc & Hprm). intros [-> ->]. right. right. eauto.
  - done.
  - done.
Qed.

(** X13. After start-up the script assigns inline styles on four kinds of
    element only: the nav, the contents of the marquees and, with motion not
    reduced, the hero's leaves and the cards.  On every other element every
    inline style property keeps, under all inputs, the value it had after
    start-up. *)
Theorem style_ownership env doc mk inputs el :
  ¬ styled env doc el →
  ∀ p, getStyle el p (run inputs (DOMContentLoaded env doc mk))
       = getStyle el p (DOMContentLoaded env doc mk).
Proof.
  intros Hno p. apply (run_style_unwritten env doc).
  - apply DOMContentLoaded_listeners.
  - intros l Hl Hw. apply Hno. apply (writes_owned env doc l) in Hw; [|done].
    unfold owned, styled in *. naive_solver.
Qed.

Lemma style_ownership_witness :
  let mk := {| m_attrs := ∅; m_styles := {[ (5, "transform") := Text "scale(1.1)" ]};
               m_classes := ∅; m_layout := λ _, demoRect; m_documentElement := 0 |} in
  let inputs := [Dispatch (click [1; 0]); Dispatch (pointerenter 3);
                 Dispatch (pointermove [8; 5; 0] (of_Z 120) (of_Z 60));
                 Dispatch (pointerleave 5)] in
  getStyle 5 "transform" (run inputs (DOMContentLoaded fullMotion demoDoc mk))
  = Text "scale(1.1)".
Proof.
  intros mk inputs.
  rewrite (style_ownership fullMotion demoDoc mk inputs 5); [vm_compute; reflexivity|].
  unfold styled. cbn. intros [[_ [=]]|[[m Hm]|(_ & [[_ Hl]|Hc])]].
  - apply list_elem_of_singleton in Hm. discriminate.
  - rewrite !elem_of_cons, elem_of_nil in Hl. lia.
  - rewrite !elem_of_cons, elem_of_nil in Hc. lia.
Defined.

(** ** The range of the tilt and of the parallax

    The bounds are on the doubles the listeners compute.  They need the
    offset of the pointer from the box's left (top) edge, as the listener
    subtracts it, to be between zero and the width (height): each of the
    three roundings that follow, of the quotient, of the difference with 0.5
    and of the product, then stays on its side of a bound that is itself a
    double. *)

(** X20. The tilt stays within its range: when the offset of the pointer
    from the left and top edge of a card's box, as the listener computes it,
    is between zero and the box's width and height, both angles the
    pointermove listener assigns are finite and at most 3 degrees in absolute
    value. *)
Theorem tilt_range env doc mk inputs e card pre post :
  prefersReducedMotion env = false → card ∈ doc_cards doc →
  etype e = "pointermove" → bubbles e = true → path e = (pre ++ card :: post)%list →
  ¬ (card ∈ doc_leaves doc ∧ ∃ hero, doc_hero doc = Some hero ∧ hero ∈ card :: post) →
  let st := run inputs (DOMContentLoaded env doc mk) in
  let rect := layout st card in
  within (nsub (clientX e) (left rect)) (width rect) →
  within (nsub (clientY e) (top rect)) (height rect) →
  ∃ rx ry : number,
    getStyle card "transform" (dispatch e st) = CardTransform rx ry
    ∧ mag_le rx (of_Z 3) ∧ mag_le ry (of_Z 3).
Proof.
  intros Hprm Hcard Hty Hb Hpath Hfree st rect Hx Hy.
  assert (listeners st = installed env doc) as Hls by apply run_installed.
  rewrite (dispatch_card_transform env doc st e card pre post) by done.
  unfold cardTransform. eexists _, _. split; [reflexivity|].
  rewrite <- !fromCentre_spec.
  replace (of_Z 3) with (exactZ 3) by (vm_compute; reflexivity).
  split; apply mag_le_printed.
  - apply nmul_mag_le; [done|done|left; vm_compute; reflexivity|].
    by apply nsub_half_mag_le, ndiv_within.
  - apply nmul_mag_le; [done|done|right; vm_compute; reflexivity|].
    by apply nsub_half_mag_le, ndiv_within.
Qed.

Lemma tilt_range_witness :
  let rect := {| left := ndiv (of_Z 127) (of_Z 10); top := of_Z 50;
                 width := ndiv (of_Z 2506) (of_Z 10); height := of_Z 100 |} in
  let mk := {| m_attrs := ∅; m_styles := ∅; m_classes := ∅; m_layout := λ _, rect;
               m_documentElement := 0 |} in
  let st := run [Dispatch (click [1; 0])] (DOMContentLoaded fullMotion demoDoc mk) in
  let e := pointermove [8; 0] (of_Z 263) (of_Z 150) in
  within (nsub (clientX e) (left rect)) (width rect)
  ∧ within (nsub (clientY e) (top rect)) (height rect)
  ∧ ∃ rx ry : number,
      getStyle 8 "transform" (dispatch e st) = CardTransform rx ry
      ∧ mag_le rx (of_Z 3) ∧ mag_le ry (of_Z 3).
Proof.
  intros rect mk st e.
  assert (within (nsub (clientX e) (left rect)) (width rect)) as Hx
    by (vm_compute; discriminate).
  assert (within (nsub (clientY e) (top rect)) (height rect)) as Hy
    by (vm_compute; discriminate).
  assert (¬ (8 ∈ doc_leaves demoDoc
             ∧ ∃ hero, doc_hero demoDoc = Some hero ∧ hero ∈ [8; 0])) as Hfree.
  { cbn. rewrite !elem_of_cons, elem_of_nil. intros [[|[|[]]] _]; lia. }
  split; [done|]. split; [done|].
  exact (tilt_range fullMotion demoDoc mk [Dispatch (click [1; 0])] e 8 [] [0]
           eq_refl (list_elem_of_here _ _) eq_refl eq_refl eq_refl Hfree Hx Hy).
Defined.

(** X21. The parallax stays within its range: when the offset of the pointer
    from the left and top edge of the hero's box, as the listener computes
    it, is between zero and the box's width and height, the translation the
    pointermove listener gives the leaf at index [i] (below 2^32) is finite
    and at most [3 * (i + 1)] pixels in absolute value on both axes. *)
Theorem parallax_range env doc mk inputs e hero leaf i pre post :
  prefersReducedMotion env = false → doc_hero doc = Some hero →
  NoDup (doc_leaves doc) → doc_leaves doc !! i = Some leaf →
  etype e = "pointermove" → bubbles e = true →
  path e = (pre ++ hero :: post)%list → (leaf ∈ doc_cards doc → leaf ∉ hero :: post) →
  (Z.of_nat i < 2 ^ 32)%Z →
  let st := run inputs (DOMContentLoaded env doc mk) in
  let rect := layout st hero in
  within (nsub (clientX e) (left rect)) (width rect) →
  within (nsub (clientY e) (top rect)) (height rect) →
  let bound := of_Z (3 * (Z.of_nat i + 1)) in
  ∃ tx ty : number,
    getStyle leaf "transform" (dispatch e st)
    = LeafTransform tx ty (if Nat.even i then of_Z 6 else of_Z (-12))
    ∧ mag_le tx bound ∧ mag_le ty bound.
Proof.
  intros Hprm Hhero Hnd Hi Hty Hb Hpath Hbelow Hlt st rect Hx Hy bound.
  assert (listeners st = installed env doc) as Hls by apply run_installed.
  rewrite (dispatch_leaf_transform env doc st e hero leaf i pre post) by done.
  unfold leafTransform. eexists _, _. split; [reflexivity|].
  change (nmul (nadd (of_nat i) (of_Z 1)) (of_Z 6)) with (depth i).
  rewrite <- !fromCentre_spec. subst bound.
  assert (2 ^ 32 * 8 < 2 ^ prec)%Z as Hp by done.
  rewrite of_Z_exact by lia.
  assert (depth i = exactZ (2 * (3 * (Z.of_nat i + 1)))) as Hd.
  { rewrite depth_exactZ by done. f_equal. lia. }
  split; apply mag_le_printed.
  - apply nmul_mag_le; [lia|lia|by left|].
    by apply nsub_half_mag_le, ndiv_within.
  - apply nmul_mag_le; [lia|lia|by left|].
    by apply nsub_half_mag_le, ndiv_within.
Qed.

Lemma parallax_range_witness :
  let rect := {| left := ndiv (of_Z 127) (of_Z 10); top := of_Z 50;
                 width := ndiv (of_Z 2506) (of_Z 10); height := of_Z 100 |} in
  let mk := {| m_attrs := ∅; m_styles := ∅; m_classes := ∅; m_layout := λ _, rect;
               m_documentElement := 0 |} in
  let st := run [Dispatch (click [1; 0])] (DOMContentLoaded fullMotion demoDoc mk) in
  let e := pointermove [7; 5; 0] (of_Z 263) (of_Z 50) in
  within (nsub (clientX e) (left rect)) (width rect)
  ∧ within (nsub (clientY e) (top rect)) (height rect)
  ∧ ∃ tx ty : number,
      getStyle 7 "transform" (dispatch e st) = LeafTransform tx ty (of_Z (-12))
      ∧ mag_le tx (of_Z 6) ∧ mag_le ty (of_Z 6).
Proof.
  intros rect mk st e.
  assert (within (nsub (clientX e) (left rect)) (width rect)) as Hx
    by (vm_compute; discriminate).
  assert (within (nsub (clientY e) (top rect)) (height rect)) as Hy
    by (vm_compute; done).
  assert (NoDup (doc_leaves demoDoc)) as Hnd.
  { cbn. apply NoDup_cons_2; [rewrite list_elem_of_singleton; lia|].
    apply NoDup_singleton. }
  assert (7 ∈ doc_cards demoDoc → 7 ∉ [5; 0]) as Hbelow.
  { intros _. rewrite !elem_of_cons, elem_of_nil. lia. }
  split; [done|]. split; [done|].
  exact (parallax_range fullMotion demoDoc mk [Dispatch (click [1; 0])] e 5 7 1 [7] [0]
           eq_refl eq_refl Hnd eq_refl eq_refl eq_refl eq_refl Hbelow eq_refl Hx Hy).
Defined.

(** ** Start-up and the rest of the page *)

Lemma same_page_fold {A} (f : Store → A → Store) (l : list A) st :
  (∀ s x, same_page s (f s x)) → same_page st (foldl f st l).
Proof.
  intros Hf. unfold same_page in *. revert st.
  induction l as [|x l IH]; intros st; [done|]. cbn [foldl].
  destruct (IH (f st x)) as (-> & -> & ->). apply Hf.
Qed.

Lemma same_page_trans st s s' : same_page st s → same_page s s' → same_page st s'.
Proof. unfold same_page. intros (<- & <- & <-) (<- & <- & <-). done. Qed.

Lemma DOMContentLoaded_page env doc mk : same_page (load mk) (DOMContentLoaded env doc mk).
Proof.
  assert (∀ st, same_page st (initNav doc st)) as H1.
  { intros st. unfold initNav. by destruct (doc_toggle doc), (doc_nav doc). }
  assert (∀ st, same_page st (initReveal env doc st)) as H2.
  { intros st. unfold initReveal. destruct (_ && _).
    - apply (same_page_trans _
               (set_observer (Some {| threshold := revealThreshold; targets := ∅ |}) st));
        [done|].
      apply same_page_fold. intros s x. unfold observe. by destruct (observer s).
    - by apply same_page_fold. }
  assert (∀ st, same_page st (initMarquees env doc st)) as H3.
  { intros st. apply same_page_fold. intros s m. unfold initMarquee.
    destruct (m.2); [|done]. by destruct (prefersReducedMotion env). }
  assert (∀ st, same_page st (initHero env doc st)) as H4.
  { intros st. unfold initHero. destruct (doc_hero doc); [|done]. by destruct (negb _). }
  assert (∀ st, same_page st (initCards env doc st)) as H5.
  { intros st. unfold initCards. destruct (negb _); [|done]. by apply same_page_fold. }
  unfold DOMContentLoaded.
  eapply same_page_trans; [apply H1|].
  eapply same_page_trans; [apply H2|].
  eapply same_page_trans; [apply H3|].
  eapply same_page_trans; [apply H4|].
  eapply same_page_trans; [apply H5|]. done.
Qed.

Lemma run_attr_unwritten env doc el a inputs st :
  listeners st = installed env doc →
  (∀ l, l ∈ installed env doc → ¬ writesAttr l.2 el a) →
  getAttribute el a (run inputs st) = getAttribute el a st.
Proof.
  intros Hls Hno. revert st Hls.
  induction inputs as [|i inputs IH]; intros st Hls; [done|].
  rewrite run_cons, IH by by rewrite (proj1 (step_listeners i st)).
  destruct i as [e|entries|l]; cbn [step].
  - unfold dispatch.
    apply (propagate_preserves (λ s, getAttribute el a s = getAttribute el a st)); [|done].
    intros n h s Hh _ <-. rewrite Hls in Hh.
    apply run_handler_attr. apply (Hno (n, etype e, h) Hh).
  - destruct (observer st); [|done]. unfold getAttribute.
    by rewrite (proj1 (proj2 (proj2 (proj2 (proj2 (revealCallback_frame entries st)))))).
  - done.
Qed.

(** X14. The only attribute the script ever sets is [aria-expanded] of the
    menu toggle: apart from the reflected [class] and [style], every other
    attribute of every element reads, after start-up and any inputs, as in
    the markup; and without a nav the toggle's [aria-expanded] is never
    written either. *)
Theorem attribute_frame env doc mk inputs el a :
  ¬ reflected a →
  doc_toggle doc ≠ Some el ∨ lower a ≠ "aria-expanded" ∨ doc_nav doc = None →
  getAttribute el a (run inputs (DOMContentLoaded env doc mk)) = m_attrs mk !! (el, a).
Proof.
  intros _ Hno.
  assert (doc_toggle doc ≠ Some el ∨ a ≠ "aria-expanded" ∨ doc_nav doc = None) as Hno'.
  { destruct Hno as [?|[Ha|?]]; [tauto| |tauto]. right. left. by intros ->. }
  clear Hno. rename Hno' into Hno.
  rewrite (run_attr_unwritten env doc).
  - unfold getAttribute. by rewrite (proj1 (DOMContentLoaded_page env doc mk)).
  - apply DOMContentLoaded_listeners.
  - intros [[n ty] h] Hok%installed_ok_in. unfold installed_ok in Hok; cbn in Hok.
    destruct h; cbn; try tauto; destruct Hok as (_ & Ht & Hn); intros [-> ->];
      destruct Hno as [?|[?|?]]; congruence.
Qed.

Lemma attribute_frame_witness :
  let mk := {| m_attrs := {[ (1, "aria-expanded") := "false"; (1, "aria-label") := "Menu" ]};
               m_styles := ∅; m_classes := ∅; m_layout := λ _, demoRect;
               m_documentElement := 0 |} in
  getAttribute 1 "aria-label"
    (run [Dispatch (click [1; 0]); Dispatch (keydown "Escape" [0])]
       (DOMContentLoaded fullMotion demoDoc mk))
  = Some "Menu".
Proof.
  intros mk.
  rewrite (attribute_frame fullMotion demoDoc mk _ 1 "aria-label");
    [vm_compute; reflexivity| |].
  - intros [|]; discriminate.
  - right. left. discriminate.
Defined.

Lemma revealAll_classes (l : list elem) st el c :
  (el, c) ∈ classes (foldl (λ st el, addClass el "visible" st) st l)
  ↔ (el, c) ∈ classes st ∨ (c = "visible" ∧ el ∈ l).
Proof.
  revert st. induction l as [|x l IH]; intros st; cbn [foldl].
  - rewrite elem_of_nil. tauto.
  - rewrite IH. cbn. rewrite elem_of_union, elem_of_singleton, elem_of_cons.
    split; [intros [[[= -> ->]|?]|[? ?]]|intros [?|[-> [->|?]]]]; tauto.
Qed.

Lemma DOMContentLoaded_classes env doc mk el c :
  (el, c) ∈ classes (DOMContentLoaded env doc mk)
  ↔ (el, c) ∈ m_classes mk
    ∨ (c = "visible" ∧ degraded env = true ∧ el ∈ doc_reveals doc).
Proof.
  destruct (DOMContentLoaded_reveal env doc mk) as [Hcl _].
  assert (classes (initNav doc (load mk)) = m_classes mk) as Hc0.
  { by destruct (initNav_same_reveal doc (load mk)) as [-> _]. }
  set (s1 := set_observer (Some {| threshold := revealThreshold; targets := ∅ |})
               (initNav doc (load mk))).
  destruct (observeAll_frame (doc_reveals doc) s1 _ eq_refl) as (Hc1 & _ & _).
  rewrite Hcl. unfold initReveal, degraded. destruct (_ && _); cbn [negb].
  - fold s1. rewrite Hc1. cbn. rewrite Hc0. split; [tauto|].
    intros [?|(_ & [=] & _)]. done.
  - rewrite revealAll_classes, Hc0. tauto.
Qed.

Lemma DOMContentLoaded_registrations env doc mk :
  registrations (DOMContentLoaded env doc mk)
  = (if degraded env then ∅ else list_to_set (doc_reveals doc)).
Proof.
  destruct (DOMContentLoaded_reveal env doc mk) as [_ Hob].
  assert (observer (initNav doc (load mk)) = None) as Ho0.
  { by destruct (initNav_same_reveal doc (load mk)) as [_ ->]. }
  set (s1 := set_observer (Some {| threshold := revealThreshold; targets := ∅ |})
               (initNav doc (load mk))).
  destruct (observeAll_frame (doc_reveals doc) s1 _ eq_refl) as (_ & _ & Hr1).
  unfold registrations at 1. rewrite Hob. unfold initReveal, degraded.
  destruct (_ && _); cbn [negb].
  - fold s1. fold (registrations (foldl (λ st el, observe el st) s1 (doc_reveals doc))).
    rewrite Hr1. cbn. set_solver.
  - by rewrite (proj1 (revealAll_frame (doc_reveals doc) _ 0)), Ho0.
Qed.

(** X15. What start-up does for the reveal controller, exactly: on the
    degraded path it adds the class "visible" to the reveal elements, adds
    no other class and registers nothing; on the observed path it adds no
    class and registers exactly the reveal elements.  After start-up the set
    of observed elements never grows. *)
Theorem startup_reveal env doc mk inputs el c :
  let st0 := DOMContentLoaded env doc mk in
  ((el, c) ∈ classes st0
   ↔ (el, c) ∈ m_classes mk
     ∨ (c = "visible" ∧ degraded env = true ∧ el ∈ doc_reveals doc))
  ∧ registrations st0 = (if degraded env then ∅ else list_to_set (doc_reveals doc))
  ∧ registrations (run inputs st0) ⊆ registrations st0.
Proof.
  intros st0. split; [apply DOMContentLoaded_classes|].
  split; [apply DOMContentLoaded_registrations|].
  intros x Hx. destruct (decide (x ∈ registrations st0)) as [|Hnot]; [done|].
  by destruct (proj2 (run_monotone inputs st0 x "visible" visible_is_not_keyboard) Hnot).
Qed.

Lemma run_handler_classes_key h e st el c :
  (el, c) ≠ (documentElement st, "using-keyboard") →
  (el, c) ∈ classes (run_handler h e st).1 ↔ (el, c) ∈ classes st.
Proof.
  intros Hc. destruct (decide (h = TabKey)) as [->|Htab];
    [|destruct (decide (h = MouseDown)) as [->|Hmouse]].
  - cbn. case_match; [|done]. cbn. set_solver.
  - cbn. case_match; [|done]. cbn. set_solver.
  - by rewrite (proj2 (run_handler_modality h e st Htab Hmouse)).
Qed.

Lemma step_classes_key i st el c :
  c ≠ "visible" → (el, c) ≠ (documentElement st, "using-keyboard") →
  (el, c) ∈ classes (step i st) ↔ (el, c) ∈ classes st.
Proof.
  intros Hv Hk. destruct i as [e|entries|l]; cbn [step].
  - unfold dispatch.
    apply (propagate_preserves (λ s, (el, c) ∈ classes s ↔ (el, c) ∈ classes st)); [|done].
    intros n h s _ (_ & _ & Hroot & _) <-. apply run_handler_classes_key.
    by rewrite Hroot.
  - destruct (observer st); [|done]. rewrite revealCallback_classes. tauto.
  - done.
Qed.

(** X16. The script changes class lists in two ways only: it adds "visible",
    and it adds or removes "using-keyboard" on the root element.  Any other
    class membership of any element is, after start-up and any inputs, as in
    the markup. *)
Theorem classes_frame env doc mk inputs el c :
  c ≠ "visible" → (el, c) ≠ (m_documentElement mk, "using-keyboard") →
  (el, c) ∈ classes (run inputs (DOMContentLoaded env doc mk)) ↔ (el, c) ∈ m_classes mk.
Proof.
  intros Hv Hk.
  transitivity ((el, c) ∈ classes (DOMContentLoaded env doc mk));
    [|rewrite DOMContentLoaded_classes; tauto].
  assert (documentElement (DOMContentLoaded env doc mk) = m_documentElement mk) as Hroot
    by apply (DOMContentLoaded_page env doc mk).
  revert Hroot. generalize (DOMContentLoaded env doc mk).
  induction inputs as [|i inputs IH]; intros st Hroot; [done|].
  rewrite run_cons, IH by by rewrite (proj2 (step_listeners i st)).
  apply step_classes_key; [done|]. by rewrite Hroot.
Qed.

Lemma classes_frame_witness :
  let mk := {| m_attrs := ∅; m_styles := ∅; m_classes := {[ (9, "reveal"); (8, "card") ]};
               m_layout := λ _, demoRect; m_documentElement := 0 |} in
  let st := run [Notify [{| target := 9; isIntersecting := true;
                            intersectionRatio := Q2Qc (1 # 2) |}];
                 Dispatch (keydown "Tab" [0]); Dispatch (mousedown [8; 0])]
              (DOMContentLoaded fullMotion demoDoc mk) in
  (9, "reveal") ∈ classes st ∧ (8, "using-keyboard") ∉ classes st.
Proof.
  intros mk st. subst st. split.
  - apply (classes_frame fullMotion demoDoc mk); [discriminate|discriminate|].
    cbn. set_solver.
  - rewrite (classes_frame fullMotion demoDoc mk); [|discriminate|].
    + cbn. rewrite elem_of_union, !elem_of_singleton. intros [[=]|[=]].
    + cbn. intros [=].
Defined.

(** ** The observer callback on a whole batch *)

Lemma revealed_cons en entries :
  revealed (en :: entries)
  = if isIntersecting en then {[ target en ]} ∪ revealed entries else revealed entries.
Proof.
  unfold revealed. destruct (isIntersecting en) eqn:Hi.
  - by rewrite filter_cons_True by done.
  - rewrite filter_cons_False; [done|]. by rewrite Hi.
Qed.

Lemma elem_of_revealed el entries : el ∈ revealed entries ↔ reveals_now el entries.
Proof.
  unfold revealed, reveals_now.
  rewrite elem_of_list_to_set, list_elem_of_fmap.
  setoid_rewrite list_elem_of_filter. naive_solver.
Qed.

Lemma revealBatch_nil st : revealBatch [] st = st.
Proof.
  unfold revealBatch, revealed. destruct st as [a s c o u l ly d]; cbn.
  unfold set_observer, set_classes; cbn. f_equal.
  - rewrite set_map_empty. set_solver.
  - destruct o as [[thr tg]|]; [|done]. cbn. do 2 f_equal. set_solver.
Qed.

(** The fold of the callback over a batch is the batch's effect in one step. *)
Lemma revealCallback_batch entries st : revealCallback entries st = revealBatch entries st.
Proof.
  revert st. induction entries as [|en entries IH]; intros st.
  - by rewrite revealBatch_nil.
  - rewrite revealCallback_cons, IH. unfold revealBatch. rewrite revealed_cons.
    destruct (isIntersecting en); [|done].
    unfold unobserve, addClass, set_observer, set_classes.
    destruct st as [a s c o u l ly d]; cbn. destruct o as [[thr tg]|]; cbn.
    + f_equal.
      * rewrite set_map_union_L, set_map_singleton_L. set_solver.
      * do 2 f_equal. set_solver.
    + f_equal. rewrite set_map_union_L, set_map_singleton_L. set_solver.
Qed.

(** X17. The observer callback depends only on which targets its batch
    reports as intersecting: reordering the entries of a batch gives the same
    store, delivering the same batch twice is the same as delivering it once,
    and a batch without an intersecting entry changes nothing. *)
Theorem revealCallback_by_targets entries entries' st :
  (entries ≡ₚ entries' → revealCallback entries st = revealCallback entries' st)
  ∧ revealCallback entries (revealCallback entries st) = revealCallback entries st
  ∧ ((∀ en, en ∈ entries → isIntersecting en = false) → revealCallback entries st = st).
Proof.
  split; [|split].
  - intros Hperm. rewrite !revealCallback_batch.
    assert (revealed entries = revealed entries') as Heq; [|unfold revealBatch; by rewrite Heq].
    apply set_eq. intros x. rewrite !elem_of_revealed. unfold reveals_now.
    by setoid_rewrite Hperm.
  - rewrite !revealCallback_batch. unfold revealBatch, set_observer, set_classes.
    destruct st as [a s c o u l ly d]; cbn. f_equal.
    + set_solver.
    + destruct o as [[thr tg]|]; [|done]. cbn. do 2 f_equal. set_solver.
  - intros Hnone. rewrite revealCallback_batch.
    assert (revealed entries = ∅) as Heq.
    { apply elem_of_equiv_empty_L. intros x (en & Hin & _ & Hi)%elem_of_revealed.
      rewrite (Hnone en Hin) in Hi. done. }
    unfold revealBatch. rewrite Heq.
    change (list_to_set (target <$> filter (λ en, isIntersecting en = true) []))
      with (revealed []) in *.
    by rewrite <- (revealBatch_nil st) at 3.
Qed.

Lemma revealCallback_by_targets_witness :
  let e1 := {| target := 9; isIntersecting := true; intersectionRatio := Q2Qc (1 # 2) |} in
  let e2 := {| target := 8; isIntersecting := false; intersectionRatio := Q2Qc (1 # 20) |} in
  let st := DOMContentLoaded fullMotion demoDoc demoMarkup in
  revealCallback [e1; e2] st = revealCallback [e2; e1] st
  ∧ revealCallback [e2] st = st.
Proof.
  intros e1 e2 st. split.
  - apply (proj1 (revealCallback_by_targets [e1; e2] [e2; e1] st)).
    apply Permutation_swap.
  - apply (proj2 (proj2 (revealCallback_by_targets [e2] [] st))).
    intros en ->%list_elem_of_singleton. reflexivity.
Defined.

(** ** The modality flag and its class *)

Lemma step_modality_consistent i st :
  let consistent s := usingKeyboard s = hasClass (documentElement s) "using-keyboard" s in
  (usingKeyboard st = true → consistent st) →
  (usingKeyboard (step i st) = true → consistent (step i st))
  ∧ (consistent st → consistent (step i st)).
Proof.
  intros consistent. subst consistent. cbn beta.
  assert (∀ h e s,
            let s' := (run_handler h e s).1 in
            (usingKeyboard s' = true
             → hasClass (documentElement s') "using-keyboard" s' = true)
            ∨ (usingKeyboard s' = usingKeyboard s ∧ classes s' = classes s
               ∧ documentElement s' = documentElement s)) as Hh.
  { intros h e s. destruct (decide (h = TabKey)) as [->|Htab];
      [|destruct (decide (h = MouseDown)) as [->|Hmouse]].
    - cbn. destruct (bool_decide _); [left|by right].
      intros _. apply hasClass_true. cbn. set_solver.
    - cbn. destruct (usingKeyboard s) eqn:Hu; [left; cbn; done|right; by rewrite Hu].
    - right. destruct (run_handler_modality h e s Htab Hmouse) as [-> ->].
      split; [done|]. split; [done|]. apply run_handler_same_env. }
  assert (∀ (P : Prop) (b c : bool), (b = true → c = true) → (c = true → b = true) → b = c)
    as Hbool.
  { intros P [] []; intros; auto; symmetry; auto. }
  destruct i as [e|entries|l]; cbn [step].
  - intros Hst. split.
    + intros Hflag. rewrite Hflag. symmetry. revert Hflag. unfold dispatch.
      apply (propagate_preserves
               (λ s, usingKeyboard s = true
                     → hasClass (documentElement s) "using-keyboard" s = true)).
      * intros n h s _ _ Hs. destruct (Hh h e s) as [Hl|(Hu & Hc & Hd)]; [done|].
        unfold hasClass in *. rewrite Hu, Hc, Hd. done.
      * intros Hu. by rewrite <- Hst.
    + intros Hc. unfold dispatch.
      apply (propagate_preserves
               (λ s, usingKeyboard s = hasClass (documentElement s) "using-keyboard" s));
        [|done].
      intros n h s _ _ Hs. destruct (decide (h = TabKey)) as [->|Htab];
        [|destruct (decide (h = MouseDown)) as [->|Hmouse]].
      * cbn. destruct (bool_decide _); [|done]. cbn. symmetry.
        apply hasClass_true. cbn. set_solver.
      * cbn. destruct (usingKeyboard s) eqn:Hu; [|by rewrite Hu]. cbn. symmetry.
        apply hasClass_false. cbn. set_solver.
      * destruct (run_handler_modality h e s Htab Hmouse) as [Hu Hcl].
        unfold hasClass in *. rewrite Hu, Hcl.
        by rewrite (proj1 (proj2 (proj2 (run_handler_same_env h e s)))).
  - assert (usingKeyboard (match observer st with
                           | Some _ => revealCallback entries st | None => st end)
            = usingKeyboard st
            ∧ hasClass (documentElement (match observer st with
                                         | Some _ => revealCallback entries st
                                         | None => st end)) "using-keyboard"
                (match observer st with
                 | Some _ => revealCallback entries st | None => st end)
              = hasClass (documentElement st) "using-keyboard" st) as [-> ->]; [|tauto].
    destruct (observer st); [|done].
    destruct (revealCallback_frame entries st) as (_ & -> & -> & _).
    split; [done|]. apply bool_decide_ext. rewrite revealCallback_classes.
    split; [intros [?|[[=] _]]; done|tauto].
  - tauto.
Qed.

(** X18. In every reachable state, when [usingKeyboard] is set the root
    element carries the class "using-keyboard"; and if the markup does not
    put that class on the root element, the flag and the class agree in
    every reachable state. *)
Theorem keyboard_flag_matches_class env doc mk inputs :
  let st := run inputs (DOMContentLoaded env doc mk) in
  (usingKeyboard st = true → hasClass (documentElement st) "using-keyboard" st = true)
  ∧ ((m_documentElement mk, "using-keyboard") ∉ m_classes mk →
     usingKeyboard st = hasClass (documentElement st) "using-keyboard" st).
Proof.
  intros st. subst st.
  assert (usingKeyboard (DOMContentLoaded env doc mk) = false) as Hu0 by done.
  assert (documentElement (DOMContentLoaded env doc mk) = m_documentElement mk) as Hroot
    by apply (DOMContentLoaded_page env doc mk).
  assert ((m_documentElement mk, "using-keyboard") ∉ m_classes mk →
          usingKeyboard (DOMContentLoaded env doc mk)
          = hasClass (documentElement (DOMContentLoaded env doc mk)) "using-keyboard"
              (DOMContentLoaded env doc mk)) as Hc0.
  { intros Hno. rewrite Hu0, Hroot. symmetry. apply hasClass_false.
    rewrite DOMContentLoaded_classes. intros [?|[[=] _]]. done. }
  assert (usingKeyboard (DOMContentLoaded env doc mk) = true →
          usingKeyboard (DOMContentLoaded env doc mk)
          = hasClass (documentElement (DOMContentLoaded env doc mk)) "using-keyboard"
              (DOMContentLoaded env doc mk)) as Hw0 by (rewrite Hu0; done).
  clear Hu0 Hroot. revert Hc0 Hw0. generalize (DOMContentLoaded env doc mk).
  induction inputs as [|i inputs IH]; intros st Hc Hw.
  - cbn. split; [|done]. intros Hu. by rewrite <- (Hw Hu).
  - rewrite run_cons. destruct (step_modality_consistent i st Hw) as [H1 H2].
    apply IH; [|done]. intros Hno. by apply H2, Hc.
Qed.

Lemma keyboard_flag_matches_class_witness :
  let st := run [Dispatch (keydown "Tab" [0]); Dispatch (click [1; 0]);
                 Dispatch (mousedown [8; 0]); Dispatch (keydown "Tab" [1; 0])]
              (DOMContentLoaded fullMotion demoDoc demoMarkup) in
  usingKeyboard st = hasClass (documentElement st) "using-keyboard" st.
Proof.
  intros st.
  refine (proj2 (keyboard_flag_matches_class fullMotion demoDoc demoMarkup _) _).
  cbn. set_solver.
Defined.

(** ** The listener table *)

Lemma marqueeListeners_length (ms : list (elem * option elem)) :
  length (ms ≫= marqueeListeners) = 4 * length (filter (λ m, is_Some m.2) ms).
Proof.
  induction ms as [|[m [c|]] ms IH]; [done| |].
  - rewrite filter_cons_True by (by eexists). cbn [mbind list_bind length].
    rewrite length_app. change (length (marqueeListeners (m, Some c))) with 4.
    cbn [length]. fold (ms ≫= marqueeListeners). lia.
  - rewrite filter_cons_False by (by intros [? [=]]). done.
Qed.

Lemma cardListeners_length (cs : list elem) :
  length (cs ≫= cardListeners) = 2 * length cs.
Proof.
  induction cs as [|c cs IH]; [done|]. cbn [mbind list_bind length].
  rewrite length_app. fold (cs ≫= cardListeners). cbn [cardListeners length]. lia.
Qed.

(** X19. The listener table is fixed at start-up: no input adds or removes a
    listener.  It holds three listeners for the navigation only when both
    the toggle and the nav exist, four per marquee that has a content
    element, two for the hero and two per card only when motion is not
    reduced, and always the two modality listeners. *)
Theorem listeners_fixed env doc mk inputs :
  listeners (run inputs (DOMContentLoaded env doc mk))
  = listeners (DOMContentLoaded env doc mk)
  ∧ length (listeners (DOMContentLoaded env doc mk)) = listenerCount env doc.
Proof.
  split; [apply run_listeners_frame|].
  rewrite DOMContentLoaded_listeners. unfold installed, listenerCount.
  rewrite !length_app, marqueeListeners_length.
  unfold navListeners, heroListeners.
  destruct (doc_toggle doc), (doc_nav doc), (doc_hero doc), (prefersReducedMotion env);
    rewrite ?cardListeners_length; unfold keyboardListeners; cbn [length]; lia.
Qed.
